(** * The context bridge of [shell/renderer/api/atom_api_context_bridge.cc]

    A shallow embedding of the value marshaller that lets a privileged
    script context expose an API object graph into another context of the
    same frame: [PassValueToOtherContext], [CreateProxyForAPI],
    [ProxyFunctionWrapper], [DeepFreeze], [FunctionLifeMonitor] and
    [ExposeAPIInMainWorld].

    The script engine is modelled as an explicit object heap.  Every C++
    function that touches the engine or the handle store becomes a
    computation in a state monad over [State]; the two recursive functions
    take a fuel argument because object graphs may be cyclic. *)

From stdpp Require Import gmap strings list pretty.

Local Open Scope Z_scope.

(** ** Engine values *)

Abbreviation loc := N.
Abbreviation v8_Isolate := N.

Record v8_Context := { context_id : N; GetIsolate : v8_Isolate }.

Global Instance v8_Context_eq_dec : EqDecision v8_Context.
Proof. solve_decision. Defined.

(** [content::RenderFrame*]; [None] is the null pointer. *)
Abbreviation RenderFrame := N.
Abbreviation RenderFramePtr := (option RenderFrame).

(** [RenderFramePersistenceStore*]: one store exists per key of
    [store_map_], so a store pointer is named by that key. *)
Abbreviation StorePtr := RenderFramePtr.

(** [v8::Local<v8::Value>].  [v8::Null(isolate)] and
    [v8::Undefined(isolate)] are tagged with the isolate they were asked
    from; numbers are the integral ones. *)
Inductive v8_Value :=
| v8Undefined (isolate : v8_Isolate)
| v8Null (isolate : v8_Isolate)
| v8Boolean (b : bool)
| v8Number (n : Z)
| v8String (s : string)
| v8Symbol (description : N)
| v8Object (l : loc).

Global Instance v8_Value_eq_dec : EqDecision v8_Value.
Proof. solve_decision. Defined.

(** The callback a native function object runs: a script function of the
    page, or one of the three callbacks this file binds. *)
Inductive Callback :=
| ScriptFunction (code : N)
| BoundProxyFunctionWrapper (store : StorePtr) (func_id : N)
| then_cb (promise : loc) (source destination : v8_Context) (store : StorePtr)
| catch_cb (promise : loc) (source destination : v8_Context) (store : StorePtr).

Inductive ErrorConstructor :=
| Error | RangeError | ReferenceError | SyntaxError | TypeError
| CustomError (name : string).

Inductive PromiseState :=
| kPending
| kFulfilled (result : v8_Value)
| kRejected (result : v8_Value).

Inductive ObjectKind :=
| JSFunction (callback : Callback)
| JSPromise (state : PromiseState) (reactions : list (v8_Value * v8_Value))
| JSError (constructor : ErrorConstructor) (message : string)
| JSArray (elements : list v8_Value)
| JSPlainObject
| JSExotic.

Inductive PropertyAttribute := kNone | kReadOnlyDontDelete.

Global Instance PropertyAttribute_eq_dec : EqDecision PropertyAttribute.
Proof. solve_decision. Defined.

(** An own property.  [prop_value = None] is a property whose value the
    reader cannot retrieve. *)
Record Property := {
  prop_key : v8_Value;
  prop_value : option v8_Value;
  prop_attr : PropertyAttribute
}.

Record Object := {
  kind : ObjectKind;
  CreationContext : option v8_Context;
  properties : list Property;
  frozen : bool
}.

(** ** Bridge state *)

(** [std::tuple<v8::Global<v8::Function>, v8::Global<v8::Context>>] *)
Abbreviation FunctionContextPair := (loc * v8_Context)%type.

Record RenderFramePersistenceStore := {
  next_id_ : N;
  functions_ : gmap N FunctionContextPair
}.

Record FunctionLifeMonitor := {
  target : loc;
  store_ : StorePtr;
  func_id_ : N
}.

Record State := {
  heap : gmap loc Object;
  store_map_ : gmap RenderFramePtr RenderFramePersistenceStore;
  monitors : list FunctionLifeMonitor;
  microtasks : list (v8_Value * v8_Value);
  pending_exception : option v8_Value
}.

Definition set_heap (f : gmap loc Object → gmap loc Object) (st : State) : State :=
  {| heap := f (heap st); store_map_ := store_map_ st; monitors := monitors st;
     microtasks := microtasks st; pending_exception := pending_exception st |}.

Definition set_store_map_
    (f : gmap RenderFramePtr RenderFramePersistenceStore →
         gmap RenderFramePtr RenderFramePersistenceStore) (st : State) : State :=
  {| heap := heap st; store_map_ := f (store_map_ st); monitors := monitors st;
     microtasks := microtasks st; pending_exception := pending_exception st |}.

Definition set_monitors (f : list FunctionLifeMonitor → list FunctionLifeMonitor)
    (st : State) : State :=
  {| heap := heap st; store_map_ := store_map_ st; monitors := f (monitors st);
     microtasks := microtasks st; pending_exception := pending_exception st |}.

Definition set_microtasks
    (f : list (v8_Value * v8_Value) → list (v8_Value * v8_Value)) (st : State) : State :=
  {| heap := heap st; store_map_ := store_map_ st; monitors := monitors st;
     microtasks := f (microtasks st); pending_exception := pending_exception st |}.

Definition set_pending_exception (e : option v8_Value) (st : State) : State :=
  {| heap := heap st; store_map_ := store_map_ st; monitors := monitors st;
     microtasks := microtasks st; pending_exception := e |}.

(** ** The monad: state passing, [None] for a fatal abort of the process
    (a checked handle that is empty, a null dereference) or exhausted
    fuel. *)

Definition M (A : Type) : Type := State → option (A * State).

Definition ret {A} (a : A) : M A := λ st, Some (a, st).

Definition bind {A B} (m : M A) (k : A → M B) : M B :=
  λ st, match m st with
        | Some (a, st') => k a st'
        | None => None
        end.

Definition fatal {A} : M A := λ _, None.

Definition gets {A} (f : State → A) : M A := λ st, Some (f st, st).

Definition modify (f : State → State) : M unit := λ st, Some (tt, f st).

(** [ToLocalChecked] and pointer dereference *)
Definition checked {A} (o : option A) : M A :=
  match o with
  | Some a => ret a
  | None => fatal
  end.

Notation "'do' x <- m ; k" := (bind m (λ x, k))
  (at level 10, x name, m at level 100, k at level 200, only parsing).
Notation "m ;; k" := (bind m (λ _, k))
  (at level 100, k at level 200, right associativity, only parsing).

Fixpoint for_each {A} (xs : list A) (body : A → M unit) : M unit :=
  match xs with
  | [] => ret tt
  | x :: xs' => body x ;; for_each xs' body
  end.

Fixpoint map_each {A B} (xs : list A) (body : A → M B) : M (list B) :=
  match xs with
  | [] => ret []
  | x :: xs' => do y <- body x; do ys <- map_each xs' body; ret (y :: ys)
  end.

(** ** Value predicates of the engine *)

Definition kind_of (h : gmap loc Object) (value : v8_Value) : option ObjectKind :=
  match value with
  | v8Object l => kind <$> h !! l
  | _ => None
  end.

Definition IsFunction (h : gmap loc Object) (value : v8_Value) : bool :=
  match kind_of h value with Some (JSFunction _) => true | _ => false end.

Definition IsPromise (h : gmap loc Object) (value : v8_Value) : bool :=
  match kind_of h value with Some (JSPromise _ _) => true | _ => false end.

Definition IsNativeError (h : gmap loc Object) (value : v8_Value) : bool :=
  match kind_of h value with Some (JSError _ _) => true | _ => false end.

Definition IsArray (h : gmap loc Object) (value : v8_Value) : bool :=
  match kind_of h value with Some (JSArray _) => true | _ => false end.

Definition IsObject (value : v8_Value) : bool :=
  match value with v8Object _ => true | _ => false end.

Definition IsNull (value : v8_Value) : bool :=
  match value with v8Null _ => true | _ => false end.

Definition IsUndefined (value : v8_Value) : bool :=
  match value with v8Undefined _ => true | _ => false end.

Definition IsNullOrUndefined (value : v8_Value) : bool :=
  IsNull value || IsUndefined value.

(** [v8::Local<v8::Object>::Cast] *)
Definition Cast (value : v8_Value) : option loc :=
  match value with v8Object l => Some l | _ => None end.

(** ** Engine operations on the heap *)

Definition NewObject (o : Object) : M loc :=
  λ st, let l := fresh (dom (heap st)) in Some (l, set_heap (insert l o) st).

Definition GetObject (l : loc) : M Object :=
  λ st, match heap st !! l with
        | Some o => Some (o, st)
        | None => None
        end.

(** A function object made from a bound callback
    ([mate::ConvertToV8] of a [base::Callback], [Dictionary::SetMethod]):
    it is created in the context that is current. *)
Definition CreateFunction (current : v8_Context) (cb : Callback) : M loc :=
  NewObject {| kind := JSFunction cb; CreationContext := Some current;
               properties := []; frozen := false |}.

(** [mate::Dictionary::CreateEmpty], [v8::Object::New] *)
Definition Object_New (current : v8_Context) : M loc :=
  NewObject {| kind := JSPlainObject; CreationContext := Some current;
               properties := []; frozen := false |}.

(** [v8::Array::New(isolate, length)]: [length] holes, read as undefined *)
Definition Array_New (current : v8_Context) (length : nat) : M loc :=
  NewObject {| kind := JSArray (replicate length (v8Undefined (GetIsolate current)));
               CreationContext := Some current; properties := []; frozen := false |}.

(** [v8::Exception::Error(message)] *)
Definition Exception_Error (current : v8_Context) (message : string) : M loc :=
  NewObject {| kind := JSError Error message; CreationContext := Some current;
               properties := []; frozen := false |}.

(** The own properties a listing of the object shows: the elements of an
    array under their indices, then the named properties. *)
Definition own_properties (o : Object) : list Property :=
  match kind o with
  | JSArray elements =>
      imap (λ i e, {| prop_key := v8Number (Z.of_nat i); prop_value := Some e;
                      prop_attr := kNone |}) elements
  | _ => []
  end ++ properties o.

(** The string under which a key names a property. *)
Definition property_name (key : v8_Value) : option string :=
  match key with
  | v8String s => Some s
  | v8Number n => Some (pretty n)
  | _ => None
  end.

Definition find_property (name : string) (ps : list Property) : option Property :=
  list_find (λ p, property_name (prop_key p) = Some name) ps ≫= λ ip, Some ip.2.

(** [object->GetOwnPropertyNames(context)]: an empty [MaybeLocal] for an
    object whose keys cannot be listed. *)
Definition GetOwnPropertyNames (object : loc) : M (option (list v8_Value)) :=
  do o <- GetObject object;
  match kind o with
  | JSExotic => ret None
  | _ => ret (Some (prop_key <$> own_properties o))
  end.

(** The own property a read of [key] finds: the first one listed under
    that key. *)
Definition read_own_property (o : Object) (key : v8_Value) : option Property :=
  snd <$> list_find (λ p, prop_key p = key) (own_properties o).

(** [object->Get(context, key)]: a missing property reads as undefined, a
    property whose value cannot be retrieved gives an empty [MaybeLocal]. *)
Definition Object_Get (context : v8_Context) (object : loc) (key : v8_Value)
    : M (option v8_Value) :=
  do o <- GetObject object;
  match read_own_property o key with
  | Some p => ret (prop_value p)
  | None => ret (Some (v8Undefined (GetIsolate context)))
  end.

(** [arr->Length()] and [arr->Get(context, i)] *)
Definition Array_elements (arr : loc) : M (list v8_Value) :=
  do o <- GetObject arr;
  match kind o with
  | JSArray elements => ret elements
  | _ => fatal
  end.

Definition Array_Get (context : v8_Context) (arr : loc) (i : nat) : M (option v8_Value) :=
  do elements <- Array_elements arr;
  ret (Some (default (v8Undefined (GetIsolate context)) (elements !! i))).

(** Writing the element [i] of an array: within the length the element is
    replaced, beyond it the array grows, with holes in between. *)
Definition write_element (hole : v8_Value) (i : nat) (v : v8_Value)
    (elements : list v8_Value) : list v8_Value :=
  if decide (i < length elements)%nat then <[i:=v]> elements
  else elements ++ replicate (i - length elements) hole ++ [v].

Definition set_element (hole : v8_Value) (i : nat) (v : v8_Value) (o : Object) : Object :=
  match kind o with
  | JSArray elements =>
      if frozen o then o
      else {| kind := JSArray (write_element hole i v elements);
              CreationContext := CreationContext o;
              properties := properties o; frozen := frozen o |}
  | _ => o
  end.

(** [ignore_result(arr->Set(context, i, v))]; the index, a [size_t] cast to
    [int] and taken as [uint32_t], is the index itself for every index of an
    array. *)
Definition Array_Set (context : v8_Context) (arr : loc) (i : nat) (v : v8_Value) : M unit :=
  modify (set_heap (alter (set_element (v8Undefined (GetIsolate context)) i v) arr)).

Definition replace_property (name : string) (p' : Property) (ps : list Property)
    : list Property :=
  (λ p, if decide (property_name (prop_key p) = Some name) then p' else p) <$> ps.

(** Defining or assigning the named property [name] with value [v] and
    attributes [attr]: refused on a frozen object and on a property that is
    read-only and not deletable. *)
Definition define_property (name : string) (v : v8_Value) (attr : PropertyAttribute)
    (o : Object) : Object :=
  if frozen o then o
  else
    let p' := {| prop_key := v8String name; prop_value := Some v; prop_attr := attr |} in
    match find_property name (properties o) with
    | Some p =>
        match prop_attr p with
        | kReadOnlyDontDelete => o
        | kNone =>
            {| kind := kind o; CreationContext := CreationContext o;
               properties := replace_property name p' (properties o); frozen := frozen o |}
        end
    | None =>
        {| kind := kind o; CreationContext := CreationContext o;
           properties := properties o ++ [p']; frozen := frozen o |}
    end.

(** [object->SetIntegrityLevel(context, v8::IntegrityLevel::kFrozen)] *)
Definition SetIntegrityLevel_kFrozen (object : loc) : M unit :=
  modify (set_heap (alter (λ o, {| kind := kind o; CreationContext := CreationContext o;
                                   properties := properties o; frozen := true |}) object)).

(** ** Promises of the engine *)

(** [util::Promise<v8::Local<v8::Value>>(isolate)]: a pending promise of
    the context that is current; its handle is the returned location. *)
Definition Promise_New (current : v8_Context) : M loc :=
  NewObject {| kind := JSPromise kPending []; CreationContext := Some current;
               properties := []; frozen := false |}.

Definition set_kind (k : ObjectKind) (o : Object) : Object :=
  {| kind := k; CreationContext := CreationContext o; properties := properties o;
     frozen := frozen o |}.

(** [promise->Then(context, on_fulfilled, on_rejected)]: the reactions wait
    on a pending promise; on a settled one the matching reaction is queued
    as a microtask. *)
Definition Promise_Then (promise : loc) (on_fulfilled on_rejected : v8_Value) : M unit :=
  do o <- GetObject promise;
  match kind o with
  | JSPromise kPending reactions =>
      modify (set_heap (insert promise
        (set_kind (JSPromise kPending (reactions ++ [(on_fulfilled, on_rejected)])) o)))
  | JSPromise (kFulfilled result) _ =>
      modify (set_microtasks (λ q, q ++ [(on_fulfilled, result)]))
  | JSPromise (kRejected result) _ =>
      modify (set_microtasks (λ q, q ++ [(on_rejected, result)]))
  | _ => fatal
  end.



(** ** The handle store *)

Definition with_store {A} (store : StorePtr)
    (f : RenderFramePersistenceStore → A * RenderFramePersistenceStore) : M A :=
  λ st, match store_map_ st !! store with
        | Some s => Some ((f s).1, set_store_map_ (insert store (f s).2) st)
        | None => None
        end.

(** Modelled from the spec: [RenderFramePersistenceStore::take_id] of
    [shell/renderer/api/atom_api_context_bridge.h], which is not part of the
    sources at hand; the spec describes [next_id] as a monotonically
    increasing integer that is never recycled. *)
Definition take_id (store : StorePtr) : M N :=
  with_store store (λ s, (next_id_ s,
    {| next_id_ := (next_id_ s + 1)%N; functions_ := functions_ s |})).

(** [store->functions()[func_id] = entry] *)
Definition functions_insert (store : StorePtr) (func_id : N) (entry : FunctionContextPair)
    : M unit :=
  with_store store (λ s, (tt,
    {| next_id_ := next_id_ s; functions_ := <[func_id := entry]> (functions_ s) |})).

(** [store->functions().erase(func_id)] *)
Definition functions_erase (store : StorePtr) (func_id : N) : M unit :=
  with_store store (λ s, (tt,
    {| next_id_ := next_id_ s; functions_ := delete func_id (functions_ s) |})).

(** [store->functions()[func_id]] read for a call: an id without an entry
    yields empty handles, whose use aborts. *)
Definition functions_at (store : StorePtr) (func_id : N) : M FunctionContextPair :=
  do s <- gets (λ st, store_map_ st !! store);
  do s <- checked s;
  checked (functions_ s !! func_id).

(** [store->functions().size()], as [DebugGC] reports it *)
Definition functionCount (store : StorePtr) (st : State) : nat :=
  match store_map_ st !! store with
  | Some s => size (functions_ s)
  | None => 0
  end.

(** ** Lifetime monitors *)

(** [FunctionLifeMonitor::BindTo] *)
Definition FunctionLifeMonitor_BindTo (target : loc) (store : StorePtr) (func_id : N)
    : M unit :=
  modify (set_monitors (λ ms, ms ++ [{| target := target; store_ := store;
                                        func_id_ := func_id |}])).

(** [FunctionLifeMonitor::RunDestructor] *)
Definition RunDestructor (m : FunctionLifeMonitor) : M unit :=
  functions_erase (store_ m) (func_id_ m).

(** Modelled from the spec: [ObjectLifeMonitor] of
    [shell/common/api/remote/object_life_monitor.h], which is not part of
    the sources at hand; the spec has the monitor's callback run when the
    collector finds the object unreachable.  The collector reclaims
    [object]: it leaves the heap, and every monitor bound to it runs its
    destructor and is gone. *)
Definition OnObjectGC (object : loc) : M unit :=
  do ms <- gets monitors;
  modify (set_heap (delete object)) ;;
  modify (set_monitors (filter (λ m, target m ≠ object))) ;;
  for_each (filter (λ m, target m = object) ms) RunDestructor.

(** ** Converters *)

(** [base::Value], the engine-independent representation of plain data *)
Inductive base_Value :=
| base_NONE
| base_BOOLEAN (b : bool)
| base_INTEGER (n : Z)
| base_STRING (s : string).

(** Modelled from the spec: [mate::ConvertFromV8] to [std::string] and to
    [int] of the native_mate converters, which are not part of the sources
    at hand; a key is read as a string if it is one and as an integer if it
    is a number that fits [int]. *)
Definition ConvertFromV8_string (value : v8_Value) : option string :=
  match value with
  | v8String s => Some s
  | _ => None
  end.

Definition ConvertFromV8_int (value : v8_Value) : option Z :=
  match value with
  | v8Number n => if decide (- 2 ^ 31 ≤ n < 2 ^ 31) then Some n else None
  | _ => None
  end.

(** [base::NumberToString] *)
Definition NumberToString (n : Z) : string := pretty n.

(** Modelled from the spec: [mate::Dictionary::Get], [Has] and [Set] of
    native_mate, which are not part of the sources at hand.  [Get] fails
    for a key that is absent or whose value cannot be retrieved. *)
Definition Dictionary_Get (dict : loc) (key : string) : M (option v8_Value) :=
  do o <- GetObject dict;
  ret (find_property key (own_properties o) ≫= prop_value).

Definition Dictionary_Has (dict : loc) (key : string) : M bool :=
  do o <- GetObject dict;
  ret (bool_decide (is_Some (find_property key (own_properties o)))).

Definition Dictionary_Set (dict : loc) (key : string) (value : v8_Value) : M unit :=
  modify (set_heap (alter (define_property key value kNone) dict)).

Definition Dictionary_SetReadOnlyNonConfigurable (dict : loc) (key : string)
    (value : v8_Value) : M unit :=
  modify (set_heap (alter (define_property key value kReadOnlyDontDelete) dict)).

(** [mate::Arguments] of a native call *)
Record mate_Arguments := {
  isolate : v8_Isolate;
  GetCurrentContext : v8_Context;
  GetRemaining : list v8_Value
}.

(** Modelled from the spec: [mate::Arguments::ThrowError] of native_mate,
    which is not part of the sources at hand; the spec has the message
    raised as a new exception in the context that is current.  A new error
    object of that context becomes the pending exception. *)
Definition ThrowError (current : v8_Context) (message : string) : M unit :=
  do e <- Exception_Error current message;
  modify (set_pending_exception (Some (v8Object e))).

(** What a [v8::TryCatch] around [func->Call] observes. *)
Inductive CallOutcome :=
| Returned (maybe_return_value : option v8_Value)
| Caught (exception : v8_Value) (message : option v8_Value).

(** The collaborators outside this file: the hosting frame, the converter
    of plain data, the message the engine prints for an exception, the
    execution of a function, and the first id of a new store (set in the
    header of the store class). *)
Class Engine := {
  initial_next_id : N;
  FrameForContext : v8_Context → RenderFramePtr;
  MainWorldScriptContext : RenderFrame → v8_Context;
  WorldScriptContext : RenderFrame → v8_Context;
  Global : v8_Context → loc;
  ConvertFromV8_Value : v8_Value → option base_Value;
  ConvertToV8_Value : v8_Isolate → base_Value → v8_Value;
  CreateMessage_Get : gmap loc Object → v8_Value → string;
  Function_Call : v8_Context → loc → list v8_Value → M CallOutcome
}.

Section Bridge.

Context `{Engine}.

(** [GetRenderFrame] *)
Definition GetRenderFrame (value : loc) : M RenderFramePtr :=
  do o <- GetObject value;
  match CreationContext o with
  | None => ret None
  | Some context => ret (FrameForContext context)
  end.

(** [GetOrCreateStore] *)
Definition GetOrCreateStore (render_frame : RenderFramePtr) : M StorePtr :=
  λ st, match store_map_ st !! render_frame with
        | None =>
            Some (render_frame,
                  set_store_map_ (insert render_frame
                    {| next_id_ := initial_next_id; functions_ := ∅ |}) st)
        | Some _ => Some (render_frame, st)
        end.

(** [DeepFreeze] *)
Fixpoint DeepFreeze (fuel : nat) (object : loc) (context : v8_Context) : M unit :=
  match fuel with
  | O => fatal
  | S fuel =>
      do maybe_names <- GetOwnPropertyNames object;
      do property_names <- checked maybe_names;
      for_each property_names (λ name,
        do maybe_child <- Object_Get context object name;
        do child <- checked maybe_child;
        match child with
        | v8Object l => DeepFreeze fuel l context
        | _ => ret tt
        end) ;;
      SetIntegrityLevel_kFrozen object
  end.

(** One round of the loop of [DeepFreeze] over the names. *)
Definition freeze_child (fuel : nat) (object : loc) (context : v8_Context) (name : v8_Value)
    : M unit :=
  do maybe_child <- Object_Get context object name;
  do child <- checked maybe_child;
  match child with
  | v8Object l => DeepFreeze fuel l context
  | _ => ret tt
  end.

(** The key of an own property as [CreateProxyForAPI] reads it: as a
    string, else as an [int] turned into a string, else not at all. *)
Definition key_to_string (key : v8_Value) : option string :=
  match ConvertFromV8_string key with
  | Some key_str => Some key_str
  | None =>
      match ConvertFromV8_int key with
      | Some key_int => Some (NumberToString key_int)
      | None => None
      end
  end.

(** [PassValueToOtherContext] and [CreateProxyForAPI].  [current] is the
    context entered by the innermost [v8::Context::Scope] at the point of
    the call. *)
Fixpoint PassValueToOtherContext (fuel : nat) (current source destination : v8_Context)
    (value : v8_Value) (store : StorePtr) {struct fuel} : M v8_Value :=
  match fuel with
  | O => fatal
  | S fuel =>
      do h <- gets heap;
      if IsFunction h value then
        do func <- checked (Cast value);
        do func_id <- take_id store;
        functions_insert store func_id (func, source) ;;
        do proxy_func <- CreateFunction destination (BoundProxyFunctionWrapper store func_id);
        FunctionLifeMonitor_BindTo proxy_func store func_id ;;
        ret (v8Object proxy_func)
      else if IsPromise h value then
        do v8_promise <- checked (Cast value);
        do handle <- Promise_New destination;
        do on_fulfilled <- CreateFunction destination (then_cb handle source destination store);
        do on_rejected <- CreateFunction destination (catch_cb handle source destination store);
        Promise_Then v8_promise (v8Object on_fulfilled) (v8Object on_rejected) ;;
        ret (v8Object handle)
      else if IsNativeError h value then
        do e <- Exception_Error destination (CreateMessage_Get h value);
        ret (v8Object e)
      else if IsArray h value then
        do arr <- checked (Cast value);
        do elements <- Array_elements arr;
        let length := length elements in
        do cloned_arr <- Array_New destination length;
        for_each (seq 0 length) (λ i,
          do maybe_element <- Array_Get source arr i;
          do element <- checked maybe_element;
          do passed <- PassValueToOtherContext fuel destination source destination
                         element store;
          Array_Set destination cloned_arr i passed) ;;
        ret (v8Object cloned_arr)
      else if IsObject value && negb (IsNullOrUndefined value) then
        do api <- checked (Cast value);
        do proxy <- CreateProxyForAPI fuel current api source destination store;
        ret (v8Object proxy)
      else if IsNull value then
        ret (v8Null (GetIsolate destination))
      else if IsUndefined value then
        ret (v8Undefined (GetIsolate destination))
      else
        match ConvertFromV8_Value value with
        | None => ret (v8Null (GetIsolate destination))
        | Some ret_ => ret (ConvertToV8_Value (GetIsolate destination) ret_)
        end
  end

with CreateProxyForAPI (fuel : nat) (current : v8_Context) (api : loc)
    (source_context target_context : v8_Context) (store : StorePtr) {struct fuel} : M loc :=
  match fuel with
  | O => fatal
  | S fuel =>
      do proxy <- Object_New current;
      do maybe_keys <- GetOwnPropertyNames api;
      match maybe_keys with
      | None => ret proxy
      | Some keys =>
          for_each keys (λ key,
            match key_to_string key with
            | None => ret tt
            | Some key_str =>
                do maybe_value <- Dictionary_Get api key_str;
                match maybe_value with
                | None => ret tt
                | Some value =>
                    do h <- gets heap;
                    if IsFunction h value then
                      do func <- checked (Cast value);
                      do func_id <- take_id store;
                      functions_insert store func_id (func, source_context) ;;
                      do method <- CreateFunction target_context
                                     (BoundProxyFunctionWrapper store func_id);
                      Dictionary_Set proxy key_str (v8Object method)
                    else if IsObject value && negb (IsNullOrUndefined value) &&
                            negb (IsArray h value) && negb (IsPromise h value) then
                      do sub_api <- checked (Cast value);
                      do sub_proxy <- CreateProxyForAPI fuel target_context sub_api
                                        source_context target_context store;
                      Dictionary_Set proxy key_str (v8Object sub_proxy)
                    else
                      do passed <- PassValueToOtherContext fuel target_context
                                     source_context target_context value store;
                      Dictionary_Set proxy key_str passed
                end
            end) ;;
          ret proxy
      end
  end.

(** One round of the loop of [CreateProxyForAPI] over the keys. *)
Definition proxy_key (fuel : nat) (api proxy : loc) (source_context target_context : v8_Context)
    (store : StorePtr) (key : v8_Value) : M unit :=
  match key_to_string key with
  | None => ret tt
  | Some key_str =>
      do maybe_value <- Dictionary_Get api key_str;
      match maybe_value with
      | None => ret tt
      | Some value =>
          do h <- gets heap;
          if IsFunction h value then
            do func <- checked (Cast value);
            do func_id <- take_id store;
            functions_insert store func_id (func, source_context) ;;
            do method <- CreateFunction target_context
                           (BoundProxyFunctionWrapper store func_id);
            Dictionary_Set proxy key_str (v8Object method)
          else if IsObject value && negb (IsNullOrUndefined value) &&
                  negb (IsArray h value) && negb (IsPromise h value) then
            do sub_api <- checked (Cast value);
            do sub_proxy <- CreateProxyForAPI fuel target_context sub_api
                              source_context target_context store;
            Dictionary_Set proxy key_str (v8Object sub_proxy)
          else
            do passed <- PassValueToOtherContext fuel target_context
                           source_context target_context value store;
            Dictionary_Set proxy key_str passed
      end
  end.

(** What the loop of [CreateProxyForAPI] reads for a key of the API
    object [o]: the string form of the key and the value found under it, or
    nothing when the key is skipped. *)
Definition processed_key (o : Object) (key : v8_Value) : option (string * v8_Value) :=
  match key_to_string key with
  | None => None
  | Some key_str =>
      match find_property key_str (own_properties o) ≫= prop_value with
      | None => None
      | Some value => Some (key_str, value)
      end
  end.

(** The dispatch of the marshaller as the specification words it: the
    kinds of value in their order of precedence, the first kind that
    matches a value, and what is done for a value of each kind. *)
Inductive ValueKind :=
| Callable | PromiseLike | ErrorLike | ArrayLike | PlainObject | NullOrUndefined
| Primitive.

Definition precedence (h : gmap loc Object) : list (ValueKind * (v8_Value → bool)) :=
  [ (Callable, IsFunction h);
    (PromiseLike, IsPromise h);
    (ErrorLike, IsNativeError h);
    (ArrayLike, IsArray h);
    (PlainObject, λ value, IsObject value && negb (IsNullOrUndefined value));
    (NullOrUndefined, IsNullOrUndefined) ].

Definition first_match (h : gmap loc Object) (value : v8_Value) : ValueKind :=
  match List.find (λ c, c.2 value) (precedence h) with
  | Some c => c.1
  | None => Primitive
  end.

Definition marshal_as (kind : ValueKind) (fuel : nat)
    (current source destination : v8_Context) (value : v8_Value) (store : StorePtr)
    : M v8_Value :=
  match kind with
  | Callable =>
      do callable <- checked (Cast value);
      do id <- take_id store;
      functions_insert store id (callable, source) ;;
      do proxy <- CreateFunction destination (BoundProxyFunctionWrapper store id);
      FunctionLifeMonitor_BindTo proxy store id ;;
      ret (v8Object proxy)
  | PromiseLike =>
      do source_promise <- checked (Cast value);
      do new_promise <- Promise_New destination;
      do fulfillment <- CreateFunction destination
                          (then_cb new_promise source destination store);
      do rejection <- CreateFunction destination
                        (catch_cb new_promise source destination store);
      Promise_Then source_promise (v8Object fulfillment) (v8Object rejection) ;;
      ret (v8Object new_promise)
  | ErrorLike =>
      do h <- gets heap;
      do error <- Exception_Error destination (CreateMessage_Get h value);
      ret (v8Object error)
  | ArrayLike =>
      do array <- checked (Cast value);
      do elements <- Array_elements array;
      do new_array <- Array_New destination (length elements);
      for_each (seq 0 (length elements)) (λ index,
        do maybe_element <- Array_Get source array index;
        do element <- checked maybe_element;
        do marshalled <- PassValueToOtherContext fuel destination source destination
                           element store;
        Array_Set destination new_array index marshalled) ;;
      ret (v8Object new_array)
  | PlainObject =>
      do object <- checked (Cast value);
      do proxy <- CreateProxyForAPI fuel current object source destination store;
      ret (v8Object proxy)
  | NullOrUndefined =>
      if IsNull value then ret (v8Null (GetIsolate destination))
      else ret (v8Undefined (GetIsolate destination))
  | Primitive =>
      match ConvertFromV8_Value value with
      | Some intermediate => ret (ConvertToV8_Value (GetIsolate destination) intermediate)
      | None => ret (v8Null (GetIsolate destination))
      end
  end.


(** The fixed text thrown when the engine has no message for an exception. *)
Definition unknown_exception_message : string :=
  "An unknown exception occurred in the isolated context, an error occurred but a valid exception was not thrown.".

(** [ProxyFunctionWrapper]; the result is the returned handle, empty after
    [ThrowError]. *)
Definition ProxyFunctionWrapper (fuel : nat) (store : StorePtr) (func_id : N)
    (args : mate_Arguments) : M (option v8_Value) :=
  let calling_context := GetCurrentContext args in
  do entry <- functions_at store func_id;
  let func_owning_context := entry.2 in
  let func := entry.1 in
  do proxied_args <- map_each (GetRemaining args) (λ value,
    PassValueToOtherContext fuel func_owning_context calling_context
      func_owning_context value store);
  do outcome <- Function_Call func_owning_context func proxied_args;
  match outcome with
  | Caught _ message =>
      let error_message :=
        match message with
        | None => unknown_exception_message
        | Some text =>
            match ConvertFromV8_string text with
            | None => unknown_exception_message
            | Some error_message => error_message
            end
        end in
      ThrowError calling_context error_message ;;
      ret None
  | Returned None => ret (Some (v8Undefined (isolate args)))
  | Returned (Some return_value) =>
      do passed <- PassValueToOtherContext fuel func_owning_context func_owning_context
                     calling_context return_value store;
      ret (Some passed)
  end.




(** What [ExposeAPIInMainWorld] throws on a name that is taken. *)
Definition collision_message : string :=
  "Cannot bind an API on top of an existing property on the window object".

(** [ExposeAPIInMainWorld] *)
Definition ExposeAPIInMainWorld (fuel : nat) (key : string) (api : loc)
    (args : mate_Arguments) : M unit :=
  do render_frame <- GetRenderFrame api;
  do store <- GetOrCreateStore render_frame;
  do frame <- checked render_frame;
  let main_context := MainWorldScriptContext frame in
  let global := Global main_context in
  do taken <- Dictionary_Has global key;
  if taken then
    ThrowError (GetCurrentContext args) collision_message
  else
    let isolated_context := WorldScriptContext frame in
    do proxy <- CreateProxyForAPI fuel main_context api isolated_context main_context store;
    DeepFreeze fuel proxy main_context ;;
    Dictionary_SetReadOnlyNonConfigurable global key (v8Object proxy).

End Bridge.


(** * A frame with two contexts, used to run the code on concrete inputs *)

Module Example.

Definition isolated_world : v8_Context := {| context_id := 1%N; GetIsolate := 0%N |}.
Definition main_world : v8_Context := {| context_id := 0%N; GetIsolate := 0%N |}.

Definition from_v8 (value : v8_Value) : option base_Value :=
  match value with
  | v8Boolean b => Some (base_BOOLEAN b)
  | v8Number n => Some (base_INTEGER n)
  | v8String s => Some (base_STRING s)
  | _ => None
  end.

Definition to_v8 (i : v8_Isolate) (value : base_Value) : v8_Value :=
  match value with
  | base_NONE => v8Null i
  | base_BOOLEAN b => v8Boolean b
  | base_INTEGER n => v8Number n
  | base_STRING s => v8String s
  end.

(** Script function 0 returns its first argument, script function 1
    throws an error of a class of its own for which the engine reports the
    message [oh no], every other one throws a value the engine has no
    message for. *)
Definition call (context : v8_Context) (func : loc) (arguments : list v8_Value)
    : M CallOutcome :=
  do o <- GetObject func;
  match kind o with
  | JSFunction (ScriptFunction 0) => ret (Returned (head arguments))
  | JSFunction (ScriptFunction 1) =>
      do e <- NewObject {| kind := JSError (CustomError "MyError") "oh no";
                           CreationContext := Some context; properties := [];
                           frozen := false |};
      ret (Caught (v8Object e) (Some (v8String "oh no")))
  | _ => ret (Caught (v8Number 7) None)
  end.

Definition engine : Engine := {|
  initial_next_id := 1%N;
  FrameForContext := λ _, Some 7%N;
  MainWorldScriptContext := λ _, main_world;
  WorldScriptContext := λ _, isolated_world;
  Global := λ _, 0%N;
  ConvertFromV8_Value := from_v8;
  ConvertToV8_Value := to_v8;
  CreateMessage_Get := λ h value,
    match kind_of h value with Some (JSError _ message) => message | _ => "" end;
  Function_Call := call
|}.

Definition object_in (context : v8_Context) (k : ObjectKind) (ps : list Property) : Object :=
  {| kind := k; CreationContext := Some context; properties := ps; frozen := false |}.

Definition data (key : string) (value : v8_Value) : Property :=
  {| prop_key := v8String key; prop_value := Some value; prop_attr := kNone |}.

(** The heap of a frame whose preload script built an API object at
    location 4: [{ f, list: [f, 1, g], n: 3, sub: { g } }]; the global
    object of the main world is at location 0 and has a property
    [taken]; a pending promise is at location 6; the object at location 7
    has an index key beyond [int] and a property whose value cannot be
    retrieved. *)
Definition page_heap : gmap loc Object :=
  list_to_map [
    (0%N, object_in main_world JSPlainObject [data "taken" (v8Number 5)]);
    (1%N, object_in isolated_world (JSFunction (ScriptFunction 0)) []);
    (2%N, object_in isolated_world (JSFunction (ScriptFunction 1)) []);
    (3%N, object_in isolated_world (JSArray [v8Object 1%N; v8Number 1; v8Object 2%N]) []);
    (4%N, object_in isolated_world JSPlainObject
            [data "f" (v8Object 1%N); data "list" (v8Object 3%N);
             data "n" (v8Number 3); data "sub" (v8Object 5%N)]);
    (5%N, object_in isolated_world JSPlainObject [data "g" (v8Object 2%N)]);
    (6%N, object_in isolated_world (JSPromise kPending []) []);
    (7%N, object_in isolated_world JSPlainObject
            [ {| prop_key := v8Number 7; prop_value := Some (v8String "seven");
                 prop_attr := kNone |};
              {| prop_key := v8Number 4294967294; prop_value := Some (v8String "far");
                 prop_attr := kNone |};
              {| prop_key := v8String "hidden"; prop_value := None; prop_attr := kNone |};
              data "ok" (v8Boolean true) ])
  ].

(** Before the frame's first use of the bridge. *)
Definition fresh_page : State :=
  {| heap := page_heap; store_map_ := ∅; monitors := []; microtasks := [];
     pending_exception := None |}.

(** The same page once its store exists. *)
Definition page : State :=
  {| heap := page_heap;
     store_map_ := {[ Some 7%N := {| next_id_ := 1%N; functions_ := ∅ |} ]};
     monitors := []; microtasks := []; pending_exception := None |}.

Definition preload_call (arguments : list v8_Value) : mate_Arguments :=
  {| isolate := 0%N; GetCurrentContext := isolated_world; GetRemaining := arguments |}.

Definition main_world_call (arguments : list v8_Value) : mate_Arguments :=
  {| isolate := 0%N; GetCurrentContext := main_world; GetRemaining := arguments |}.

(** The page after its preload script has exposed the API object under
    the name [api]. *)
Definition exposed_page : State :=
  match ExposeAPIInMainWorld (H := engine) 5 "api" 4%N (preload_call []) fresh_page with
  | Some (_, st) => st
  | None => fresh_page
  end.

End Example.

(** * Invariants and relations used to state the properties *)

(** An object up to the reactions that wait on it. *)
Definition strip (o : Object) : Object :=
  match kind o with
  | JSPromise state _ => set_kind (JSPromise state []) o
  | _ => o
  end.

Definition heap_preserved (st st' : State) : Prop :=
  ∀ l o, heap st !! l = Some o → ∃ o', heap st' !! l = Some o' ∧ strip o' = strip o.

(** A store after more registrations: ids below the old counter and at or
    above the new one are as before, the ids in between are registered. *)
Definition store_grows (s s' : RenderFramePersistenceStore) : Prop :=
  (next_id_ s ≤ next_id_ s')%N ∧
  (∀ id, (id < next_id_ s)%N → functions_ s' !! id = functions_ s !! id) ∧
  (∀ id, (next_id_ s ≤ id < next_id_ s')%N → is_Some (functions_ s' !! id)) ∧
  (∀ id, (next_id_ s' ≤ id)%N → functions_ s' !! id = functions_ s !! id).

Definition stores_grow (st st' : State) : Prop :=
  ∀ sp, match store_map_ st !! sp, store_map_ st' !! sp with
        | Some s, Some s' => store_grows s s'
        | None, None => True
        | _, _ => False
        end.

(** Whether an object is a proxy function of the bridge. *)
Definition is_bound_proxy (o : Object) : Prop :=
  ∃ sp id, kind o = JSFunction (BoundProxyFunctionWrapper sp id).

(** [l] holds a proxy function bound to id [id] of store [sp]. *)
Definition bound_proxy (h : gmap loc Object) (l : loc) (sp : StorePtr) (id : N) : Prop :=
  ∃ o, h !! l = Some o ∧ kind o = JSFunction (BoundProxyFunctionWrapper sp id).

(** The proxy function at [l] was created between [st] and [st']. *)
Definition new_proxy (st st' : State) (l : loc) (sp : StorePtr) (id : N) : Prop :=
  heap st !! l = None ∧ bound_proxy (heap st') l sp id.

(** The ids of the proxy functions created between two states were taken
    from the counter in between, one each. *)
Definition proxies_fresh (st st' : State) : Prop :=
  ∀ l sp id, new_proxy st st' l sp id →
    ∃ s s', store_map_ st !! sp = Some s ∧ store_map_ st' !! sp = Some s' ∧
            (next_id_ s ≤ id < next_id_ s')%N.

Definition proxies_distinct (st st' : State) : Prop :=
  ∀ l1 l2 sp id, new_proxy st st' l1 sp id → new_proxy st st' l2 sp id → l1 = l2.

Definition evolves (st st' : State) : Prop :=
  heap_preserved st st' ∧ stores_grow st st' ∧
  pending_exception st' = pending_exception st ∧
  proxies_fresh st st' ∧ proxies_distinct st st'.


(** Every live entry of a store lies below its counter. *)
Definition store_wf (s : RenderFramePersistenceStore) : Prop :=
  ∀ id, is_Some (functions_ s !! id) → (id < next_id_ s)%N.

(** A store later in the life of the frame: entries may have been
    registered and erased. *)
Definition store_ages (s s' : RenderFramePersistenceStore) : Prop :=
  (next_id_ s ≤ next_id_ s')%N ∧
  (∀ id, is_Some (functions_ s' !! id) →
         is_Some (functions_ s !! id) ∨ (next_id_ s ≤ id < next_id_ s')%N) ∧
  (store_wf s → store_wf s').

(** The steps in the life of a frame: a marshalling pass, the building of
    a proxy object, the collection of an object, the lookup of a frame's
    store, a deep freeze, and any step of the engine or of script that
    leaves the stores alone and makes no proxy function of its own. *)
Inductive bridge_step `{Engine} : State → State → Prop :=
| step_marshal fuel current source destination value store st r st' :
    PassValueToOtherContext fuel current source destination value store st = Some (r, st') →
    bridge_step st st'
| step_build fuel current api source_context target_context store st r st' :
    CreateProxyForAPI fuel current api source_context target_context store st
      = Some (r, st') →
    bridge_step st st'
| step_collect object st st' :
    OnObjectGC object st = Some (tt, st') →
    bridge_step st st'
| step_store render_frame st r st' :
    GetOrCreateStore render_frame st = Some (r, st') →
    bridge_step st st'
| step_freeze fuel object context st st' :
    DeepFreeze fuel object context st = Some (tt, st') →
    bridge_step st st'
| step_engine st st' :
    store_map_ st' = store_map_ st →
    (∀ l sp id, ¬ new_proxy st st' l sp id) →
    bridge_step st st'.

Definition bridge_run `{Engine} : State → State → Prop := rtc bridge_step.

Definition stores_age (st st' : State) : Prop :=
  ∀ sp s, store_map_ st !! sp = Some s →
    ∃ s', store_map_ st' !! sp = Some s' ∧ store_ages s s'.

(** No object appears between the two states. *)
Definition no_new_objects (st st' : State) : Prop :=
  ∀ l, heap st !! l = None → heap st' !! l = None.

(** Reading an own property of the object at [l] yields the object at
    [l']. *)
Definition child_of (h : gmap loc Object) (l l' : loc) : Prop :=
  ∃ o p, h !! l = Some o ∧ read_own_property o (prop_key p) = Some p ∧
         prop_value p = Some (v8Object l').

(** The objects reachable from [root] through own properties. *)
Definition reachable (h : gmap loc Object) (root : loc) : loc → Prop :=
  rtc (child_of h) root.

(** What script of the destination context can try on an object it holds:
    assign or add the property [name], assign the element [i] of an array,
    delete the property [name].  Deletion is refused on a frozen object and
    for a property that is not deletable. *)
Definition delete_property (name : string) (o : Object) : Object :=
  if frozen o then o
  else
    {| kind := kind o; CreationContext := CreationContext o;
       properties :=
         filter (λ p, property_name (prop_key p) ≠ Some name ∨
                      prop_attr p = kReadOnlyDontDelete) (properties o);
       frozen := frozen o |}.

Definition tamper_proof (o : Object) : Prop :=
  ∀ name v i hole,
    define_property name v kNone o = o ∧ set_element hole i v o = o ∧
    delete_property name o = o.

(** Two states that differ only by objects that were frozen in between. *)
Definition only_frozen (st st' : State) : Prop :=
  (∀ l o, heap st !! l = Some o →
     ∃ o', heap st' !! l = Some o' ∧ kind o' = kind o ∧ properties o' = properties o ∧
           CreationContext o' = CreationContext o ∧ (frozen o = true → frozen o' = true)) ∧
  (∀ l, heap st !! l = None → heap st' !! l = None).


(** The object at [l] is a function that runs [callback]. *)
Definition has_callback (h : gmap loc Object) (l : loc) (callback : Callback) : Prop :=
  ∃ o, h !! l = Some o ∧ kind o = JSFunction callback.

(** * States used to state the properties *)

(** The state after [ExposeAPIInMainWorld] has refused a name: the store
    of the frame exists, the error object [e] is on the heap and is the
    pending exception. *)
Definition after_collision `{Engine} (frame : RenderFrame) (current : v8_Context) (e : loc)
    (st : State) : State :=
  {| heap := <[e := {| kind := JSError Error collision_message;
                       CreationContext := Some current; properties := [];
                       frozen := false |}]> (heap st);
     store_map_ :=
       match store_map_ st !! Some frame with
       | Some _ => store_map_ st
       | None => <[Some frame := {| next_id_ := initial_next_id; functions_ := ∅ |}]>
                   (store_map_ st)
       end;
     monitors := monitors st;
     microtasks := microtasks st;
     pending_exception := Some (v8Object e) |}.

(** The message [ProxyFunctionWrapper] throws for what the [TryCatch]
    reports. *)
Definition rethrown_message (message : option v8_Value) : string :=
  match message with
  | Some (v8String text) => text
  | _ => unknown_exception_message
  end.

(** The state after the marshaller has proxied the function [f]: the entry
    is registered under the next id, the proxy function is at [p], and one
    monitor is bound to it. *)
Definition after_proxying (store : StorePtr) (s : RenderFramePersistenceStore) (f p : loc)
    (source destination : v8_Context) (st : State) : State :=
  {| heap := <[p := {| kind := JSFunction (BoundProxyFunctionWrapper store (next_id_ s));
                       CreationContext := Some destination; properties := [];
                       frozen := false |}]> (heap st);
     store_map_ := <[store := {| next_id_ := (next_id_ s + 1)%N;
                                 functions_ := <[next_id_ s := (f, source)]> (functions_ s) |}]>
                     (store_map_ st);
     monitors := monitors st ++ [{| target := p; store_ := store; func_id_ := next_id_ s |}];
     microtasks := microtasks st;
     pending_exception := pending_exception st |}.


(** The state after the marshaller has bound its two reactions for the
    new promise at [handle]: the new promise and the two functions are on
    the heap. *)
Definition with_promise_proxy (source destination : v8_Context) (store : StorePtr)
    (handle on_fulfilled on_rejected : loc) (st : State) : State :=
  set_heap (λ h,
    <[on_rejected := {| kind := JSFunction (catch_cb handle source destination store);
                        CreationContext := Some destination; properties := [];
                        frozen := false |}]>
    (<[on_fulfilled := {| kind := JSFunction (then_cb handle source destination store);
                          CreationContext := Some destination; properties := [];
                          frozen := false |}]>
    (<[handle := {| kind := JSPromise kPending []; CreationContext := Some destination;
                    properties := []; frozen := false |}]> h))) st.


(** * Further code of the file and what is needed to state its properties *)

Section Diagnostics.

Context `{Engine}.

(** [DebugGC] (debug builds); [current] is the context that is current at
    the call, in which the returned dictionary is created. *)
Definition DebugGC (current : v8_Context) (empty : loc) : M loc :=
  do render_frame <- GetRenderFrame empty;
  do store <- GetOrCreateStore render_frame;
  do ret_ <- Object_New current;
  do count <- gets (functionCount store);
  Dictionary_Set ret_ "functionCount" (v8Number (Z.of_nat count)) ;;
  ret ret_.

End Diagnostics.

(** The value [v] is no reference to an object of the state [st]. *)
Definition fresh_value (st : State) (v : v8_Value) : Prop :=
  match v with
  | v8Object l => heap st !! l = None
  | _ => True
  end.

(** Every object that appeared between [st] and [st'] holds, as values of
    its own properties, only references to objects that appeared in
    between too. *)
Definition points_outside (st st' : State) : Prop :=
  ∀ l o p l',
    heap st !! l = None → heap st' !! l = Some o →
    p ∈ own_properties o → prop_value p = Some (v8Object l') →
    heap st !! l' = None.

(** The converter of plain data makes no object. *)
Definition converts_to_plain_data `{Engine} : Prop :=
  ∀ i b, IsObject (ConvertToV8_Value i b) = false.

(** An existing object after a marshalling pass: the same, but for the
    reactions that wait on a promise. *)
Definition same_but_reactions (o o' : Object) : Prop :=
  ((∀ state reactions, kind o ≠ JSPromise state reactions) → o' = o) ∧
  (∀ state reactions, kind o = JSPromise state reactions →
     ∃ reactions', o' = set_kind (JSPromise state reactions') o).

(** What a pass that returns leaves alone: the objects that existed, the
    pending exception, the set of stores, their counters from below and
    their entries below the counter. *)
Definition left_alone (st st' : State) : Prop :=
  (∀ l o, heap st !! l = Some o →
     ∃ o', heap st' !! l = Some o' ∧ same_but_reactions o o') ∧
  pending_exception st' = pending_exception st ∧
  (∀ sp, store_map_ st !! sp = None → store_map_ st' !! sp = None) ∧
  (∀ sp s, store_map_ st !! sp = Some s →
     ∃ s', store_map_ st' !! sp = Some s' ∧ (next_id_ s ≤ next_id_ s')%N ∧
           ∀ id, (id < next_id_ s)%N → functions_ s' !! id = functions_ s !! id).

(** An existing object after a marshalling pass: the same, but for
    reactions added behind those that waited on a promise. *)
Definition reactions_added (o o' : Object) : Prop :=
  ((∀ state reactions, kind o ≠ JSPromise state reactions) → o' = o) ∧
  (∀ state reactions, kind o = JSPromise state reactions →
     ∃ added, o' = set_kind (JSPromise state (reactions ++ added)) o).

(** Every object of [st] is in [st'], with reactions added at most. *)
Definition grown (st st' : State) : Prop :=
  ∀ l o, heap st !! l = Some o → ∃ o', heap st' !! l = Some o' ∧ reactions_added o o'.

(** What a pass that returns leaves intact: the objects that existed,
    the reactions that waited on them and their order, the pending
    exception, the set of stores, their counters from below and their
    entries below the counter. *)
Definition left_intact (st st' : State) : Prop :=
  grown st st' ∧
  pending_exception st' = pending_exception st ∧
  (∀ sp, store_map_ st !! sp = None → store_map_ st' !! sp = None) ∧
  (∀ sp s, store_map_ st !! sp = Some s →
     ∃ s', store_map_ st' !! sp = Some s' ∧ (next_id_ s ≤ next_id_ s')%N ∧
           ∀ id, (id < next_id_ s)%N → functions_ s' !! id = functions_ s !! id).

(** The example page after its promise has been marshalled to the main
    world once: the reactions of that pass wait on the promise. *)
Definition awaited : State :=
  match PassValueToOtherContext (H := Example.engine) 1 Example.isolated_world
          Example.isolated_world Example.main_world (v8Object 6%N) (Some 7%N)
          Example.page with
  | Some (_, st) => st
  | None => Example.page
  end.

(** An object without object-valued properties. *)
Definition holds_no_object (o : Object) : Prop :=
  ∀ p l', p ∈ own_properties o → prop_value p ≠ Some (v8Object l').

(** The object-valued properties after a write are those before it and
    the value written. *)
Definition writes_only (v : v8_Value) (f : Object → Object) : Prop :=
  ∀ o p l', p ∈ own_properties (f o) → prop_value p = Some (v8Object l') →
    v = v8Object l' ∨ ∃ p0, p0 ∈ own_properties o ∧ prop_value p0 = Some (v8Object l').

(** A pass that leaves existing objects alone and whose new objects hold
    references to new objects only. *)
Definition sealed (st st' : State) : Prop := evolves st st' ∧ points_outside st st'.

(** The objects created between [st] and [st'] belong to the context [c],
    but for the object [top], which belongs to [current]. *)
Definition created_in (current c : v8_Context) (top : option loc) (st st' : State) : Prop :=
  ∀ l o, heap st !! l = None → heap st' !! l = Some o →
    CreationContext o = Some c ∨ (top = Some l ∧ CreationContext o = Some current).

(** The object after [SetIntegrityLevel] to frozen. *)
Definition frozen_copy (o : Object) : Object :=
  {| kind := kind o; CreationContext := CreationContext o; properties := properties o;
     frozen := true |}.

(** A set of objects each of which has a child in the set: a walk along
    own properties that starts in the set need never end. *)
Definition endless (h : gmap loc Object) (region : loc → Prop) : Prop :=
  ∀ l, region l → ∃ l', child_of h l l' ∧ region l'.

(** The object at [l] can be listed, the value of each of its own
    properties can be retrieved, and the objects among these values are in
    [region] and of lower rank. *)
Definition freezable (h : gmap loc Object) (rank : loc → nat) (region : loc → Prop)
    (l : loc) : Prop :=
  ∃ o, h !! l = Some o ∧ kind o ≠ JSExotic ∧
       ∀ p, p ∈ own_properties o →
            ∃ v, prop_value p = Some v ∧
                 ∀ c, v = v8Object c → region c ∧ (rank c < rank l)%nat.

(** The example page with one more object, which holds itself under the
    name [self]. *)
Definition knot : State :=
  set_heap (insert 8%N (Example.object_in Example.isolated_world JSPlainObject
                          [Example.data "self" (v8Object 8%N)])) Example.page.




(** An engine that words the message of a caught exception as V8 words
    that of an uncaught one: the word [Uncaught], the name of the
    constructor and the message of the error.  Script function 1 throws an
    error of a class of its own whose message is [oh no]; all else is as
    in the engine of the examples. *)
Definition uncaught_call (context : v8_Context) (func : loc) (arguments : list v8_Value)
    : M CallOutcome :=
  do o <- GetObject func;
  match kind o with
  | JSFunction (ScriptFunction 0) => ret (Returned (head arguments))
  | JSFunction (ScriptFunction 1) =>
      do e <- NewObject {| kind := JSError (CustomError "MyError") "oh no";
                           CreationContext := Some context; properties := [];
                           frozen := false |};
      ret (Caught (v8Object e) (Some (v8String "Uncaught MyError: oh no")))
  | _ => ret (Caught (v8Number 7) None)
  end.

Definition uncaught_engine : Engine := {|
  initial_next_id := 1%N;
  FrameForContext := λ _, Some 7%N;
  MainWorldScriptContext := λ _, Example.main_world;
  WorldScriptContext := λ _, Example.isolated_world;
  Global := λ _, 0%N;
  ConvertFromV8_Value := Example.from_v8;
  ConvertToV8_Value := Example.to_v8;
  CreateMessage_Get := λ h value,
    match kind_of h value with Some (JSError _ message) => message | _ => "" end;
  Function_Call := uncaught_call
|}.

(** The example page after its first function has been marshalled to the
    main world, after the proxy function made for it has then been
    collected, and after its second function has then been marshalled. *)
Definition proxied_once : State :=
  match PassValueToOtherContext (H := Example.engine) 1 Example.isolated_world
          Example.isolated_world Example.main_world (v8Object 1%N) (Some 7%N)
          Example.page with
  | Some (_, st) => st
  | None => Example.page
  end.

Definition collected_once : State :=
  match OnObjectGC 8%N proxied_once with
  | Some (_, st) => st
  | None => proxied_once
  end.

Definition proxied_again : State :=
  match PassValueToOtherContext (H := Example.engine) 1 Example.isolated_world
          Example.isolated_world Example.main_world (v8Object 2%N) (Some 7%N)
          collected_once with
  | Some (_, st) => st
  | None => collected_once
  end.

(** The ranks of the objects of the API object of the example page. *)
Definition page_rank (l : loc) : nat :=
  if decide (l = 4%N) then 2 else if decide (l = 3%N) then 1
  else if decide (l = 5%N) then 1 else 0.

(** The kinds of object that the loop of [CreateProxyForAPI] hands to
    [CreateProxyForAPI] again and that have keys to go through. *)
Definition nestable (k : ObjectKind) : Prop :=
  match k with
  | JSPlainObject | JSError _ _ => True
  | _ => False
  end.

(** The loop of [CreateProxyForAPI] over the keys of the object at [l]
    meets the object at [l']. *)
Definition nests (h : gmap loc Object) (l l' : loc) : Prop :=
  ∃ o key name, h !! l = Some o ∧ nestable (kind o) ∧
                key ∈ prop_key <$> own_properties o ∧
                processed_key o key = Some (name, v8Object l').

Definition nests_endlessly (h : gmap loc Object) (region : loc → Prop) : Prop :=
  ∀ l, region l → ∃ l', nests h l l' ∧ region l'.

(** The objects of [region] that can be nested are the same in both
    states. *)
Definition keeps (region : loc → Prop) (st st' : State) : Prop :=
  ∀ l o, region l → heap st !! l = Some o → nestable (kind o) → heap st' !! l = Some o.

(** The state [st] once one id of the store [s] has been taken and given
    back: only the counter has moved. *)
Definition after_collection (store : StorePtr) (s : RenderFramePersistenceStore) (st : State)
    : State :=
  set_store_map_ (insert store {| next_id_ := (next_id_ s + 1)%N;
                                  functions_ := functions_ s |}) st.

(** The frame that hosts an object, as [GetRenderFrame] finds it. *)
Definition frame_of `{Engine} (o : Object) : RenderFramePtr :=
  match CreationContext o with
  | Some context => FrameForContext context
  | None => None
  end.

(** The object [DebugGC] returns for a count. *)
Definition count_report (current : v8_Context) (count : nat) : Object :=
  {| kind := JSPlainObject; CreationContext := Some current;
     properties := [{| prop_key := v8String "functionCount";
                       prop_value := Some (v8Number (Z.of_nat count));
                       prop_attr := kNone |}];
     frozen := false |}.

(** The example page with one more object, which has no creation
    context. *)
Definition adrift : State :=
  set_heap (insert 9%N {| kind := JSPlainObject; CreationContext := None;
                          properties := []; frozen := false |}) Example.page.

(** The object at [l] exists, and the objects among the values of its own
    properties are in [region] and of lower rank. *)
Definition marshallable (h : gmap loc Object) (rank : loc → nat) (region : loc → Prop)
    (l : loc) : Prop :=
  ∃ o, h !! l = Some o ∧
       ∀ p c, p ∈ own_properties o → prop_value p = Some (v8Object c) →
              region c ∧ (rank c < rank l)%nat.

(** A state in which the store exists and the objects of [region] can be
    marshalled. *)
Definition ready (rank : loc → nat) (region : loc → Prop) (store : StorePtr) (st : State)
    : Prop :=
  is_Some (store_map_ st !! store) ∧ ∀ l, region l → marshallable (heap st) rank region l.

(** The objects created between the two states. *)
Definition created (st st' : State) (l : loc) : Prop :=
  heap st !! l = None ∧ is_Some (heap st' !! l).

(** The objects created between the two states can be deep-frozen, and
    their ranks are at most [bound]. *)
Definition outcome (bound : nat) (st st' : State) : Prop :=
  ∃ rk : loc → nat,
    ∀ l, created st st' l →
         freezable (heap st') rk (created st st') l ∧ (rk l ≤ bound)%nat.

(** The objects created between the two states have no own properties. *)
Definition leafy (st st' : State) : Prop :=
  ∀ l o, heap st !! l = None → heap st' !! l = Some o →
         own_properties o = [] ∧ kind o ≠ JSExotic.

(** The state of a loop that fills the new object [top]: the other
    objects created so far can be deep-frozen and are of rank below [R],
    and the objects [top] holds are among them. *)
Definition under_top (R : nat) (top : loc) (st s : State) : Prop :=
  evolves st s ∧ heap st !! top = None ∧
  (∃ rk : loc → nat,
     ∀ l, created st s l → l ≠ top →
          freezable (heap s) rk (λ c, created st s c ∧ c ≠ top) l ∧ (rk l < R)%nat) ∧
  ∃ o, heap s !! top = Some o ∧ kind o ≠ JSExotic ∧
       ∀ p, p ∈ own_properties o →
            ∃ v, prop_value p = Some v ∧ ∀ c, v = v8Object c → created st s c ∧ c ≠ top.

(** What a write of [v] by [f] leaves in an object. *)
Definition writes (v : v8_Value) (f : Object → Object) : Prop :=
  (∀ o, kind (f o) = kind o ∨ ¬ is_bound_proxy (f o)) ∧
  (∀ o, kind o ≠ JSExotic → kind (f o) ≠ JSExotic) ∧
  ∀ o p, p ∈ own_properties (f o) →
         p ∈ own_properties o ∨ ∃ w, prop_value p = Some w ∧ (w = v ∨ IsObject w = false).

(** The monitors of [st'] are those of [st], in their order, followed by
    monitors each of which is bound to a proxy function created since
    [st] and carries the store and the id that proxy function is bound
    to. *)
Definition monitors_grow (st st' : State) : Prop :=
  ∃ new,
    monitors st' = monitors st ++ new ∧
    Forall (λ m, heap st !! target m = None ∧
                 bound_proxy (heap st') (target m) (store_ m) (func_id_ m)) new.
(** * Reasoning about computations *)

Lemma bind_Some {A B} (m : M A) (k : A → M B) st r :
  bind m k st = Some r ↔ ∃ a st1, m st = Some (a, st1) ∧ k a st1 = Some r.
Proof.
  unfold bind. split.
  - destruct (m st) as [[a st1]|]; [eauto | discriminate].
  - intros (a & st1 & -> & Hk). exact Hk.
Qed.

Lemma ret_Some {A} (a : A) st r : ret a st = Some r ↔ r = (a, st).
Proof. unfold ret. split; congruence. Qed.

Lemma gets_Some {A} (f : State → A) st r : gets f st = Some r ↔ r = (f st, st).
Proof. unfold gets. split; congruence. Qed.

Lemma modify_Some f st r : modify f st = Some r ↔ r = (tt, f st).
Proof. unfold modify. split; congruence. Qed.

Lemma checked_Some {A} (o : option A) st r :
  checked o st = Some r ↔ ∃ a, o = Some a ∧ r = (a, st).
Proof.
  destruct o as [a|]; simpl; unfold ret, fatal; split.
  - intros [= <-]. eauto.
  - intros (a' & [= <-] & ->). reflexivity.
  - discriminate.
  - intros (a' & [=] & _).
Qed.

Lemma GetObject_Some l st r :
  GetObject l st = Some r ↔ ∃ o, heap st !! l = Some o ∧ r = (o, st).
Proof.
  unfold GetObject. destruct (heap st !! l) as [o|]; split.
  - intros [= <-]. eauto.
  - intros (o' & [= <-] & ->). reflexivity.
  - discriminate.
  - intros (o' & [=] & _).
Qed.

(** Splits a successful run into the runs of its steps. *)
Ltac run_step :=
  match goal with
  | Hrun : bind _ _ _ = Some _ |- _ =>
      apply bind_Some in Hrun; destruct Hrun as (? & ? & ? & ?)
  | Hrun : ret _ _ = Some _ |- _ => apply ret_Some in Hrun
  | Hrun : gets _ _ = Some _ |- _ => apply gets_Some in Hrun
  | Hrun : modify _ _ = Some _ |- _ => apply modify_Some in Hrun
  | Hrun : checked _ _ = Some _ |- _ =>
      apply checked_Some in Hrun; destruct Hrun as (? & ? & ?)
  | Hrun : GetObject _ _ = Some _ |- _ =>
      apply GetObject_Some in Hrun; destruct Hrun as (? & ? & ?)
  | Hrun : fatal _ = Some _ |- _ => discriminate Hrun
  | Hrun : FunctionLifeMonitor_BindTo _ _ _ _ = Some _ |- _ =>
      unfold FunctionLifeMonitor_BindTo in Hrun
  | Hrun : Array_Set _ _ _ _ _ = Some _ |- _ => unfold Array_Set in Hrun
  | Hrun : Dictionary_Set _ _ _ _ = Some _ |- _ => unfold Dictionary_Set in Hrun
  | Hrun : Dictionary_SetReadOnlyNonConfigurable _ _ _ _ = Some _ |- _ =>
      unfold Dictionary_SetReadOnlyNonConfigurable in Hrun
  | Hrun : SetIntegrityLevel_kFrozen _ _ = Some _ |- _ =>
      unfold SetIntegrityLevel_kFrozen in Hrun
  end.

Ltac run_steps := repeat (run_step; simplify_eq).

Tactic Notation "run_bind" hyp(Hrun) "as" ident(a) ident(s) ident(Ha) :=
  apply bind_Some in Hrun; destruct Hrun as (a & s & Ha & Hrun).

Tactic Notation "run_get" hyp(Hrun) "as" ident(o) ident(Ho) :=
  let a := fresh in
  let s := fresh in
  let E := fresh in
  apply bind_Some in Hrun; destruct Hrun as (a & s & Ho & Hrun);
  apply GetObject_Some in Ho; destruct Ho as (o & Ho & E); injection E as -> ->.

Tactic Notation "run_checked" hyp(Hrun) "as" ident(a) ident(Ha) :=
  let x := fresh in
  let s := fresh in
  let E := fresh in
  apply bind_Some in Hrun; destruct Hrun as (x & s & Ha & Hrun);
  apply checked_Some in Ha; destruct Ha as (a & Ha & E); injection E as -> ->.

Ltac case_kind :=
  match goal with
  | Hrun : context [match kind ?o with _ => _ end] |- _ => destruct (kind o) eqn:?
  end.

Lemma for_each_inv {A} (I : State → Prop) (xs : list A) (body : A → M unit) st st' :
  I st →
  (∀ x s s', x ∈ xs → I s → body x s = Some (tt, s') → I s') →
  for_each xs body st = Some (tt, st') →
  I st'.
Proof.
  revert st. induction xs as [|x xs IH]; intros st HI Hbody Hrun; simpl in Hrun.
  - run_steps. exact HI.
  - run_bind Hrun as u s1 Hx. destruct u.
    apply (IH s1); [|intros; eapply Hbody; eauto; by right|done].
    eapply Hbody; eauto. by left.
Qed.

(** * What a marshalling pass leaves alone *)

Lemma heap_preserved_refl st : heap_preserved st st.
Proof. intros l o Hl. eauto. Qed.

Lemma heap_preserved_trans st1 st2 st3 :
  heap_preserved st1 st2 → heap_preserved st2 st3 → heap_preserved st1 st3.
Proof.
  intros H12 H23 l o Hl.
  destruct (H12 _ _ Hl) as (o2 & Hl2 & E2).
  destruct (H23 _ _ Hl2) as (o3 & Hl3 & E3).
  exists o3. split; [done | congruence].
Qed.

Lemma store_grows_refl s : store_grows s s.
Proof. repeat split; intros; try done; lia. Qed.

Lemma store_grows_trans s1 s2 s3 :
  store_grows s1 s2 → store_grows s2 s3 → store_grows s1 s3.
Proof.
  intros (Hle & Hlow & Hmid & Hhigh) (Hle' & Hlow' & Hmid' & Hhigh').
  repeat split.
  - lia.
  - intros id Hid. rewrite Hlow' by lia. by apply Hlow.
  - intros id Hid. destruct (decide (id < next_id_ s2)%N).
    + rewrite Hlow' by done. apply Hmid. lia.
    + apply Hmid'. lia.
  - intros id Hid. rewrite Hhigh' by done. apply Hhigh. lia.
Qed.

Lemma stores_grow_refl st : stores_grow st st.
Proof. intros sp. destruct (store_map_ st !! sp); [apply store_grows_refl | done]. Qed.

Lemma stores_grow_same st st' : store_map_ st' = store_map_ st → stores_grow st st'.
Proof. intros E sp. rewrite E. destruct (store_map_ st !! sp); [apply store_grows_refl | done]. Qed.

Lemma stores_grow_trans st1 st2 st3 :
  stores_grow st1 st2 → stores_grow st2 st3 → stores_grow st1 st3.
Proof.
  intros H12 H23 sp. specialize (H12 sp). specialize (H23 sp).
  destruct (store_map_ st1 !! sp), (store_map_ st2 !! sp), (store_map_ st3 !! sp);
    try done.
  eapply store_grows_trans; eauto.
Qed.

Lemma stores_grow_lookup st st' sp s :
  stores_grow st st' → store_map_ st !! sp = Some s →
  ∃ s', store_map_ st' !! sp = Some s' ∧ store_grows s s'.
Proof.
  intros Hg Hs. specialize (Hg sp). unfold stores_grow in Hg. rewrite Hs in Hg.
  destruct (store_map_ st' !! sp) as [s'|]; [eauto | done].
Qed.

Lemma stores_grow_lookup_r st st' sp s' :
  stores_grow st st' → store_map_ st' !! sp = Some s' →
  ∃ s, store_map_ st !! sp = Some s ∧ store_grows s s'.
Proof.
  intros Hg Hs. specialize (Hg sp). unfold stores_grow in Hg. rewrite Hs in Hg.
  destruct (store_map_ st !! sp) as [s|]; [eauto | done].
Qed.

Lemma strip_kind_function o o' cb :
  strip o' = strip o → kind o' = JSFunction cb → kind o = JSFunction cb.
Proof.
  destruct o as [k c ps fz], o' as [k' c' ps' fz']. unfold strip, set_kind. simpl.
  intros E ->. destruct k as [| ? ? | | | |]; simpl in E; congruence.
Qed.

Lemma new_proxy_not_new st l sp id : ¬ new_proxy st st l sp id.
Proof. intros (Hnone & o & Hsome & _). congruence. Qed.

Lemma evolves_same st st' :
  heap st' = heap st → store_map_ st' = store_map_ st →
  pending_exception st' = pending_exception st → evolves st st'.
Proof.
  intros Eh Es Ee. split; [|split; [|split; [|split]]].
  - intros l o Hl. rewrite Eh. eauto.
  - by apply stores_grow_same.
  - done.
  - intros l sp id (Hnone & o & Hsome & _). rewrite Eh in Hsome. congruence.
  - intros l1 l2 sp id (Hnone & o & Hsome & _). rewrite Eh in Hsome. congruence.
Qed.

Lemma evolves_refl st : evolves st st.
Proof. by apply evolves_same. Qed.

(** A proxy function that is new after two passes is new after the first,
    or absent after the first and new after the second. *)
Lemma new_proxy_split st1 st2 st3 l sp id :
  heap_preserved st2 st3 → new_proxy st1 st3 l sp id →
  new_proxy st1 st2 l sp id ∨ (heap st2 !! l = None ∧ new_proxy st2 st3 l sp id).
Proof.
  intros H23 (Hnone & o3 & Hl3 & Hk3).
  destruct (heap st2 !! l) as [o2|] eqn:Hl2.
  - left. split; [done|]. exists o2. split; [done|].
    destruct (H23 _ _ Hl2) as (o3' & Hl3' & E). simplify_eq.
    by eapply strip_kind_function.
  - right. split; [done|]. split; [done|]. by exists o3.
Qed.

Lemma evolves_trans st1 st2 st3 : evolves st1 st2 → evolves st2 st3 → evolves st1 st3.
Proof.
  intros (Hh & Hs & He & Hf & Hd) (Hh' & Hs' & He' & Hf' & Hd').
  assert (Hrange1 : ∀ l sp id, new_proxy st1 st2 l sp id →
            ∃ s1 s2 s3, store_map_ st1 !! sp = Some s1 ∧ store_map_ st2 !! sp = Some s2 ∧
              store_map_ st3 !! sp = Some s3 ∧
              (next_id_ s1 ≤ id < next_id_ s2)%N ∧ (next_id_ s2 ≤ next_id_ s3)%N).
  { intros l sp id Hn. destruct (Hf _ _ _ Hn) as (s1 & s2 & E1 & E2 & Hr).
    destruct (stores_grow_lookup _ _ _ _ Hs' E2) as (s3 & E3 & Hg).
    exists s1, s2, s3. repeat split; try done; try lia. apply Hg. }
  assert (Hrange2 : ∀ l sp id, new_proxy st2 st3 l sp id →
            ∃ s1 s2 s3, store_map_ st1 !! sp = Some s1 ∧ store_map_ st2 !! sp = Some s2 ∧
              store_map_ st3 !! sp = Some s3 ∧
              (next_id_ s2 ≤ id < next_id_ s3)%N ∧ (next_id_ s1 ≤ next_id_ s2)%N).
  { intros l sp id Hn. destruct (Hf' _ _ _ Hn) as (s2 & s3 & E2 & E3 & Hr).
    destruct (stores_grow_lookup_r _ _ _ _ Hs E2) as (s1 & E1 & Hg).
    exists s1, s2, s3. repeat split; try done; try lia. apply Hg. }
  split; [|split; [|split; [|split]]].
  - eapply heap_preserved_trans; eauto.
  - eapply stores_grow_trans; eauto.
  - congruence.
  - intros l sp id Hn. destruct (new_proxy_split _ _ _ _ _ _ Hh' Hn) as [Hn1|[_ Hn2]].
    + destruct (Hrange1 _ _ _ Hn1) as (s1 & s2 & s3 & ? & ? & ? & ? & ?).
      exists s1, s3. repeat split; try done; lia.
    + destruct (Hrange2 _ _ _ Hn2) as (s1 & s2 & s3 & ? & ? & ? & ? & ?).
      exists s1, s3. repeat split; try done; lia.
  - intros l1 l2 sp id Hn1 Hn2.
    destruct (new_proxy_split _ _ _ _ _ _ Hh' Hn1) as [Ha|[_ Ha]],
             (new_proxy_split _ _ _ _ _ _ Hh' Hn2) as [Hb|[_ Hb]].
    + eauto.
    + destruct (Hrange1 _ _ _ Ha) as (? & ? & ? & ? & ? & ? & ? & ?).
      destruct (Hrange2 _ _ _ Hb) as (? & ? & ? & ? & ? & ? & ? & ?).
      simplify_eq. lia.
    + destruct (Hrange2 _ _ _ Ha) as (? & ? & ? & ? & ? & ? & ? & ?).
      destruct (Hrange1 _ _ _ Hb) as (? & ? & ? & ? & ? & ? & ? & ?).
      simplify_eq. lia.
    + eauto.
Qed.

Lemma evolves_dom st st' l : evolves st st' → l ∈ dom (heap st) → l ∈ dom (heap st').
Proof.
  intros (Hh & _) [o Hl]%elem_of_dom. destruct (Hh _ _ Hl) as (o' & Hl' & _).
  apply elem_of_dom. eauto.
Qed.

Lemma NewObject_Some o st r :
  NewObject o st = Some r ↔
  r = (fresh (dom (heap st)), set_heap (insert (fresh (dom (heap st))) o) st).
Proof. unfold NewObject. split; congruence. Qed.

Lemma fresh_not_in_heap st : heap st !! fresh (dom (heap st)) = None.
Proof. apply not_elem_of_dom, is_fresh. Qed.

Lemma evolves_insert_new st l o :
  heap st !! l = None → ¬ is_bound_proxy o → evolves st (set_heap (insert l o) st).
Proof.
  intros Hl Ho.
  assert (Hnew : ∀ l0 sp id, ¬ new_proxy st (set_heap (insert l o) st) l0 sp id).
  { intros l0 sp id (Hnone & o0 & Hsome & Hk). simpl in Hsome.
    destruct (decide (l = l0)) as [<-|Hne].
    - rewrite lookup_insert_eq in Hsome. simplify_eq. apply Ho. by exists sp, id.
    - rewrite lookup_insert_ne in Hsome by done. congruence. }
  split; [|split; [by apply stores_grow_same | split; [done | split]]].
  - intros l0 o0 Hl0. exists o0. split; [|done]. simpl.
    rewrite lookup_insert_ne; [done | congruence].
  - intros l0 sp id Hn. by apply Hnew in Hn.
  - intros l1 l2 sp id Hn. by apply Hnew in Hn.
Qed.

Lemma evolves_alter_new st0 st l f :
  evolves st0 st → heap st0 !! l = None → (∀ o, kind (f o) = kind o ∨ ¬ is_bound_proxy (f o)) →
  evolves st0 (set_heap (alter f l) st).
Proof.
  intros (Hh & Hs & He & Hf & Hd) Hl Hkind.
  assert (Hnew : ∀ l0 sp id, new_proxy st0 (set_heap (alter f l) st) l0 sp id →
                             new_proxy st0 st l0 sp id).
  { intros l0 sp id (Hnone & o0 & Hsome & Hk). split; [done|]. simpl in Hsome.
    destruct (decide (l = l0)) as [<-|Hne].
    - rewrite lookup_alter_eq in Hsome. destruct (heap st !! l) as [o|] eqn:Hlo; [|done].
      simpl in Hsome. simplify_eq. exists o. split; [done|].
      destruct (Hkind o) as [E|Hn]; [congruence|]. exfalso. apply Hn. by exists sp, id.
    - rewrite lookup_alter_ne in Hsome by done. by exists o0. }
  split; [|split; [exact Hs | split; [exact He | split]]].
  - intros l0 o0 Hl0. destruct (Hh _ _ Hl0) as (o' & Hl' & E).
    exists o'. split; [|done]. simpl. rewrite lookup_alter_ne; [done | congruence].
  - intros l0 sp id Hn. apply Hnew in Hn. exact (Hf _ _ _ Hn).
  - intros l1 l2 sp id Hn1 Hn2. apply Hnew in Hn1, Hn2. eauto.
Qed.

Lemma set_element_kind hole i v o :
  kind (set_element hole i v o) = kind o ∨ ¬ is_bound_proxy (set_element hole i v o).
Proof.
  unfold set_element. destruct (kind o) eqn:Hk; auto. destruct (frozen o); auto.
  right. intros (sp & id & E). discriminate.
Qed.

Lemma define_property_kind name v attr o :
  kind (define_property name v attr o) = kind o ∨
  ¬ is_bound_proxy (define_property name v attr o).
Proof.
  left. unfold define_property. destruct (frozen o); [done|].
  destruct (find_property _ _) as [p|]; [destruct (prop_attr p)|]; done.
Qed.

Lemma evolves_monitors st f : evolves st (set_monitors f st).
Proof. by apply evolves_same. Qed.

Lemma evolves_microtasks st f : evolves st (set_microtasks f st).
Proof. by apply evolves_same. Qed.

Lemma with_store_Some {A} store (f : RenderFramePersistenceStore → A * RenderFramePersistenceStore)
    st r :
  with_store store f st = Some r ↔
  ∃ s, store_map_ st !! store = Some s ∧
       r = ((f s).1, set_store_map_ (insert store (f s).2) st).
Proof.
  unfold with_store. destruct (store_map_ st !! store) as [s|]; split.
  - intros [= <-]. eauto.
  - intros (s' & [= <-] & ->). reflexivity.
  - discriminate.
  - intros (s' & [=] & _).
Qed.

(** The two statements that register a function: [take_id], then the
    assignment into [functions()]. *)
Lemma register_Some store entry st id st1 u st2 :
  take_id store st = Some (id, st1) →
  functions_insert store id entry st1 = Some (u, st2) →
  ∃ s, store_map_ st !! store = Some s ∧ id = next_id_ s ∧
       st2 = set_store_map_ (insert store
               {| next_id_ := (next_id_ s + 1)%N;
                  functions_ := <[next_id_ s := entry]> (functions_ s) |}) st.
Proof.
  intros (s & Hs & E1)%with_store_Some (s1 & Hs1 & E2)%with_store_Some.
  simpl in *. simplify_eq. simpl in Hs1. rewrite lookup_insert_eq in Hs1. simplify_eq.
  exists s. split; [done|]. split; [done|].
  unfold set_store_map_. simpl. f_equal. by rewrite insert_insert_eq.
Qed.

Lemma stores_grow_register store entry st s :
  store_map_ st !! store = Some s →
  stores_grow st (set_store_map_ (insert store
    {| next_id_ := (next_id_ s + 1)%N;
       functions_ := <[next_id_ s := entry]> (functions_ s) |}) st).
Proof.
  intros Hs sp. simpl. destruct (decide (store = sp)) as [<-|Hne].
  - rewrite Hs, lookup_insert_eq. repeat split; simpl.
    + lia.
    + intros id Hid. rewrite lookup_insert_ne; [done | lia].
    + intros id Hid. assert (id = next_id_ s) as -> by lia. rewrite lookup_insert_eq. eauto.
    + intros id Hid. rewrite lookup_insert_ne; [done | lia].
  - rewrite lookup_insert_ne by done.
    destruct (store_map_ st !! sp); [apply store_grows_refl | done].
Qed.

Lemma strip_set_kind_reactions o state reactions reactions' :
  kind o = JSPromise state reactions →
  strip (set_kind (JSPromise state reactions') o) = strip o.
Proof. destruct o as [k c ps fz]. simpl. intros ->. reflexivity. Qed.

Lemma evolves_Promise_Then promise on_fulfilled on_rejected st u st' :
  Promise_Then promise on_fulfilled on_rejected st = Some (u, st') → evolves st st'.
Proof.
  unfold Promise_Then. intros Hrun. run_get Hrun as o Ho.
  destruct (kind o) as [| [| |] reactions | | | |] eqn:Hk; run_steps.
  - assert (Hnew : ∀ l sp id, ¬ new_proxy st (set_heap (insert promise
        (set_kind (JSPromise kPending (reactions ++ [(on_fulfilled, on_rejected)])) o)) st)
        l sp id).
    { intros l sp id (Hnone & o0 & Hsome & Hk0). simpl in Hsome.
      destruct (decide (promise = l)) as [<-|Hne].
      - congruence.
      - rewrite lookup_insert_ne in Hsome by done. congruence. }
    split; [|split; [by apply stores_grow_same | split; [done | split]]].
    + intros l o0 Hl. simpl. destruct (decide (promise = l)) as [<-|Hne].
      * rewrite lookup_insert_eq. simplify_eq. eexists. split; [done|].
        by eapply strip_set_kind_reactions.
      * rewrite lookup_insert_ne by done. eauto.
    + intros l sp id Hn. by apply Hnew in Hn.
    + intros l1 l2 sp id Hn. by apply Hnew in Hn.
  - apply evolves_microtasks.
  - apply evolves_microtasks.
Qed.

Section Frame.

Context `{Engine}.

Lemma PassValueToOtherContext_S fuel current source destination value store :
  PassValueToOtherContext (S fuel) current source destination value store =
  (do h <- gets heap;
   if IsFunction h value then
     do func <- checked (Cast value);
     do func_id <- take_id store;
     functions_insert store func_id (func, source) ;;
     do proxy_func <- CreateFunction destination (BoundProxyFunctionWrapper store func_id);
     FunctionLifeMonitor_BindTo proxy_func store func_id ;;
     ret (v8Object proxy_func)
   else if IsPromise h value then
     do v8_promise <- checked (Cast value);
     do handle <- Promise_New destination;
     do on_fulfilled <- CreateFunction destination (then_cb handle source destination store);
     do on_rejected <- CreateFunction destination (catch_cb handle source destination store);
     Promise_Then v8_promise (v8Object on_fulfilled) (v8Object on_rejected) ;;
     ret (v8Object handle)
   else if IsNativeError h value then
     do e <- Exception_Error destination (CreateMessage_Get h value);
     ret (v8Object e)
   else if IsArray h value then
     do arr <- checked (Cast value);
     do elements <- Array_elements arr;
     do cloned_arr <- Array_New destination (length elements);
     for_each (seq 0 (length elements)) (λ i,
       do maybe_element <- Array_Get source arr i;
       do element <- checked maybe_element;
       do passed <- PassValueToOtherContext fuel destination source destination
                      element store;
       Array_Set destination cloned_arr i passed) ;;
     ret (v8Object cloned_arr)
   else if IsObject value && negb (IsNullOrUndefined value) then
     do api <- checked (Cast value);
     do proxy <- CreateProxyForAPI fuel current api source destination store;
     ret (v8Object proxy)
   else if IsNull value then
     ret (v8Null (GetIsolate destination))
   else if IsUndefined value then
     ret (v8Undefined (GetIsolate destination))
   else
     match ConvertFromV8_Value value with
     | None => ret (v8Null (GetIsolate destination))
     | Some ret_ => ret (ConvertToV8_Value (GetIsolate destination) ret_)
     end).
Proof. reflexivity. Qed.

Lemma CreateProxyForAPI_S fuel current api source_context target_context store :
  CreateProxyForAPI (S fuel) current api source_context target_context store =
  (do proxy <- Object_New current;
   do maybe_keys <- GetOwnPropertyNames api;
   match maybe_keys with
   | None => ret proxy
   | Some keys =>
       for_each keys (proxy_key fuel api proxy source_context target_context store) ;;
       ret proxy
   end).
Proof. reflexivity. Qed.

Opaque PassValueToOtherContext CreateProxyForAPI.

Ltac new_object :=
  match goal with
  | Hrun : CreateFunction _ _ _ = Some _ |- _ =>
      unfold CreateFunction in Hrun; apply NewObject_Some in Hrun
  | Hrun : Object_New _ _ = Some _ |- _ =>
      unfold Object_New in Hrun; apply NewObject_Some in Hrun
  | Hrun : Array_New _ _ _ = Some _ |- _ =>
      unfold Array_New in Hrun; apply NewObject_Some in Hrun
  | Hrun : Promise_New _ _ = Some _ |- _ =>
      unfold Promise_New in Hrun; apply NewObject_Some in Hrun
  | Hrun : Exception_Error _ _ _ = Some _ |- _ =>
      unfold Exception_Error in Hrun; apply NewObject_Some in Hrun
  end.

Lemma evolves_NewObject o st l st' :
  ¬ is_bound_proxy o → NewObject o st = Some (l, st') → evolves st st'.
Proof.
  intros Ho E%NewObject_Some. simplify_eq.
  by apply evolves_insert_new; [apply fresh_not_in_heap|].
Qed.

Ltac not_bound_proxy :=
  let sp := fresh in
  let id := fresh in
  let E := fresh in
  intros (sp & id & E); discriminate E.

Lemma GetOwnPropertyNames_state object st r st' :
  GetOwnPropertyNames object st = Some (r, st') → st' = st.
Proof. unfold GetOwnPropertyNames. intros Hrun. run_steps. case_kind; by run_steps. Qed.

Lemma Dictionary_Get_state dict key st r st' :
  Dictionary_Get dict key st = Some (r, st') → st' = st.
Proof. unfold Dictionary_Get. intros Hrun. by run_steps. Qed.

Lemma Array_elements_state arr st r st' :
  Array_elements arr st = Some (r, st') → st' = st.
Proof. unfold Array_elements. intros Hrun. run_steps. case_kind; by run_steps. Qed.

Lemma Array_Get_state context arr i st r st' :
  Array_Get context arr i st = Some (r, st') → st' = st.
Proof.
  unfold Array_Get. intros Hrun. run_bind Hrun as es s1 Hes.
  apply Array_elements_state in Hes as ->. by run_steps.
Qed.

(** Registering a function and creating the proxy function bound to the
    id just taken. *)
Lemma evolves_proxied_function store entry context st id st1 u st2 l st3 :
  take_id store st = Some (id, st1) →
  functions_insert store id entry st1 = Some (u, st2) →
  CreateFunction context (BoundProxyFunctionWrapper store id) st2 = Some (l, st3) →
  evolves st st3 ∧ heap st !! l = None.
Proof.
  intros Ht Hi Hc. destruct (register_Some _ _ _ _ _ _ _ Ht Hi) as (s & Hs & -> & ->).
  unfold CreateFunction in Hc. apply NewObject_Some in Hc. simpl in Hc. simplify_eq.
  set (l := fresh (dom (heap st))).
  assert (Hl : heap st !! l = None) by apply fresh_not_in_heap.
  split; [|done].
  assert (Hnew : ∀ l0 sp id0, new_proxy st
     (set_heap (insert l {| kind := JSFunction (BoundProxyFunctionWrapper store (next_id_ s));
                            CreationContext := Some context; properties := [];
                            frozen := false |})
        (set_store_map_ (insert store
           {| next_id_ := (next_id_ s + 1)%N;
              functions_ := <[next_id_ s := entry]> (functions_ s) |}) st)) l0 sp id0 →
     l0 = l ∧ sp = store ∧ id0 = next_id_ s).
  { intros l0 sp id0 (Hnone & o0 & Hsome & Hk). simpl in Hsome.
    destruct (decide (l = l0)) as [<-|Hne].
    - rewrite lookup_insert_eq in Hsome. simplify_eq. simpl in Hk. by simplify_eq.
    - rewrite lookup_insert_ne in Hsome by done. congruence. }
  split; [|split; [|split; [done | split]]].
  - intros l0 o0 Hl0. exists o0. split; [|done]. simpl.
    rewrite lookup_insert_ne; [done | congruence].
  - by apply stores_grow_register.
  - intros l0 sp id0 (-> & -> & ->)%Hnew. exists s. eexists. split; [done|].
    simpl. rewrite lookup_insert_eq. split; [done|]. simpl. lia.
  - intros l1 l2 sp id0 (-> & _)%Hnew (-> & _)%Hnew. done.
Qed.

Lemma frame fuel :
  (∀ current source destination value store st r st',
     PassValueToOtherContext fuel current source destination value store st = Some (r, st') →
     evolves st st') ∧
  (∀ current api source_context target_context store st r st',
     CreateProxyForAPI fuel current api source_context target_context store st = Some (r, st') →
     evolves st st').
Proof.
  induction fuel as [|fuel [IHpass IHproxy]];
    (split; [intros ??????? st' Hrun | intros ??????? st' Hrun]).
  - discriminate.
  - discriminate.
  - rewrite PassValueToOtherContext_S in Hrun. run_bind Hrun as h s0 Hh.
    run_steps.
    destruct (IsFunction _ _).
    { run_bind Hrun as func s1 Hcast. run_bind Hrun as func_id s2 Htake.
      run_bind Hrun as u s3 Hins. run_bind Hrun as proxy_func s4 Hnew. run_steps.
      destruct (evolves_proxied_function _ _ _ _ _ _ _ _ _ _ Htake Hins Hnew) as (Hev & _).
      eapply evolves_trans; [exact Hev | apply evolves_monitors]. }
    destruct (IsPromise _ _).
    { run_bind Hrun as v8_promise s1 Hcast. run_bind Hrun as handle s2 Hnew.
      run_bind Hrun as on_fulfilled s3 Hf. run_bind Hrun as on_rejected s4 Hr.
      run_bind Hrun as u s5 Hthen. run_steps.
      eapply evolves_trans; [eapply evolves_NewObject; [|done]; not_bound_proxy|].
      eapply evolves_trans; [eapply evolves_NewObject; [|done]; not_bound_proxy|].
      eapply evolves_trans; [eapply evolves_NewObject; [|done]; not_bound_proxy|].
      by eapply evolves_Promise_Then. }
    destruct (IsNativeError _ _).
    { run_bind Hrun as e s1 Hnew. run_steps.
      eapply evolves_NewObject; [|done]. not_bound_proxy. }
    destruct (IsArray _ _).
    { run_bind Hrun as arr s1 Hcast. run_bind Hrun as elements s2 Hes.
      run_bind Hrun as cloned_arr s3 Hnew. run_bind Hrun as u s4 Hloop. run_steps.
      apply Array_elements_state in Hes as ->.
      destruct u. revert Hloop. apply for_each_inv.
      - eapply evolves_NewObject; [|done]. not_bound_proxy.
      - intros i s s' _ Hs Hbody. run_bind Hbody as maybe_element s5 Hget.
        run_bind Hbody as element s6 Hck. run_bind Hbody as passed s7 Hpass. run_steps.
        apply Array_Get_state in Hget as ->.
        apply evolves_alter_new;
          [|by apply NewObject_Some in Hnew; simplify_eq; apply fresh_not_in_heap
           |apply set_element_kind].
        eapply evolves_trans; [exact Hs | by eapply IHpass]. }
    destruct (IsObject _ && _).
    { run_bind Hrun as api s1 Hcast. run_bind Hrun as proxy s2 Hproxy. run_steps.
      by eapply IHproxy. }
    destruct (IsNull _); [run_steps; apply evolves_refl|].
    destruct (IsUndefined _); [run_steps; apply evolves_refl|].
    destruct (ConvertFromV8_Value _); run_steps; apply evolves_refl.
  - rewrite CreateProxyForAPI_S in Hrun. run_bind Hrun as proxy s1 Hnew.
    run_bind Hrun as maybe_keys s2 Hkeys.
    apply GetOwnPropertyNames_state in Hkeys as ->.
    pose proof Hnew as Hev. apply evolves_NewObject in Hev; [|not_bound_proxy].
    apply NewObject_Some in Hnew. simplify_eq.
    destruct maybe_keys as [keys|]; [|by run_steps].
    run_bind Hrun as u s3 Hloop. destruct u. run_steps.
    revert Hloop. apply for_each_inv; [exact Hev|].
    intros key s s' _ Hs Hbody. unfold proxy_key in Hbody.
    destruct (key_to_string key) as [key_str|]; [|by run_steps].
    run_bind Hbody as maybe_value s4 Hget. apply Dictionary_Get_state in Hget as ->.
    destruct maybe_value as [value|]; [|by run_steps].
    run_bind Hbody as h s5 Hh. run_steps.
    assert (Hfresh : heap st !! fresh (dom (heap st)) = None) by apply fresh_not_in_heap.
    destruct (IsFunction _ _).
    { run_bind Hbody as func t1 Hcast. run_bind Hbody as func_id t2 Htake.
      run_bind Hbody as u t3 Hins. run_bind Hbody as method t4 Hmethod. run_steps.
      destruct (evolves_proxied_function _ _ _ _ _ _ _ _ _ _ Htake Hins Hmethod)
        as (Hev' & _).
      apply evolves_alter_new; [|done|apply define_property_kind].
      eapply evolves_trans; eauto. }
    destruct (_ && _).
    { run_bind Hbody as sub_api t1 Hcast. run_bind Hbody as sub_proxy t2 Hsub. run_steps.
      apply evolves_alter_new; [|done|apply define_property_kind].
      eapply evolves_trans; [exact Hs | by eapply IHproxy]. }
    run_bind Hbody as passed t1 Hpass. run_steps.
    apply evolves_alter_new; [|done|apply define_property_kind].
    eapply evolves_trans; [exact Hs | by eapply IHpass].
Qed.

End Frame.

(** * The dispatch of the marshaller *)

Lemma PassValueToOtherContext_first_match_aux `{Engine} fuel current source destination
    value store st :
  PassValueToOtherContext (S fuel) current source destination value store st =
    marshal_as (first_match (heap st) value) fuel current source destination value store st
  ∧ (∀ i, PassValueToOtherContext (S fuel) current source destination (v8Null i) store st =
          Some (v8Null (GetIsolate destination), st))
  ∧ (∀ i, PassValueToOtherContext (S fuel) current source destination (v8Undefined i)
            store st =
          Some (v8Undefined (GetIsolate destination), st)).
Proof.
  split; [|split; intros i; reflexivity].
  rewrite PassValueToOtherContext_S. unfold first_match, precedence. simpl.
  change (bind (gets heap) ?k st) with (k (heap st) st). cbv beta.
  destruct (IsFunction (heap st) value); [reflexivity|].
  destruct (IsPromise (heap st) value); [reflexivity|].
  destruct (IsNativeError (heap st) value); [reflexivity|].
  destruct (IsArray (heap st) value); [reflexivity|].
  destruct (IsObject value && negb (IsNullOrUndefined value)); [reflexivity|].
  unfold IsNullOrUndefined.
  destruct (IsNull value) eqn:Hnull; simpl; [by rewrite Hnull|].
  destruct (IsUndefined value) eqn:Hundef; simpl.
  - rewrite Hnull. reflexivity.
  - destruct (ConvertFromV8_Value value); reflexivity.
Qed.

(** C2: on every value the marshaller does what the first matching kind of
    the precedence list callable, promise, error, array, plain object,
    null or undefined, primitive prescribes; a null or an undefined, from
    whichever isolate it was taken, comes back as the null or the undefined
    of the destination's isolate, with no effect on the state. *)
Theorem PassValueToOtherContext_first_match `{Engine} fuel current source destination
    value store st :
  PassValueToOtherContext (S fuel) current source destination value store st =
    marshal_as (first_match (heap st) value) fuel current source destination value store st
  ∧ (∀ i, PassValueToOtherContext (S fuel) current source destination (v8Null i) store st =
          Some (v8Null (GetIsolate destination), st))
  ∧ (∀ i, PassValueToOtherContext (S fuel) current source destination (v8Undefined i)
            store st =
          Some (v8Undefined (GetIsolate destination), st)).
Proof. apply PassValueToOtherContext_first_match_aux. Qed.

(** A function is an object too, and an array as well: the earlier kind
    wins. *)
Example first_match_function :
  first_match Example.page_heap (v8Object 1%N) = Callable.
Proof. reflexivity. Qed.

Example first_match_array :
  first_match Example.page_heap (v8Object 3%N) = ArrayLike.
Proof. reflexivity. Qed.

Example first_match_symbol :
  first_match Example.page_heap (v8Symbol 3%N) = Primitive.
Proof. reflexivity. Qed.

(** * The fallback for plain data *)

(** C8: a value that reaches the fallback case and that the converter of
    plain data rejects is answered with the null of the destination's
    isolate; the state, and with it the pending exception, is as before. *)
Theorem PassValueToOtherContext_unconvertible `{Engine} fuel current source destination
    value store st :
  first_match (heap st) value = Primitive →
  ConvertFromV8_Value value = None →
  PassValueToOtherContext (S fuel) current source destination value store st =
    Some (v8Null (GetIsolate destination), st).
Proof.
  intros Hkind Hconv.
  destruct (PassValueToOtherContext_first_match_aux fuel current source destination
              value store st) as [-> _].
  rewrite Hkind. simpl. by rewrite Hconv.
Qed.

Lemma PassValueToOtherContext_unconvertible_witness :
  PassValueToOtherContext (H := Example.engine) 1 Example.isolated_world
    Example.isolated_world Example.main_world (v8Symbol 3%N) (Some 7%N) Example.page =
  Some (v8Null 0%N, Example.page).
Proof.
  apply (PassValueToOtherContext_unconvertible (H := Example.engine)); reflexivity.
Defined.

(** * Ids of the handle store *)

Lemma store_ages_refl s : store_ages s s.
Proof. repeat split; [lia | by left | done]. Qed.

Lemma store_ages_trans s1 s2 s3 : store_ages s1 s2 → store_ages s2 s3 → store_ages s1 s3.
Proof.
  intros (Hle & Hin & Hwf) (Hle' & Hin' & Hwf'). repeat split.
  - lia.
  - intros id Hid. destruct (Hin' _ Hid) as [Hid2|Hr]; [|right; lia].
    destruct (Hin _ Hid2) as [?|Hr]; [by left | right; lia].
  - auto.
Qed.

Lemma store_grows_ages s s' : store_grows s s' → store_ages s s'.
Proof.
  intros (Hle & Hlow & Hmid & Hhigh). repeat split.
  - done.
  - intros id Hid. destruct (decide (id < next_id_ s)%N).
    + left. by rewrite <- Hlow.
    + destruct (decide (id < next_id_ s')%N); [right; lia|].
      left. rewrite <- Hhigh; [done | lia].
  - intros Hwf id Hid. destruct (decide (id < next_id_ s')%N); [done|].
    rewrite Hhigh in Hid by lia. apply Hwf in Hid. lia.
Qed.

Lemma stores_age_refl st : stores_age st st.
Proof. intros sp s Hs. exists s. split; [done | apply store_ages_refl]. Qed.

Lemma stores_age_trans st1 st2 st3 :
  stores_age st1 st2 → stores_age st2 st3 → stores_age st1 st3.
Proof.
  intros H12 H23 sp s1 Hs1. destruct (H12 _ _ Hs1) as (s2 & Hs2 & Ha).
  destruct (H23 _ _ Hs2) as (s3 & Hs3 & Ha'). exists s3. split; [done|].
  by eapply store_ages_trans.
Qed.

Lemma evolves_stores_age st st' : evolves st st' → stores_age st st'.
Proof.
  intros (_ & Hs & _) sp s Hsp. destruct (stores_grow_lookup _ _ _ _ Hs Hsp) as (s' & ? & ?).
  exists s'. split; [done | by apply store_grows_ages].
Qed.

Lemma no_new_objects_proxies st st' :
  no_new_objects st st' → proxies_fresh st st' ∧ proxies_distinct st st'.
Proof.
  intros Hno. split.
  - intros l sp id (Hnone & o & Hsome & _). apply Hno in Hnone. congruence.
  - intros l1 l2 sp id (Hnone & o & Hsome & _). apply Hno in Hnone. congruence.
Qed.

Lemma functions_erase_Some store id st u st' :
  functions_erase store id st = Some (u, st') →
  heap st' = heap st ∧ stores_age st st'.
Proof.
  intros (s & Hs & E)%with_store_Some. simplify_eq. split; [done|].
  intros sp s0 Hs0. simpl. destruct (decide (store = sp)) as [<-|Hne].
  - rewrite lookup_insert_eq. eexists. split; [done|]. simplify_eq. repeat split; simpl.
    + lia.
    + intros id0 [x Hx]. left. simpl in Hx. apply lookup_delete_Some in Hx as [_ Hx]. eauto.
    + intros Hwf id0 [x Hx]. simpl in Hx. apply lookup_delete_Some in Hx as [_ Hx].
      apply Hwf. eauto.
  - rewrite lookup_insert_ne by done. exists s0. split; [done | apply store_ages_refl].
Qed.

Lemma OnObjectGC_Some object st u st' :
  OnObjectGC object st = Some (u, st') →
  no_new_objects st st' ∧ stores_age st st'.
Proof.
  unfold OnObjectGC. intros Hrun. run_bind Hrun as ms s1 Hms.
  run_bind Hrun as u1 s2 Hdel. run_bind Hrun as u2 s3 Hfil. run_steps.
  destruct u. revert Hrun.
  apply (for_each_inv (λ s, no_new_objects st s ∧ stores_age st s)).
  - split; [|intros sp s Hs; exists s; split; [done | apply store_ages_refl]].
    intros l Hl. simpl. by rewrite lookup_delete_None; right.
  - intros m s s' _ (Hno & Hage) Hd. unfold RunDestructor in Hd.
    apply functions_erase_Some in Hd as (Eh & Hage'). split.
    + intros l Hl. rewrite Eh. by apply Hno.
    + by eapply stores_age_trans.
Qed.

Section Steps.

Context `{Engine}.

Lemma GetOrCreateStore_Some render_frame st r st' :
  GetOrCreateStore render_frame st = Some (r, st') →
  r = render_frame ∧ heap st' = heap st ∧ monitors st' = monitors st ∧
  pending_exception st' = pending_exception st ∧ microtasks st' = microtasks st ∧
  is_Some (store_map_ st' !! render_frame) ∧
  (∀ sp s, store_map_ st !! sp = Some s → store_map_ st' !! sp = Some s).
Proof.
  unfold GetOrCreateStore. destruct (store_map_ st !! render_frame) as [s|] eqn:Hs;
    intros ?; simplify_eq; simpl.
  - repeat split; eauto.
  - repeat split; try done.
    + rewrite lookup_insert_eq. eauto.
    + intros sp s Hsp. rewrite lookup_insert_ne; [done | congruence].
Qed.

Lemma DeepFreeze_stores fuel : ∀ object context st u st',
  DeepFreeze fuel object context st = Some (u, st') →
  store_map_ st' = store_map_ st ∧ no_new_objects st st' ∧
  pending_exception st' = pending_exception st ∧ monitors st' = monitors st.
Proof.
  induction fuel as [|fuel IH]; intros object context st u st' Hrun; simpl in Hrun;
    [discriminate|].
  run_bind Hrun as maybe_names s1 Hnames. apply GetOwnPropertyNames_state in Hnames as ->.
  run_bind Hrun as names s2 Hck. run_bind Hrun as u1 s3 Hloop. run_steps. destruct u1.
  assert (Hinv : store_map_ s3 = store_map_ st ∧ no_new_objects st s3 ∧
            pending_exception s3 = pending_exception st ∧ monitors s3 = monitors st).
  { revert Hloop.
    apply (for_each_inv (λ s, store_map_ s = store_map_ st ∧ no_new_objects st s ∧
             pending_exception s = pending_exception st ∧ monitors s = monitors st));
      [repeat split; try done; by intros l Hl|].
    intros name s s' _ (Es & Hno & Ee & Em) Hbody.
    run_bind Hbody as maybe_child t1 Hget. run_bind Hbody as child t2 Hck.
    unfold Object_Get in Hget. run_get Hget as o Ho.
    assert (t1 = s) as ->.
    { destruct (read_own_property _ _); by run_steps. }
    apply checked_Some in Hck as (c & _ & E). simplify_eq.
    match type of Hbody with
    | match ?v with _ => _ end _ = _ => destruct v
    end; run_steps; try by repeat split.
    destruct (IH _ _ _ _ _ Hbody) as (Es' & Hno' & Ee' & Em').
    repeat split; try congruence. intros l0 Hl0. by apply Hno', Hno. }
  destruct Hinv as (Es & Hno & Ee & Em). repeat split; try done.
  intros l Hl. simpl. rewrite lookup_alter_None. by apply Hno.
Qed.

(** What every operation of the bridge guarantees about the stores and
    about the proxy functions it creates. *)
Lemma bridge_step_ok st st' :
  bridge_step st st' →
  stores_age st st' ∧ proxies_fresh st st' ∧ proxies_distinct st st'.
Proof.
  intros [fuel current source destination value store s r s' Hrun
         |fuel current api source_context target_context store s r s' Hrun
         |object s s' Hrun
         |render_frame s r s' Hrun
         |fuel object context s s' Hrun
         |s s' Hstores Hnone].
  - apply (proj1 (frame fuel)) in Hrun. split; [by apply evolves_stores_age|].
    destruct Hrun as (_ & _ & _ & ? & ?). done.
  - apply (proj2 (frame fuel)) in Hrun. split; [by apply evolves_stores_age|].
    destruct Hrun as (_ & _ & _ & ? & ?). done.
  - apply OnObjectGC_Some in Hrun as (Hno & Hage). split; [done|].
    by apply no_new_objects_proxies.
  - apply GetOrCreateStore_Some in Hrun as (_ & Eh & _ & _ & _ & _ & Hst). split.
    + intros sp s0 Hs0. exists s0. split; [by apply Hst | apply store_ages_refl].
    + apply no_new_objects_proxies. intros l Hl. by rewrite Eh.
  - apply DeepFreeze_stores in Hrun as (Es & Hno & _). split.
    + intros sp s0 Hs0. exists s0. split; [by rewrite Es | apply store_ages_refl].
    + by apply no_new_objects_proxies.
  - split; [|split].
    + intros sp s0 Hs0. exists s0. split; [by rewrite Hstores | apply store_ages_refl].
    + intros l sp id Hn. by apply Hnone in Hn.
    + intros l1 l2 sp id Hn. by apply Hnone in Hn.
Qed.

Lemma bridge_run_stores_age st st' : bridge_run st st' → stores_age st st'.
Proof.
  induction 1 as [|st1 st2 st3 Hstep _ IH]; [apply stores_age_refl|].
  eapply stores_age_trans; [|exact IH]. by apply bridge_step_ok.
Qed.

Lemma handle_ids_fresh_aux sp st0 s0 :
  store_map_ st0 !! sp = Some s0 →
  store_wf s0 →
  (∀ st, bridge_run st0 st →
     ∃ s, store_map_ st !! sp = Some s ∧ store_wf s ∧ (next_id_ s0 ≤ next_id_ s)%N) ∧
  (∀ st st' l id, bridge_run st0 st → bridge_step st st' → new_proxy st st' l sp id →
     ∃ s s', store_map_ st !! sp = Some s ∧ store_map_ st' !! sp = Some s' ∧
       functions_ s !! id = None ∧ (next_id_ s ≤ id < next_id_ s')%N ∧
       (∀ l', new_proxy st st' l' sp id → l' = l)) ∧
  (∀ st1 st2 st3 st4 l id l' id',
     bridge_run st0 st1 →
     bridge_step st1 st2 → new_proxy st1 st2 l sp id →
     bridge_run st2 st3 →
     bridge_step st3 st4 → new_proxy st3 st4 l' sp id' →
     (id < id')%N).
Proof.
  intros Hs0 Hwf0.
  assert (Hrun : ∀ st, bridge_run st0 st →
            ∃ s, store_map_ st !! sp = Some s ∧ store_wf s ∧ (next_id_ s0 ≤ next_id_ s)%N).
  { intros st Hr. destruct (bridge_run_stores_age _ _ Hr _ _ Hs0) as (s & Hs & Hle & _ & Hwf).
    exists s. auto. }
  split; [exact Hrun|]. split.
  - intros st st' l id Hr Hstep Hnew.
    destruct (Hrun _ Hr) as (s & Hs & Hwf & _).
    destruct (bridge_step_ok _ _ Hstep) as (_ & Hfresh & Hdist).
    destruct (Hfresh _ _ _ Hnew) as (s1 & s' & Hs1 & Hs' & Hrange).
    assert (s1 = s) as -> by congruence.
    exists s, s'. repeat split; try done; try lia.
    + destruct (functions_ s !! id) as [e|] eqn:He; [|done].
      assert (id < next_id_ s)%N by (apply Hwf; eauto). lia.
    + intros l' Hnew'. eauto.
  - intros st1 st2 st3 st4 l id l' id' _ Hstep Hnew Hr Hstep' Hnew'.
    destruct (bridge_step_ok _ _ Hstep) as (_ & Hfresh & _).
    destruct (bridge_step_ok _ _ Hstep') as (_ & Hfresh' & _).
    destruct (Hfresh _ _ _ Hnew) as (s1 & s2 & Hs1 & Hs2 & Hrange).
    destruct (Hfresh' _ _ _ Hnew') as (s3 & s4 & Hs3 & Hs4 & Hrange').
    destruct (bridge_run_stores_age _ _ Hr _ _ Hs2) as (s3' & Hs3' & Hle & _).
    assert (s3' = s3) as -> by congruence. lia.
Qed.

End Steps.

(** C9: within one handle store whose live entries lie below its counter
    (as in a new store), along any sequence of marshalling passes, proxy
    builds, collections, store lookups, freezes and steps of the engine that
    leave the stores alone and make no proxy function: the counter never
    decreases and the entries stay below it; the id bound into a proxy
    function created by a step was not registered before the step, lies at
    or above the counter before it and below the counter after it, and is
    bound into no other proxy function of that step; and a proxy function
    created by a later step gets a strictly larger id than one created by
    an earlier step, whether or not the earlier entry was erased in
    between. *)
Theorem handle_ids_fresh `{Engine} sp st0 s0 :
  store_map_ st0 !! sp = Some s0 →
  store_wf s0 →
  (∀ st, bridge_run st0 st →
     ∃ s, store_map_ st !! sp = Some s ∧ store_wf s ∧ (next_id_ s0 ≤ next_id_ s)%N) ∧
  (∀ st st' l id, bridge_run st0 st → bridge_step st st' → new_proxy st st' l sp id →
     ∃ s s', store_map_ st !! sp = Some s ∧ store_map_ st' !! sp = Some s' ∧
       functions_ s !! id = None ∧ (next_id_ s ≤ id < next_id_ s')%N ∧
       (∀ l', new_proxy st st' l' sp id → l' = l)) ∧
  (∀ st1 st2 st3 st4 l id l' id',
     bridge_run st0 st1 →
     bridge_step st1 st2 → new_proxy st1 st2 l sp id →
     bridge_run st2 st3 →
     bridge_step st3 st4 → new_proxy st3 st4 l' sp id' →
     (id < id')%N).
Proof. apply handle_ids_fresh_aux. Qed.

Lemma handle_ids_fresh_witness :
  PassValueToOtherContext (H := Example.engine) 1 Example.isolated_world
    Example.isolated_world Example.main_world (v8Object 1%N) (Some 7%N) Example.page
    = Some (v8Object 8%N, proxied_once) ∧
  OnObjectGC 8%N proxied_once = Some (tt, collected_once) ∧
  PassValueToOtherContext (H := Example.engine) 1 Example.isolated_world
    Example.isolated_world Example.main_world (v8Object 2%N) (Some 7%N) collected_once
    = Some (v8Object 8%N, proxied_again) ∧
  (∃ id id',
     new_proxy Example.page proxied_once 8%N (Some 7%N) id ∧
     new_proxy collected_once proxied_again 8%N (Some 7%N) id' ∧
     (id < id')%N) ∧
  (∃ s, store_map_ collected_once !! Some 7%N = Some s ∧ store_wf s ∧ (1 ≤ next_id_ s)%N) ∧
  ∃ s s', store_map_ collected_once !! Some 7%N = Some s ∧
          store_map_ proxied_again !! Some 7%N = Some s' ∧
          functions_ s !! 2%N = None ∧ (next_id_ s ≤ 2 < next_id_ s')%N ∧
          ∀ l', new_proxy collected_once proxied_again l' (Some 7%N) 2%N → l' = 8%N.
Proof.
  set (s0 := {| next_id_ := 1%N; functions_ := ∅ |}).
  assert (Hwf : store_wf s0).
  { intros id [x Hx]. simpl in Hx. rewrite lookup_empty in Hx. discriminate. }
  assert (Hrun1 : PassValueToOtherContext (H := Example.engine) 1 Example.isolated_world
            Example.isolated_world Example.main_world (v8Object 1%N) (Some 7%N) Example.page
            = Some (v8Object 8%N, proxied_once)) by (vm_compute; reflexivity).
  assert (Hgc : OnObjectGC 8%N proxied_once = Some (tt, collected_once))
    by (vm_compute; reflexivity).
  assert (Hrun2 : PassValueToOtherContext (H := Example.engine) 1 Example.isolated_world
            Example.isolated_world Example.main_world (v8Object 2%N) (Some 7%N)
            collected_once = Some (v8Object 8%N, proxied_again)) by (vm_compute; reflexivity).
  assert (Hnew1 : new_proxy Example.page proxied_once 8%N (Some 7%N) 1%N).
  { split; [vm_compute; reflexivity|]. eexists. split; [vm_compute; reflexivity|reflexivity]. }
  assert (Hnew2 : new_proxy collected_once proxied_again 8%N (Some 7%N) 2%N).
  { split; [vm_compute; reflexivity|]. eexists. split; [vm_compute; reflexivity|reflexivity]. }
  pose proof (step_marshal (H := Example.engine) _ _ _ _ _ _ _ _ _ Hrun1) as Hstep1.
  pose proof (step_collect (H := Example.engine) _ _ _ Hgc) as Hstep2.
  pose proof (step_marshal (H := Example.engine) _ _ _ _ _ _ _ _ _ Hrun2) as Hstep3.
  assert (Hreach : bridge_run (H := Example.engine) Example.page collected_once).
  { eapply rtc_l; [exact Hstep1|]. eapply rtc_l; [exact Hstep2|]. apply rtc_refl. }
  destruct (handle_ids_fresh (H := Example.engine) (Some 7%N) Example.page s0
              eq_refl Hwf) as (Hcounter & Hfresh & Horder).
  split; [exact Hrun1|]. split; [exact Hgc|]. split; [exact Hrun2|].
  split.
  - exists 1%N, 2%N. split; [exact Hnew1|]. split; [exact Hnew2|].
    apply (Horder Example.page proxied_once collected_once proxied_again 8%N 1%N 8%N 2%N).
    + apply rtc_refl.
    + exact Hstep1.
    + exact Hnew1.
    + apply rtc_once. exact Hstep2.
    + exact Hstep3.
    + exact Hnew2.
  - split.
    + exact (Hcounter collected_once Hreach).
    + exact (Hfresh collected_once proxied_again 8%N 2%N Hreach Hstep3 Hnew2).
Defined.

(** * The exposure entry point on a name that is taken *)

Lemma bind_run {A B} (m : M A) (k : A → M B) st a st1 :
  m st = Some (a, st1) → bind m k st = k a st1.
Proof. unfold bind. by intros ->. Qed.

(** C5, as the code has it: when the name is an own property of the main
    world's global object, the call ends with a new error object carrying
    the collision message as the pending exception; no proxy is built, every
    object of the heap including the global object is as before, and so are
    the monitors, the queued microtasks and every store that existed.  The
    store of the calling frame is created, empty, when the frame had
    none. *)
Theorem ExposeAPIInMainWorld_collision `{Engine} fuel key api args st o context frame g :
  heap st !! api = Some o →
  CreationContext o = Some context →
  FrameForContext context = Some frame →
  heap st !! Global (MainWorldScriptContext frame) = Some g →
  is_Some (find_property key (own_properties g)) →
  ∃ e, heap st !! e = None ∧
       ExposeAPIInMainWorld fuel key api args st =
         Some (tt, after_collision frame (GetCurrentContext args) e st).
Proof.
  intros Hapi Hctx Hframe Hglobal Hkey.
  exists (fresh (dom (heap st))). split; [apply fresh_not_in_heap|].
  unfold ExposeAPIInMainWorld.
  assert (Hrf : GetRenderFrame api st = Some (Some frame, st)).
  { unfold GetRenderFrame, bind, GetObject. rewrite Hapi, Hctx, Hframe. reflexivity. }
  rewrite (bind_run _ _ _ _ _ Hrf).
  set (st1 := set_store_map_ (λ m,
         match m !! Some frame with
         | Some _ => m
         | None => <[Some frame := {| next_id_ := initial_next_id; functions_ := ∅ |}]> m
         end) st).
  assert (Hstore : GetOrCreateStore (Some frame) st = Some (Some frame, st1)).
  { unfold GetOrCreateStore, st1, set_store_map_.
    destruct (store_map_ st !! Some frame); [|reflexivity]. by destruct st. }
  rewrite (bind_run _ _ _ _ _ Hstore). simpl.
  unfold bind at 1. unfold ret at 1.
  assert (Hhas : Dictionary_Has (Global (MainWorldScriptContext frame)) key st1
                 = Some (true, st1)).
  { unfold Dictionary_Has, bind, GetObject. simpl. rewrite Hglobal. unfold ret.
    by rewrite bool_decide_eq_true_2. }
  rewrite (bind_run _ _ _ _ _ Hhas).
  unfold ThrowError, Exception_Error, bind, NewObject, modify. simpl. reflexivity.
Qed.

Lemma ExposeAPIInMainWorld_collision_witness :
  ∃ e, heap Example.fresh_page !! e = None ∧
       ExposeAPIInMainWorld (H := Example.engine) 3 "taken" 4%N (Example.preload_call [])
         Example.fresh_page =
       Some (tt, after_collision (H := Example.engine) 7%N Example.isolated_world e
                   Example.fresh_page).
Proof.
  eapply (ExposeAPIInMainWorld_collision (H := Example.engine) 3 "taken" 4%N
            (Example.preload_call []) Example.fresh_page).
  - reflexivity.
  - reflexivity.
  - reflexivity.
  - reflexivity.
  - vm_compute. eauto.
Defined.

(** On the frame's first use of the bridge the refused call leaves behind
    a store that did not exist before: the state of the bridge is not as it
    was. *)
Lemma ExposeAPIInMainWorld_collision_creates_store :
  ∃ st', ExposeAPIInMainWorld (H := Example.engine) 3 "taken" 4%N
           (Example.preload_call []) Example.fresh_page = Some (tt, st') ∧
         store_map_ Example.fresh_page !! Some 7%N = None ∧
         store_map_ st' !! Some 7%N = Some {| next_id_ := 1%N; functions_ := ∅ |} ∧
         store_map_ st' ≠ store_map_ Example.fresh_page.
Proof.
  eexists. split; [vm_compute; reflexivity|].
  split; [reflexivity|]. split; [reflexivity|].
  intros E. apply (f_equal (λ m, m !! Some 7%N)) in E. vm_compute in E. discriminate.
Qed.

(** * Exceptions thrown through a proxy function *)

(** C4: when the call of the real function ends in an exception, the
    wrapper returns an empty handle and leaves as pending exception a new
    error object of the calling context, made by the plain [Error]
    constructor whatever the thrown value was and located where no object
    was before (so it is not the thrown object).  Its message is the text
    the engine reports for the exception when that is a string, and the
    fixed message in every other case; so it is the message of the thrown
    error when the engine reports exactly that.  Nothing else of the state
    after the call changes, and the exception is always pending
    afterwards. *)
Theorem ProxyFunctionWrapper_rethrows `{Engine} fuel store func_id args st s func
    func_owning_context proxied_args st1 exception message st2 :
  store_map_ st !! store = Some s →
  functions_ s !! func_id = Some (func, func_owning_context) →
  map_each (GetRemaining args) (λ value,
    PassValueToOtherContext fuel func_owning_context (GetCurrentContext args)
      func_owning_context value store) st = Some (proxied_args, st1) →
  Function_Call func_owning_context func proxied_args st1
    = Some (Caught exception message, st2) →
  ∃ e text st',
    ProxyFunctionWrapper fuel store func_id args st = Some (None, st') ∧
    heap st2 !! e = None ∧
    (∀ l, exception = v8Object l → is_Some (heap st2 !! l) → l ≠ e) ∧
    pending_exception st' = Some (v8Object e) ∧
    heap st' = <[e := {| kind := JSError Error text;
                         CreationContext := Some (GetCurrentContext args);
                         properties := []; frozen := false |}]> (heap st2) ∧
    (∀ reported, message = Some (v8String reported) → text = reported) ∧
    ((∀ reported, message ≠ Some (v8String reported)) → text = unknown_exception_message) ∧
    (∀ l o constructor M,
       exception = v8Object l → heap st2 !! l = Some o → kind o = JSError constructor M →
       message = Some (v8String M) →
       text = M ∧ l ≠ e) ∧
    store_map_ st' = store_map_ st2 ∧ monitors st' = monitors st2 ∧
    microtasks st' = microtasks st2.
Proof.
  intros Hs Hentry Hargs Hcall.
  exists (fresh (dom (heap st2))), (rethrown_message message). eexists. split.
  - unfold ProxyFunctionWrapper.
    assert (Hat : functions_at store func_id st = Some ((func, func_owning_context), st)).
    { unfold functions_at, bind, gets. rewrite Hs. unfold checked at 1, ret at 1.
      by rewrite Hentry. }
    rewrite (bind_run _ _ _ _ _ Hat). simpl.
    rewrite (bind_run _ _ _ _ _ Hargs).
    rewrite (bind_run _ _ _ _ _ Hcall).
    unfold ThrowError, Exception_Error, bind, NewObject, modify, ret. simpl.
    reflexivity.
  - assert (Hmsg : match message with
                   | Some text =>
                       match ConvertFromV8_string text with
                       | Some error_message => error_message
                       | None => unknown_exception_message
                       end
                   | None => unknown_exception_message
                   end = rethrown_message message).
    { destruct message as [[]|]; reflexivity. }
    assert (Hfresh : ∀ l, is_Some (heap st2 !! l) → l ≠ fresh (dom (heap st2))).
    { intros l [o Hl] ->. rewrite fresh_not_in_heap in Hl. discriminate. }
    simpl. rewrite Hmsg. repeat split; try done.
    + apply fresh_not_in_heap.
    + intros l _. apply Hfresh.
    + by intros reported ->.
    + intros Hnone. destruct message as [[]|]; try reflexivity. by destruct (Hnone s0).
    + by subst message.
    + apply Hfresh. eauto.
Qed.

Lemma ProxyFunctionWrapper_rethrows_witness :
  ∃ exception st2 e st',
    Function_Call (Engine := Example.engine) Example.isolated_world 2%N []
      Example.exposed_page
      = Some (Caught exception (Some (v8String "oh no")), st2) ∧
    ProxyFunctionWrapper (H := Example.engine) 2 (Some 7%N) 4%N
      (Example.main_world_call []) Example.exposed_page = Some (None, st') ∧
    pending_exception st' = Some (v8Object e) ∧
    heap st' = <[e := {| kind := JSError Error "oh no";
                         CreationContext := Some Example.main_world;
                         properties := []; frozen := false |}]> (heap st2).
Proof.
  assert (Hcall : ∃ exception st2,
            Function_Call (Engine := Example.engine) Example.isolated_world 2%N []
              Example.exposed_page
            = Some (Caught exception (Some (v8String "oh no")), st2)).
  { eexists _, _. vm_compute. reflexivity. }
  destruct Hcall as (exception & st2 & Hcall). exists exception, st2.
  edestruct (ProxyFunctionWrapper_rethrows (H := Example.engine) 2 (Some 7%N) 4%N
               (Example.main_world_call []) Example.exposed_page)
    as (e & text & st' & Hrun & _ & _ & Hpending & Hheap & Htext & _);
    [vm_compute; reflexivity | vm_compute; reflexivity | reflexivity | exact Hcall |].
  rewrite (Htext "oh no" eq_refl) in Hheap.
  exists e, st'. split; [exact Hcall|]. split; [exact Hrun|]. split; [exact Hpending|].
  exact Hheap.
Defined.

Lemma ProxyFunctionWrapper_rethrows_reported_text :
  ∃ thrown st2 e st',
    Function_Call (Engine := uncaught_engine) Example.isolated_world 2%N []
      Example.exposed_page
      = Some (Caught (v8Object thrown) (Some (v8String "Uncaught MyError: oh no")), st2) ∧
    kind_of (heap st2) (v8Object thrown) = Some (JSError (CustomError "MyError") "oh no") ∧
    ProxyFunctionWrapper (H := uncaught_engine) 2 (Some 7%N) 4%N
      (Example.main_world_call []) Example.exposed_page = Some (None, st') ∧
    pending_exception st' = Some (v8Object e) ∧
    kind_of (heap st') (v8Object e) = Some (JSError Error "Uncaught MyError: oh no") ∧
    "Uncaught MyError: oh no" ≠ "oh no".
Proof.
  eexists _, _, _, _.
  split; [vm_compute; reflexivity|]. split; [vm_compute; reflexivity|].
  split; [vm_compute; reflexivity|]. split; [vm_compute; reflexivity|].
  split; [vm_compute; reflexivity | discriminate].
Qed.

(** * Lifetime monitors *)

Lemma PassValueToOtherContext_function `{Engine} fuel current source destination f store st s :
  IsFunction (heap st) (v8Object f) = true →
  store_map_ st !! store = Some s →
  PassValueToOtherContext (S fuel) current source destination (v8Object f) store st =
    Some (v8Object (fresh (dom (heap st))),
          after_proxying store s f (fresh (dom (heap st))) source destination st).
Proof.
  intros Hf Hs. rewrite PassValueToOtherContext_S.
  change (bind (gets heap) ?k st) with (k (heap st) st). cbv beta. rewrite Hf.
  unfold bind at 1. simpl.
  unfold bind at 1, take_id at 1, with_store at 1. rewrite Hs. simpl.
  unfold bind at 1, functions_insert at 1, with_store at 1. simpl.
  rewrite lookup_insert_eq. simpl.
  unfold bind, CreateFunction, NewObject, FunctionLifeMonitor_BindTo, modify, ret. simpl.
  unfold after_proxying, set_monitors, set_heap, set_store_map_. simpl.
  by rewrite insert_insert_eq.
Qed.

Lemma filter_target_none (object : loc) (ms : list FunctionLifeMonitor) :
  Forall (λ m, target m ≠ object) ms →
  filter (λ m, target m = object) ms = [] ∧ filter (λ m, target m ≠ object) ms = ms.
Proof.
  induction 1 as [|m ms Hm _ [IH1 IH2]]; [done|].
  rewrite !filter_cons. destruct (decide (target m = object)); [done|].
  destruct (decide (target m ≠ object)); [|done]. by rewrite IH1, IH2.
Qed.

(** On the marshaller's path one monitor is bound to the new proxy
    function, and when the proxy function is collected the entry registered
    for it is erased, so that the store is as it was but for the counter. *)
Lemma marshalled_function_is_monitored `{Engine} fuel current source destination f store st s :
  IsFunction (heap st) (v8Object f) = true →
  store_map_ st !! store = Some s →
  store_wf s →
  Forall (λ m, target m ≠ fresh (dom (heap st))) (monitors st) →
  ∃ p st1 st2,
    PassValueToOtherContext (S fuel) current source destination (v8Object f) store st
      = Some (v8Object p, st1) ∧
    filter (λ m, target m = p) (monitors st1)
      = [{| target := p; store_ := store; func_id_ := next_id_ s |}] ∧
    functionCount store st1 = S (functionCount store st) ∧
    OnObjectGC p st1 = Some (tt, st2) ∧
    functionCount store st2 = functionCount store st ∧
    store_map_ st2 !! store
      = Some {| next_id_ := (next_id_ s + 1)%N; functions_ := functions_ s |} ∧
    monitors st2 = monitors st.
Proof.
  intros Hf Hs Hwf Hms. set (p := fresh (dom (heap st))) in *.
  assert (Hnone : functions_ s !! next_id_ s = None).
  { destruct (functions_ s !! next_id_ s) eqn:E; [|done].
    assert (next_id_ s < next_id_ s)%N by (apply Hwf; eauto). lia. }
  destruct (filter_target_none p _ Hms) as [Hf1 Hf2].
  exists p, (after_proxying store s f p source destination st). eexists.
  split; [by apply PassValueToOtherContext_function|].
  split; [|split; [|split; [|split; [|split]]]].
  - simpl. rewrite filter_app, Hf1, filter_cons. simpl.
    destruct (decide (p = p)); [done | congruence].
  - unfold functionCount. simpl. rewrite lookup_insert_eq, Hs. simpl.
    by rewrite map_size_insert_None.
  - unfold OnObjectGC, bind, gets, modify. simpl.
    rewrite filter_app, Hf1, filter_cons. simpl.
    destruct (decide (p = p)); [|congruence].
    simpl. unfold RunDestructor, functions_erase, with_store, bind, ret. simpl.
    rewrite lookup_insert_eq. simpl. reflexivity.
  - unfold functionCount. simpl. rewrite lookup_insert_eq, Hs. simpl.
    by rewrite delete_insert_id.
  - simpl. rewrite lookup_insert_eq. by rewrite delete_insert_id.
  - simpl. rewrite filter_app, Hf2, filter_cons. simpl.
    destruct (decide (p ≠ p)); [congruence|]. by rewrite filter_nil, app_nil_r.
Qed.

(** C1, on the proxy builder's path: building the proxy of the object
    [{ g }] of the example page registers [g] under id 1 and installs the
    proxy function bound to it, but binds no monitor; when that proxy
    function is collected the entry stays and the count of the store does
    not decrease. *)
Theorem api_method_proxy_is_not_monitored :
  ∃ proxy st1 method st2 o,
    CreateProxyForAPI (H := Example.engine) 2 Example.main_world 5%N
      Example.isolated_world Example.main_world (Some 7%N) Example.page
      = Some (proxy, st1) ∧
    heap st1 !! proxy = Some o ∧
    prop_value <$> find_property "g" (properties o) = Some (Some (v8Object method)) ∧
    bound_proxy (heap st1) method (Some 7%N) 1%N ∧
    functionCount (Some 7%N) Example.page = 0%nat ∧
    functionCount (Some 7%N) st1 = 1%nat ∧
    monitors st1 = [] ∧
    OnObjectGC method st1 = Some (tt, st2) ∧
    functionCount (Some 7%N) st2 = 1%nat.
Proof.
  eexists _, _, _, _, _.
  split; [vm_compute; reflexivity|].
  split; [vm_compute; reflexivity|].
  split; [vm_compute; reflexivity|].
  split; [eexists; split; [vm_compute; reflexivity | reflexivity]|].
  split; [reflexivity|].
  split; [vm_compute; reflexivity|].
  split; [reflexivity|].
  split; [vm_compute; reflexivity|].
  vm_compute. reflexivity.
Qed.

(** * Deep freeze *)

Lemma for_each_elem {A} (R : State → State → Prop) (xs : list A) (body : A → M unit)
    st st' x :
  (∀ s, R s s) →
  (∀ s1 s2 s3, R s1 s2 → R s2 s3 → R s1 s3) →
  (∀ y s s', y ∈ xs → body y s = Some (tt, s') → R s s') →
  for_each xs body st = Some (tt, st') →
  x ∈ xs →
  ∃ s s', R st s ∧ body x s = Some (tt, s') ∧ R s' st'.
Proof.
  intros Hrefl Htrans. revert st.
  induction xs as [|y ys IH]; intros st Hbody Hrun Hx; [by apply elem_of_nil in Hx|].
  simpl in Hrun. run_bind Hrun as u s1 Hy. destruct u.
  assert (Hrest : R s1 st').
  { revert Hrun. apply (for_each_inv (λ s, R s1 s)); [apply Hrefl|].
    intros z s s' Hz Hs Hb. eapply Htrans; [exact Hs|]. eapply Hbody; [|exact Hb]. by right. }
  apply elem_of_cons in Hx as [->|Hx].
  - exists st, s1. auto.
  - destruct (IH s1) as (s & s' & Hs & Hb & Hs'); [|done|done|].
    { intros z s s' Hz. apply Hbody. by right. }
    exists s, s'. split; [|done]. eapply Htrans; [|exact Hs]. eapply Hbody; [|exact Hy]. by left.
Qed.

Lemma only_frozen_refl st : only_frozen st st.
Proof. split; [|done]. intros l o Hl. exists o. auto. Qed.

Lemma only_frozen_trans st1 st2 st3 :
  only_frozen st1 st2 → only_frozen st2 st3 → only_frozen st1 st3.
Proof.
  intros [H12 N12] [H23 N23]. split; [|auto].
  intros l o Hl. destruct (H12 _ _ Hl) as (o2 & Hl2 & Ek & Ep & Ec & Ef).
  destruct (H23 _ _ Hl2) as (o3 & Hl3 & Ek' & Ep' & Ec' & Ef').
  exists o3. repeat split; try congruence. auto.
Qed.

Lemma own_properties_ext o o' :
  kind o' = kind o → properties o' = properties o → own_properties o' = own_properties o.
Proof. unfold own_properties. by intros -> ->. Qed.

Lemma read_own_property_ext o o' key :
  kind o' = kind o → properties o' = properties o →
  read_own_property o' key = read_own_property o key.
Proof. intros Ek Ep. unfold read_own_property. by rewrite (own_properties_ext _ _ Ek Ep). Qed.

Lemma only_frozen_child st st' l l' :
  only_frozen st st' → child_of (heap st) l l' ↔ child_of (heap st') l l'.
Proof.
  intros [Hh Hn]. split.
  - intros (o & p & Hl & Hr & Hv). destruct (Hh _ _ Hl) as (o' & Hl' & Ek & Ep & _).
    exists o', p. split; [done|]. split; [|done]. by rewrite (read_own_property_ext _ _ _ Ek Ep).
  - intros (o' & p & Hl' & Hr & Hv). destruct (heap st !! l) as [o|] eqn:Hl.
    + destruct (Hh _ _ Hl) as (o2 & Hl2 & Ek & Ep & _). simplify_eq.
      exists o, p. split; [done|]. split; [|done].
      by rewrite <- (read_own_property_ext _ _ _ Ek Ep).
    + apply Hn in Hl. congruence.
Qed.

Lemma only_frozen_reachable st st' root l :
  only_frozen st st' → reachable (heap st) root l ↔ reachable (heap st') root l.
Proof.
  intros Hof. unfold reachable. split.
  - induction 1 as [|a b c Hab _ IH]; [apply rtc_refl|].
    eapply rtc_l; [|exact IH]. by apply (only_frozen_child _ _ _ _ Hof).
  - induction 1 as [|a b c Hab _ IH]; [apply rtc_refl|].
    eapply rtc_l; [|exact IH]. by apply (only_frozen_child _ _ _ _ Hof).
Qed.

Lemma read_own_property_Some o key p :
  read_own_property o key = Some p → prop_key p = key ∧ key ∈ prop_key <$> own_properties o.
Proof.
  unfold read_own_property. destruct (list_find _ _) as [[i q]|] eqn:Hfind; [|done].
  intros [= <-]. apply list_find_Some in Hfind as (Hi & Hk & _). split; [done|].
  subst key. apply list_elem_of_fmap. exists q. split; [done|].
  by eapply list_elem_of_lookup_2.
Qed.

Section Freeze.

Context `{Engine}.

Lemma DeepFreeze_S fuel object context :
  DeepFreeze (S fuel) object context =
  (do maybe_names <- GetOwnPropertyNames object;
   do property_names <- checked maybe_names;
   for_each property_names (freeze_child fuel object context) ;;
   SetIntegrityLevel_kFrozen object).
Proof. reflexivity. Qed.

Lemma Object_Get_Some context object key st r st' :
  Object_Get context object key st = Some (r, st') →
  st' = st ∧ ∃ o, heap st !! object = Some o ∧
    r = match read_own_property o key with
        | Some p => prop_value p
        | None => Some (v8Undefined (GetIsolate context))
        end.
Proof.
  unfold Object_Get. intros Hrun. run_get Hrun as o Ho.
  destruct (read_own_property o key) eqn:E; run_steps;
    (split; [done | exists o; split; [done | by rewrite ?E]]).
Qed.

Lemma GetOwnPropertyNames_Some object st names st' :
  GetOwnPropertyNames object st = Some (Some names, st') →
  ∃ o, heap st !! object = Some o ∧ names = prop_key <$> own_properties o.
Proof.
  unfold GetOwnPropertyNames. intros Hrun. run_get Hrun as o Ho.
  exists o. split; [done|]. destruct (kind o); by run_steps.
Qed.

Lemma only_frozen_freeze object st :
  only_frozen st (set_heap (alter (λ o, {| kind := kind o; CreationContext := CreationContext o;
                                           properties := properties o; frozen := true |})
                              object) st).
Proof.
  split.
  - intros l o Hl. simpl. destruct (decide (object = l)) as [<-|Hne].
    + rewrite lookup_alter_eq, Hl. simpl. eexists. split; [done|]. by repeat split.
    + rewrite lookup_alter_ne by done. exists o. auto.
  - intros l Hl. simpl. by rewrite lookup_alter_None.
Qed.

(** [DeepFreeze] only freezes, and freezes every object it can reach. *)
Lemma DeepFreeze_freezes fuel : ∀ root context st st',
  DeepFreeze fuel root context st = Some (tt, st') →
  only_frozen st st' ∧
  ∀ l, reachable (heap st) root l → ∃ o, heap st' !! l = Some o ∧ frozen o = true.
Proof.
  induction fuel as [|fuel IH]; intros root context st st' Hrun; [discriminate|].
  rewrite DeepFreeze_S in Hrun.
  run_bind Hrun as maybe_names s1 Hnames. pose proof Hnames as Hs1.
  apply GetOwnPropertyNames_state in Hs1 as ->.
  run_checked Hrun as names Hck. subst maybe_names.
  apply GetOwnPropertyNames_Some in Hnames as (o & Hroot & Enames).
  run_bind Hrun as u s3 Hloop. destruct u. run_steps.
  assert (Hbody : ∀ name s s', freeze_child fuel root context name s = Some (tt, s') →
                               only_frozen s s').
  { intros name s s' Hb. unfold freeze_child in Hb.
    run_bind Hb as maybe_child t1 Hget. apply Object_Get_Some in Hget as (-> & _).
    run_checked Hb as c Hck.
    destruct c; run_steps; try apply only_frozen_refl. by apply (IH _ _ _ _ Hb). }
  assert (Hloop' : only_frozen st s3).
  { revert Hloop. apply (for_each_inv (only_frozen st)); [apply only_frozen_refl|].
    intros name s s' _ Hs Hb. eapply only_frozen_trans; [exact Hs | by eapply Hbody]. }
  assert (Hlast := only_frozen_freeze root s3).
  split; [by eapply only_frozen_trans|].
  intros l Hreach. apply rtc_inv in Hreach as [<-|(c & Hchild & Hreach)].
  - destruct Hloop' as [Hh _]. destruct (Hh _ _ Hroot) as (o3 & Hl3 & _).
    simpl. rewrite lookup_alter_eq, Hl3. simpl. eauto.
  - destruct Hchild as (o' & p & Hroot' & Hread & Hval). simplify_eq.
    destruct (read_own_property_Some _ _ _ Hread) as [_ Hin].
    destruct (for_each_elem only_frozen _ _ _ _ (prop_key p) only_frozen_refl
                only_frozen_trans (λ y s s' _, Hbody y s s') Hloop Hin)
      as (s & s' & Hs & Hb & Hs').
    unfold freeze_child in Hb.
    run_bind Hb as maybe_child t1 Hget. apply Object_Get_Some in Hget as (-> & os & Hos & ->).
    destruct Hs as [Hh Hn]. destruct (Hh _ _ Hroot) as (o2 & Hl2 & Ek & Ep & _).
    assert (os = o2) as -> by congruence.
    rewrite (read_own_property_ext _ _ _ Ek Ep), Hread, Hval in Hb.
    run_checked Hb as c' Hck. injection Hck as <-.
    destruct (IH _ _ _ _ Hb) as [_ Hfrozen].
    destruct (Hfrozen l) as (o5 & Hlf & Hf).
    { by apply (only_frozen_reachable st s c l (conj Hh Hn)). }
    destruct (only_frozen_trans _ _ _ Hs' Hlast) as [Hh' _].
    destruct (Hh' _ _ Hlf) as (o4 & Hl4 & _ & _ & _ & Hf4). eauto.
Qed.

End Freeze.

Lemma frozen_tamper_proof o : frozen o = true → tamper_proof o.
Proof.
  intros Hf name v i hole. unfold define_property, set_element, delete_property. rewrite Hf.
  repeat split. by destruct (kind o).
Qed.

Lemma Dictionary_Has_Some dict key st r st' :
  Dictionary_Has dict key st = Some (r, st') →
  st' = st ∧ ∃ o, heap st !! dict = Some o ∧
    r = bool_decide (is_Some (find_property key (own_properties o))).
Proof. unfold Dictionary_Has. intros Hrun. run_get Hrun as o Ho. run_steps. eauto. Qed.

(** Defining a property on an object that the frozen graph does not reach
    leaves the graph as it is. *)
Lemma reachable_alter_unreached h root l f a :
  ¬ reachable h root a → reachable (alter f a h) root l → reachable h root l.
Proof.
  intros Hun Hreach. unfold reachable in *. revert l Hreach.
  apply rtc_ind_r; [apply rtc_refl|]. intros y z Hy Hstep IH.
  eapply rtc_r; [exact IH|].
  destruct Hstep as (o & p & Ho & Hr & Hv).
  assert (a ≠ y) by (intros ->; by apply Hun).
  rewrite lookup_alter_ne in Ho by done. by exists o, p.
Qed.

Lemma CreateProxyForAPI_fresh `{Engine} fuel current api source_context target_context store
    st proxy st' :
  CreateProxyForAPI fuel current api source_context target_context store st
    = Some (proxy, st') →
  heap st !! proxy = None.
Proof.
  destruct fuel as [|fuel]; [discriminate|]. rewrite CreateProxyForAPI_S. intros Hrun.
  run_bind Hrun as p s1 Hnew. unfold Object_New in Hnew. apply NewObject_Some in Hnew.
  injection Hnew as -> ->. run_bind Hrun as maybe_keys s2 Hkeys.
  destruct maybe_keys; run_steps; apply fresh_not_in_heap.
Qed.

(** C6: when [ExposeAPIInMainWorld] has exposed an API under a name that
    was free, the proxy it built and installed is a new object, and every
    object reachable from that proxy through reads of own properties is on
    the heap and frozen, so that assigning or adding a property, assigning
    an array element and deleting a property each leave the object exactly
    as it is. *)
Theorem exposed_api_is_frozen `{Engine} fuel key api args st st' o context frame g :
  heap st !! api = Some o →
  CreationContext o = Some context →
  FrameForContext context = Some frame →
  heap st !! Global (MainWorldScriptContext frame) = Some g →
  find_property key (own_properties g) = None →
  ExposeAPIInMainWorld fuel key api args st = Some (tt, st') →
  ∃ proxy st1 st2 st3,
    GetOrCreateStore (Some frame) st = Some (Some frame, st1) ∧
    CreateProxyForAPI fuel (MainWorldScriptContext frame) api (WorldScriptContext frame)
      (MainWorldScriptContext frame) (Some frame) st1 = Some (proxy, st2) ∧
    heap st !! proxy = None ∧
    DeepFreeze fuel proxy (MainWorldScriptContext frame) st2 = Some (tt, st3) ∧
    st' = set_heap (alter (define_property key (v8Object proxy) kReadOnlyDontDelete)
                      (Global (MainWorldScriptContext frame))) st3 ∧
    ∀ l, reachable (heap st') proxy l →
      ∃ ol, heap st' !! l = Some ol ∧ frozen ol = true ∧ tamper_proof ol.
Proof.
  intros Hapi Hctx Hframe Hglobal Hkey Hrun. unfold ExposeAPIInMainWorld in Hrun.
  run_bind Hrun as render_frame s0 Hrf.
  assert (render_frame = Some frame ∧ s0 = st) as [-> ->].
  { unfold GetRenderFrame in Hrf. run_get Hrf as o' Ho'. simplify_eq. rewrite Hctx in Hrf.
    run_steps. by rewrite Hframe. }
  run_bind Hrun as store st1 Hstore.
  destruct (GetOrCreateStore_Some _ _ _ _ Hstore) as (-> & Eh & _).
  run_checked Hrun as frame' Hck. injection Hck as <-. simpl in Hrun.
  run_bind Hrun as taken s1 Hhas.
  apply Dictionary_Has_Some in Hhas as (-> & g1 & Hg1 & ->).
  rewrite Eh, Hglobal in Hg1. injection Hg1 as <-.
  rewrite Hkey in Hrun. rewrite bool_decide_eq_false_2 in Hrun by (by intros [? ?]).
  run_bind Hrun as proxy st2 Hproxy. run_bind Hrun as u st3 Hfreeze. destruct u.
  run_steps. exists proxy, st1, st2, st3.
  split; [done|]. split; [done|].
  assert (Hnew : heap st !! proxy = None).
  { rewrite <- Eh. by eapply CreateProxyForAPI_fresh. }
  split; [done|]. split; [done|]. split; [done|].
  set (global := Global (MainWorldScriptContext frame)) in *.
  destruct (DeepFreeze_freezes _ _ _ _ _ Hfreeze) as [Hof Hfrozen].
  assert (Hst3 : ∀ l, reachable (heap st3) proxy l →
                      ∃ ol, heap st3 !! l = Some ol ∧ frozen ol = true).
  { intros l Hl. apply Hfrozen. by apply (only_frozen_reachable _ _ _ _ Hof). }
  destruct (heap st3 !! global) as [g3|] eqn:Hg3.
  - destruct (frozen g3) eqn:Hfz.
    + (* the global object is frozen: nothing is defined on it *)
      assert (Eheap : alter (define_property key (v8Object proxy) kReadOnlyDontDelete)
                        global (heap st3) = heap st3).
      { apply alter_id. intros g' Hg'. simplify_eq. unfold define_property.
        by rewrite Hfz. }
      intros l Hl. simpl in Hl |- *. rewrite Eheap in Hl |- *.
      destruct (Hst3 _ Hl) as (ol & Hol & Hf). exists ol.
      split; [done|]. split; [done | by apply frozen_tamper_proof].
    + (* the global object is not frozen: the graph does not reach it *)
      assert (Hun : ¬ reachable (heap st3) proxy global).
      { intros Hr. destruct (Hst3 _ Hr) as (ol & Hol & Hf). congruence. }
      intros l Hl. simpl in Hl |- *.
      apply reachable_alter_unreached in Hl; [|done].
      destruct (Hst3 _ Hl) as (ol & Hol & Hf). exists ol.
      split; [|split; [done | by apply frozen_tamper_proof]].
      rewrite lookup_alter_ne; [done|]. intros <-. by apply Hun.
  - assert (Eheap : alter (define_property key (v8Object proxy) kReadOnlyDontDelete)
                      global (heap st3) = heap st3).
    { apply alter_id. intros g' Hg'. congruence. }
    intros l Hl. simpl in Hl |- *. rewrite Eheap in Hl |- *.
    destruct (Hst3 _ Hl) as (ol & Hol & Hf). exists ol.
    split; [done|]. split; [done | by apply frozen_tamper_proof].
Qed.

Lemma exposed_api_is_frozen_witness :
  ∃ proxy, heap Example.fresh_page !! proxy = None ∧
    ∀ l, reachable (heap Example.exposed_page) proxy l →
      ∃ ol, heap Example.exposed_page !! l = Some ol ∧ frozen ol = true ∧ tamper_proof ol.
Proof.
  edestruct (exposed_api_is_frozen (H := Example.engine) 5 "api" 4%N
               (Example.preload_call []) Example.fresh_page Example.exposed_page)
    as (proxy & st1 & st2 & st3 & _ & _ & Hnew & _ & _ & Hfrozen);
    [reflexivity | reflexivity | reflexivity | reflexivity | reflexivity
    | vm_compute; reflexivity |].
  exists proxy. split; [exact Hnew | exact Hfrozen].
Defined.

(** * Arrays *)

Lemma strip_kind_array o o' elements :
  strip o' = strip o → kind o = JSArray elements → kind o' = JSArray elements.
Proof.
  destruct o as [k c ps fz], o' as [k' c' ps' fz']. unfold strip, set_kind. simpl.
  intros E ->. destruct k' as [| ? ? | | | |]; simpl in E; congruence.
Qed.

Lemma strip_not_promise o o' :
  strip o' = strip o → (∀ state reactions, kind o ≠ JSPromise state reactions) → o' = o.
Proof.
  destruct o as [k c ps fz], o' as [k' c' ps' fz']. unfold strip, set_kind. simpl.
  intros E Hk. destruct k as [| ? ? | | | |], k' as [| ? ? | | | |]; simpl in E;
    try congruence; by destruct (Hk _ _ eq_refl).
Qed.

Section Arrays.

Context `{Engine}.

Lemma Array_Get_Some context arr i st r st' :
  Array_Get context arr i st = Some (r, st') →
  st' = st ∧ ∃ o elements, heap st !! arr = Some o ∧ kind o = JSArray elements ∧
    r = Some (default (v8Undefined (GetIsolate context)) (elements !! i)).
Proof.
  unfold Array_Get, Array_elements. intros Hrun.
  run_bind Hrun as elements s1 Hes. run_get Hes as o Ho.
  destruct (kind o) eqn:Hk; run_steps. eauto 6.
Qed.






End Arrays.


Lemma fresh_ne (h : gmap loc Object) l : is_Some (h !! l) → fresh (dom h) ≠ l.
Proof. intros Hl E. apply (is_fresh (dom h)). rewrite E. by apply elem_of_dom. Qed.


(** * Promises *)

Lemma strip_kind_promise o o' state reactions :
  strip o' = strip o → kind o = JSPromise state reactions →
  ∃ reactions', kind o' = JSPromise state reactions'.
Proof.
  destruct o as [k c ps fz], o' as [k' c' ps' fz']. unfold strip, set_kind. simpl.
  intros E ->. destruct k' as [| ? ? | | | |]; simpl in E; try congruence.
  injection E as -> _ _ _. eauto.
Qed.

Lemma strip_kind_callback o o' cb :
  strip o' = strip o → kind o = JSFunction cb → kind o' = JSFunction cb.
Proof.
  destruct o as [k c ps fz], o' as [k' c' ps' fz']. unfold strip, set_kind. simpl.
  intros E ->. destruct k' as [| ? ? | | | |]; simpl in E; congruence.
Qed.

Section Promises.

Context `{Engine}.



End Promises.

(** The promise case of the marshaller, up to the registration of the
    reactions. *)
Lemma PassValueToOtherContext_promise `{Engine} fuel current source destination p store st
    op state reactions :
  heap st !! p = Some op →
  kind op = JSPromise state reactions →
  ∃ handle on_fulfilled on_rejected,
    heap st !! handle = None ∧ handle ≠ on_fulfilled ∧ handle ≠ on_rejected ∧
    on_fulfilled ≠ on_rejected ∧ p ≠ handle ∧ p ≠ on_fulfilled ∧ p ≠ on_rejected ∧
    PassValueToOtherContext (S fuel) current source destination (v8Object p) store st =
      (Promise_Then p (v8Object on_fulfilled) (v8Object on_rejected) ;;
       ret (v8Object handle))
        (with_promise_proxy source destination store handle on_fulfilled on_rejected st).
Proof.
  intros Ho Hk.
  set (P := {| kind := JSPromise kPending []; CreationContext := Some destination;
               properties := []; frozen := false |}).
  set (F := {| kind := JSFunction (then_cb (fresh (dom (heap st))) source destination store);
               CreationContext := Some destination; properties := []; frozen := false |}).
  set (handle := fresh (dom (heap st))).
  set (on_fulfilled := fresh (dom (<[handle := P]> (heap st)))).
  set (on_rejected := fresh (dom (<[on_fulfilled := F]> (<[handle := P]> (heap st))))).
  assert (Hh : heap st !! handle = None) by apply fresh_not_in_heap.
  assert (Hhf : on_fulfilled ≠ handle).
  { apply fresh_ne. rewrite lookup_insert_eq. eauto. }
  assert (Hfr : on_rejected ≠ on_fulfilled).
  { apply fresh_ne. rewrite lookup_insert_eq. eauto. }
  assert (Hhr : on_rejected ≠ handle).
  { apply fresh_ne. rewrite lookup_insert_ne, lookup_insert_eq by done. eauto. }
  assert (Hph : handle ≠ p) by (apply fresh_ne; eauto).
  assert (Hpf : on_fulfilled ≠ p).
  { apply fresh_ne. rewrite lookup_insert_ne by done. eauto. }
  assert (Hpr : on_rejected ≠ p).
  { apply fresh_ne. rewrite !lookup_insert_ne by done. eauto. }
  exists handle, on_fulfilled, on_rejected. repeat split; try done.
  rewrite PassValueToOtherContext_S.
  change (bind (gets heap) ?k st) with (k (heap st) st). cbv beta.
  unfold IsFunction, IsPromise, kind_of. rewrite Ho. simpl. rewrite Hk.
  reflexivity.
Qed.


(** * Keys the proxy builder skips *)

Lemma for_each_prefix_inv {A} (I : list A → State → Prop) (xs : list A) (body : A → M unit)
    st st' :
  I [] st →
  (∀ pre x s s', I pre s → body x s = Some (tt, s') → I (pre ++ [x]) s') →
  for_each xs body st = Some (tt, st') →
  I xs st'.
Proof.
  intros Hinit Hstep.
  assert (Hgen : ∀ ys pre s, I pre s → for_each ys body s = Some (tt, st') →
                             I (pre ++ ys) st').
  { induction ys as [|y ys IH]; intros pre s Hpre Hrun; simpl in Hrun.
    - run_steps. by rewrite app_nil_r.
    - run_bind Hrun as u s1 Hy. destruct u.
      rewrite cons_middle, app_assoc. eapply IH; [|exact Hrun]. by eapply Hstep. }
  intros Hrun. by apply (Hgen xs [] st).
Qed.

Lemma for_each_filter {A} (I : State → Prop) (keep : A → Prop) `{∀ x, Decision (keep x)}
    (xs : list A) (body : A → M unit) st :
  I st →
  (∀ x s s', I s → body x s = Some (tt, s') → I s') →
  (∀ x s, I s → ¬ keep x → body x s = Some (tt, s)) →
  for_each xs body st = for_each (filter keep xs) body st.
Proof.
  intros HI Hbody Hskip. revert st HI.
  induction xs as [|x xs IH]; intros st HI; [done|].
  rewrite filter_cons. destruct (decide (keep x)) as [Hk|Hk]; simpl.
  - unfold bind. destruct (body x st) as [[[] s1]|] eqn:Hx; [|done].
    apply IH. by eapply Hbody.
  - unfold bind. rewrite (Hskip x st HI Hk). by apply IH.
Qed.

Lemma strip_own_properties o o' : strip o' = strip o → own_properties o' = own_properties o.
Proof.
  destruct o as [k c ps fz], o' as [k' c' ps' fz']. unfold strip, set_kind, own_properties.
  simpl. intros E.
  destruct k as [| ? ? | | | |], k' as [| ? ? | | | |]; simpl in E; congruence.
Qed.

Lemma find_property_is_Some name ps :
  is_Some (find_property name ps) ↔ ∃ q, q ∈ ps ∧ property_name (prop_key q) = Some name.
Proof.
  unfold find_property. split.
  - intros [q Hq]. destruct (list_find _ ps) as [[i q']|] eqn:Hfind; [|done].
    simpl in Hq. injection Hq as <-. apply list_find_Some in Hfind as (Hi & Hn & _).
    exists q'. split; [by eapply list_elem_of_lookup_2 | done].
  - intros (q & Hq & Hn).
    destruct (list_find (λ p, property_name (prop_key p) = Some name) ps) as [[i q']|]
      eqn:Hfind; [simpl; eauto|].
    apply list_find_None in Hfind. rewrite Forall_forall in Hfind.
    by destruct (Hfind q Hq).
Qed.

Section Keys.

Context `{Engine}.

Lemma processed_key_ext o o' key :
  own_properties o' = own_properties o → processed_key o' key = processed_key o key.
Proof. unfold processed_key. by intros ->. Qed.

Lemma Dictionary_Get_Some dict key st r st' :
  Dictionary_Get dict key st = Some (r, st') →
  st' = st ∧ ∃ o, heap st !! dict = Some o ∧
    r = find_property key (own_properties o) ≫= prop_value.
Proof. unfold Dictionary_Get. intros Hrun. run_get Hrun as o Ho. run_steps. eauto. Qed.

(** A key that is skipped leaves the state as it is. *)
Lemma proxy_key_skipped fuel api proxy source_context target_context store key st o :
  heap st !! api = Some o →
  processed_key o key = None →
  proxy_key fuel api proxy source_context target_context store key st = Some (tt, st).
Proof.
  intros Ho Hskip. unfold proxy_key, processed_key in *.
  destruct (key_to_string key) as [key_str|]; [|done].
  unfold bind at 1, Dictionary_Get at 1, bind at 1, GetObject at 1. rewrite Ho.
  unfold ret at 1.
  by destruct (find_property key_str (own_properties o) ≫= prop_value).
Qed.

(** A key that is processed ends with one assignment to the proxy, after
    a pass that leaves existing objects alone. *)
Lemma proxy_key_processed fuel api proxy source_context target_context store key st st' o :
  heap st !! api = Some o →
  proxy_key fuel api proxy source_context target_context store key st = Some (tt, st') →
  match processed_key o key with
  | None => st' = st
  | Some (name, _) =>
      ∃ s1 v, evolves st s1 ∧
              st' = set_heap (alter (define_property name v kNone) proxy) s1
  end.
Proof.
  intros Ho Hrun. unfold proxy_key, processed_key in *.
  destruct (key_to_string key) as [key_str|]; [|by run_steps].
  run_bind Hrun as maybe_value s0 Hget.
  apply Dictionary_Get_Some in Hget as (-> & o' & Ho' & ->).
  assert (o' = o) as -> by congruence.
  destruct (find_property key_str (own_properties o) ≫= prop_value) as [value|];
    [|by run_steps].
  run_bind Hrun as h s0 Hh. run_steps.
  destruct (IsFunction _ _).
  { run_bind Hrun as func t1 Hcast. run_bind Hrun as func_id t2 Htake.
    run_bind Hrun as u t3 Hins. run_bind Hrun as method t4 Hmethod. run_steps.
    destruct (evolves_proxied_function _ _ _ _ _ _ _ _ _ _ Htake Hins Hmethod) as (Hev & _).
    eauto. }
  destruct (_ && _).
  { run_bind Hrun as sub_api t1 Hcast. run_bind Hrun as sub_proxy t2 Hsub. run_steps.
    eexists _, _. split; [|reflexivity]. by eapply (proj2 (frame fuel)). }
  run_bind Hrun as passed t1 Hpass. run_steps.
  eexists _, _. split; [|reflexivity]. by eapply (proj1 (frame fuel)).
Qed.

End Keys.

Lemma define_property_names name v o :
  frozen o = false →
  Forall (λ q, prop_attr q = kNone) (properties o) →
  frozen (define_property name v kNone o) = false ∧
  kind (define_property name v kNone o) = kind o ∧
  Forall (λ q, prop_attr q = kNone) (properties (define_property name v kNone o)) ∧
  ∀ n, is_Some (find_property n (properties (define_property name v kNone o))) ↔
       n = name ∨ is_Some (find_property n (properties o)).
Proof.
  intros Hfz Hattr. unfold define_property. rewrite Hfz.
  set (p' := {| prop_key := v8String name; prop_value := Some v; prop_attr := kNone |}).
  destruct (find_property name (properties o)) as [p|] eqn:Hfind.
  - assert (Hin : is_Some (find_property name (properties o))) by eauto.
    apply find_property_is_Some in Hin as (q0 & Hq0 & Hn0).
    assert (Hp : prop_attr p = kNone).
    { unfold find_property in Hfind.
      destruct (list_find _ (properties o)) as [[i p0]|] eqn:Hlf; [|done].
      simpl in Hfind. injection Hfind as <-. apply list_find_Some in Hlf as (Hi & _).
      rewrite Forall_forall in Hattr. apply Hattr. by eapply list_elem_of_lookup_2. }
    rewrite Hp. simpl. split; [done|]. split; [done|]. split.
    + unfold replace_property. rewrite Forall_fmap. eapply Forall_impl; [exact Hattr|].
      intros q Hq. simpl. by destruct (decide _).
    + intros n. rewrite !find_property_is_Some. unfold replace_property. split.
      * intros (q & Hq & Hn). apply list_elem_of_fmap in Hq as (q1 & -> & Hq1).
        destruct (decide (property_name (prop_key q1) = Some name)) as [E|E].
        -- left. simpl in Hn. congruence.
        -- right. eauto.
      * intros [->|(q & Hq & Hn)].
        -- exists p'. split; [|done]. apply list_elem_of_fmap. exists q0.
           split; [|done]. by rewrite decide_True.
        -- destruct (decide (property_name (prop_key q) = Some name)) as [E|E].
           ++ exists p'. split; [|simpl; congruence]. apply list_elem_of_fmap. exists q.
              split; [|done]. by rewrite decide_True.
           ++ exists q. split; [|done]. apply list_elem_of_fmap. exists q.
              split; [|done]. by rewrite decide_False.
  - simpl. split; [done|]. split; [done|]. split.
    + apply Forall_app. split; [done|]. by constructor.
    + intros n. rewrite !find_property_is_Some. split.
      * intros (q & Hq & Hn). apply elem_of_app in Hq as [Hq|Hq].
        -- right. eauto.
        -- apply list_elem_of_singleton in Hq as ->. left. simpl in Hn. congruence.
      * intros [->|(q & Hq & Hn)].
        -- exists p'. split; [|done]. apply elem_of_app. right. by apply list_elem_of_singleton.
        -- exists q. split; [|done]. apply elem_of_app. by left.
Qed.

(** C10: the proxy builder runs as if the API object had only the keys it
    can process: a key that converts to neither a string nor an [int], and
    a key whose value cannot be retrieved, has no effect and does not end
    the loop.  When the builder returns, no exception has become pending,
    and the proxy, a new object, has a property under a name exactly when
    some key of the API object that can be processed has that name. *)
Theorem proxy_builder_skips_keys `{Engine} fuel current api source_context target_context
    store st o :
  heap st !! api = Some o →
  kind o ≠ JSExotic →
  CreateProxyForAPI (S fuel) current api source_context target_context store st =
    (do proxy <- Object_New current;
     for_each (filter (λ key, is_Some (processed_key o key)) (prop_key <$> own_properties o))
       (proxy_key fuel api proxy source_context target_context store) ;;
     ret proxy) st ∧
  ∀ proxy st',
    CreateProxyForAPI (S fuel) current api source_context target_context store st
      = Some (proxy, st') →
    heap st !! proxy = None ∧
    pending_exception st' = pending_exception st ∧
    ∃ po, heap st' !! proxy = Some po ∧
      ∀ name, is_Some (find_property name (properties po)) ↔
              ∃ key value, key ∈ prop_key <$> own_properties o ∧
                           processed_key o key = Some (name, value).
Proof.
  intros Ho Hkind.
  set (proxy := fresh (dom (heap st))).
  set (P := {| kind := JSPlainObject; CreationContext := Some current; properties := [];
               frozen := false |}).
  set (st1 := set_heap (insert proxy P) st).
  assert (Hproxy : heap st !! proxy = None) by apply fresh_not_in_heap.
  assert (Hne : proxy ≠ api) by (apply fresh_ne; eauto).
  assert (Ho1 : heap st1 !! api = Some o) by (simpl; by rewrite lookup_insert_ne).
  set (keys := prop_key <$> own_properties o).
  set (body := proxy_key fuel api proxy source_context target_context store).
  assert (Hunfold : CreateProxyForAPI (S fuel) current api source_context target_context
                      store st = (for_each keys body ;; ret proxy) st1).
  { rewrite CreateProxyForAPI_S. unfold bind at 1, Object_New, NewObject.
    fold proxy. fold P. fold st1.
    unfold bind at 1, GetOwnPropertyNames at 1, bind at 1, GetObject at 1. rewrite Ho1.
    destruct (kind o) eqn:Hk; try done. }
  set (I := λ s : State, ∃ o', heap s !! api = Some o' ∧ own_properties o' = own_properties o).
  assert (HI1 : I st1) by (by exists o).
  assert (Hbody : ∀ x s s', I s → body x s = Some (tt, s') → I s').
  { intros x s s' (o' & Ho' & Eo') Hx.
    pose proof (proxy_key_processed _ _ _ _ _ _ _ _ _ _ Ho' Hx) as Hspec.
    destruct (processed_key o' x) as [[name value]|]; [|subst; by exists o'].
    destruct Hspec as (s1 & v & (Hh & _) & ->).
    destruct (Hh _ _ Ho') as (o1 & Ho1' & E). exists o1. simpl.
    rewrite lookup_alter_ne by done. split; [done|].
    by rewrite (strip_own_properties _ _ E). }
  split.
  - rewrite Hunfold. unfold bind at 1. unfold bind at 2. fold proxy. fold st1.
    unfold Object_New at 1, NewObject at 1. fold proxy. fold P. fold st1.
    rewrite (for_each_filter I (λ key, is_Some (processed_key o key)) keys body st1 HI1 Hbody);
      [reflexivity|].
    intros x s (o' & Ho' & Eo') Hskip. apply (proxy_key_skipped _ _ _ _ _ _ _ _ o' Ho').
    rewrite (processed_key_ext _ _ _ Eo'). by destruct (processed_key o x); [destruct Hskip|].
  - intros proxy' st' Hrun.
    pose proof (proj2 (frame (S fuel)) _ _ _ _ _ _ _ _ Hrun) as (_ & _ & Hexc & _).
    rewrite Hunfold in Hrun. run_bind Hrun as u s2 Hloop. destruct u.
    apply ret_Some in Hrun.
    assert (proxy' = proxy) as -> by congruence. assert (st' = s2) as -> by congruence.
    split; [done|]. split; [done|].
    set (J := λ (pre : list v8_Value) (s : State),
           I s ∧ ∃ po, heap s !! proxy = Some po ∧ frozen po = false ∧
             kind po = JSPlainObject ∧
             Forall (λ q, prop_attr q = kNone) (properties po) ∧
             ∀ name, is_Some (find_property name (properties po)) ↔
                     ∃ key value, key ∈ pre ∧ processed_key o key = Some (name, value)).
    assert (HJ : J keys s2).
    { revert Hloop. apply (for_each_prefix_inv J).
      - split; [done|]. exists P. simpl. rewrite lookup_insert_eq.
        repeat split; try done.
        + intros [? ?]. discriminate.
        + intros (key & value & Hin & _). by apply elem_of_nil in Hin.
      - intros pre x s s' (HIs & po & Hpo & Hfz & Hk & Hattr & Hnames) Hx.
        split; [by eapply Hbody|].
        destruct HIs as (o' & Ho' & Eo').
        pose proof (proxy_key_processed _ _ _ _ _ _ _ _ _ _ Ho' Hx) as Hspec.
        rewrite (processed_key_ext _ _ _ Eo') in Hspec.
        destruct (processed_key o x) as [[name value]|] eqn:Hpx.
        + destruct Hspec as (s1 & v & (Hh & _) & ->).
          destruct (Hh _ _ Hpo) as (po1 & Hpo1 & E).
          apply strip_not_promise in E; [|intros ??; congruence]. subst po1.
          destruct (define_property_names name v po Hfz Hattr) as (Hfz' & Hk' & Hattr' & Hn').
          exists (define_property name v kNone po). simpl.
          rewrite lookup_alter_eq, Hpo1. simpl.
          split; [done|]. split; [done|]. split; [congruence|]. split; [done|].
          intros n. rewrite Hn', Hnames. split.
          * intros [->|(key & value' & Hin & Hp)].
            -- exists x, value. split; [|done]. apply elem_of_app. right.
               by apply list_elem_of_singleton.
            -- exists key, value'. split; [|done]. apply elem_of_app. by left.
          * intros (key & value' & Hin & Hp). apply elem_of_app in Hin as [Hin|Hin].
            -- right. eauto.
            -- apply list_elem_of_singleton in Hin as ->. left. congruence.
        + subst s'. exists po. repeat split; try done.
          * intros Hn. apply Hnames in Hn as (key & value & Hin & Hp).
            exists key, value. split; [|done]. apply elem_of_app. by left.
          * intros (key & value & Hin & Hp). apply Hnames.
            apply elem_of_app in Hin as [Hin|Hin]; [eauto|].
            apply list_elem_of_singleton in Hin as ->. congruence. }
    destruct HJ as (_ & po & Hpo & _ & _ & _ & Hnames). exists po. split; [done|].
    exact Hnames.
Qed.

Lemma proxy_builder_skips_keys_witness :
  ∃ proxy st' po,
    CreateProxyForAPI (H := Example.engine) 2 Example.main_world 7%N
      Example.isolated_world Example.main_world (Some 7%N) Example.page
      = Some (proxy, st') ∧
    heap st' !! proxy = Some po ∧
    prop_key <$> properties po = [v8String "7"; v8String "ok"] ∧
    pending_exception st' = None.
Proof.
  destruct (proxy_builder_skips_keys (H := Example.engine) 1 Example.main_world 7%N
              Example.isolated_world Example.main_world (Some 7%N) Example.page _
              eq_refl ltac:(discriminate)) as [Hrun _].
  eexists _, _, _. split; [rewrite Hrun; vm_compute; reflexivity|].
  split; [vm_compute; reflexivity|]. split; reflexivity.
Defined.

(** * What a marshalling pass never does *)

Lemma strip_same_but_reactions o o' : strip o' = strip o → same_but_reactions o o'.
Proof.
  intros E. split.
  - intros Hk. by apply strip_not_promise.
  - intros state reactions Hk.
    destruct (strip_kind_promise _ _ _ _ E Hk) as (reactions' & Hk').
    exists reactions'. destruct o as [k c ps fz], o' as [k' c' ps' fz'].
    unfold strip, set_kind in *. simpl in *. subst k k'. simpl in E. congruence.
Qed.

Lemma evolves_left_alone st st' : evolves st st' → left_alone st st'.
Proof.
  intros (Hh & Hs & He & _). split; [|split; [done|split]].
  - intros l o Hl. destruct (Hh _ _ Hl) as (o' & Hl' & E). exists o'.
    split; [done | by apply strip_same_but_reactions].
  - intros sp Hsp. specialize (Hs sp). rewrite Hsp in Hs.
    by destruct (store_map_ st' !! sp).
  - intros sp s Hsp. destruct (stores_grow_lookup _ _ _ _ Hs Hsp) as (s' & Hs' & Hg).
    exists s'. split; [done|]. destruct Hg as (Hle & Hlow & _). auto.
Qed.

Lemma reactions_added_refl o : reactions_added o o.
Proof.
  split; [done|]. intros state reactions Hk. exists []. rewrite app_nil_r.
  destruct o as [k c ps fz]. simpl in Hk. by subst k.
Qed.

Lemma reactions_added_trans o1 o2 o3 :
  reactions_added o1 o2 → reactions_added o2 o3 → reactions_added o1 o3.
Proof.
  intros [Hn12 Hp12] [Hn23 Hp23]. split.
  - intros Hk. pose proof (Hn12 Hk) as E. subst o2. by apply Hn23.
  - intros state reactions Hk. destruct (Hp12 _ _ Hk) as (added & ->).
    destruct (Hp23 state (reactions ++ added) eq_refl) as (added' & ->).
    exists (added ++ added'). by rewrite app_assoc.
Qed.

Lemma grown_same st st' : heap st' = heap st → grown st st'.
Proof. intros E l o Hl. exists o. rewrite E. split; [done | apply reactions_added_refl]. Qed.

Lemma grown_refl st : grown st st.
Proof. by apply grown_same. Qed.

Lemma grown_trans st1 st2 st3 : grown st1 st2 → grown st2 st3 → grown st1 st3.
Proof.
  intros H12 H23 l o Hl. destruct (H12 _ _ Hl) as (o2 & Hl2 & E2).
  destruct (H23 _ _ Hl2) as (o3 & Hl3 & E3). exists o3. split; [done|].
  by eapply reactions_added_trans.
Qed.

Lemma grown_NewObject o st l st' : NewObject o st = Some (l, st') → grown st st'.
Proof.
  intros E%NewObject_Some. simplify_eq. intros l o0 Hl. exists o0.
  split; [|apply reactions_added_refl]. simpl. rewrite lookup_insert_ne; [done|].
  intros <-. pose proof (fresh_not_in_heap st). congruence.
Qed.

Lemma grown_alter_new st0 st l f :
  grown st0 st → heap st0 !! l = None → grown st0 (set_heap (alter f l) st).
Proof.
  intros Hg Hl l0 o0 Hl0. destruct (Hg _ _ Hl0) as (o' & Hl' & E). exists o'.
  split; [|done]. simpl. rewrite lookup_alter_ne; [done | congruence].
Qed.

Lemma grown_Promise_Then promise on_fulfilled on_rejected st u st' :
  Promise_Then promise on_fulfilled on_rejected st = Some (u, st') → grown st st'.
Proof.
  unfold Promise_Then. intros Hrun. run_get Hrun as o Ho.
  destruct (kind o) as [| [| |] reactions | | | |] eqn:Hk; run_steps;
    try by apply grown_same.
  intros l o0 Hl. simpl. destruct (decide (promise = l)) as [<-|Hne].
  - rewrite lookup_insert_eq. simplify_eq. eexists. split; [done|]. split.
    + intros Hn. by destruct (Hn _ _ Hk).
    + intros state reactions0 Hk0. rewrite Hk in Hk0. injection Hk0 as <- <-.
      by exists [(on_fulfilled, on_rejected)].
  - rewrite lookup_insert_ne by done. exists o0. split; [done | apply reactions_added_refl].
Qed.

Section Reactions.

Context `{Engine}.

Lemma grown_proxied_function store entry context st id st1 u st2 l st3 :
  take_id store st = Some (id, st1) →
  functions_insert store id entry st1 = Some (u, st2) →
  CreateFunction context (BoundProxyFunctionWrapper store id) st2 = Some (l, st3) →
  grown st st3.
Proof.
  intros Ht Hi Hc. destruct (register_Some _ _ _ _ _ _ _ Ht Hi) as (s & Hs & -> & ->).
  eapply grown_trans; [|by eapply grown_NewObject]. by apply grown_same.
Qed.

Lemma reactions_stay fuel :
  (∀ current source destination value store st r st',
     PassValueToOtherContext fuel current source destination value store st = Some (r, st') →
     grown st st') ∧
  (∀ current api source_context target_context store st r st',
     CreateProxyForAPI fuel current api source_context target_context store st = Some (r, st') →
     grown st st').
Proof.
  induction fuel as [|fuel [IHpass IHproxy]];
    (split; [intros ??????? st' Hrun | intros ??????? st' Hrun]).
  - discriminate.
  - discriminate.
  - rewrite PassValueToOtherContext_S in Hrun. run_bind Hrun as h s0 Hh.
    run_steps.
    destruct (IsFunction _ _).
    { run_bind Hrun as func s1 Hcast. run_bind Hrun as func_id s2 Htake.
      run_bind Hrun as u s3 Hins. run_bind Hrun as proxy_func s4 Hnew. run_steps.
      eapply grown_trans; [by eapply grown_proxied_function | by apply grown_same]. }
    destruct (IsPromise _ _).
    { run_bind Hrun as v8_promise s1 Hcast. run_bind Hrun as handle s2 Hnew.
      run_bind Hrun as on_fulfilled s3 Hf. run_bind Hrun as on_rejected s4 Hr.
      run_bind Hrun as u s5 Hthen. run_steps.
      eapply grown_trans; [by eapply grown_NewObject|].
      eapply grown_trans; [by eapply grown_NewObject|].
      eapply grown_trans; [by eapply grown_NewObject|].
      by eapply grown_Promise_Then. }
    destruct (IsNativeError _ _).
    { run_bind Hrun as e s1 Hnew. run_steps. by eapply grown_NewObject. }
    destruct (IsArray _ _).
    { run_bind Hrun as arr s1 Hcast. run_bind Hrun as elements s2 Hes.
      run_bind Hrun as cloned_arr s3 Hnew. run_bind Hrun as u s4 Hloop. run_steps.
      apply Array_elements_state in Hes as ->.
      destruct u. revert Hloop. apply for_each_inv.
      - by eapply grown_NewObject.
      - intros i s s' _ Hs Hbody. run_bind Hbody as maybe_element s5 Hget.
        run_bind Hbody as element s6 Hck. run_bind Hbody as passed s7 Hpass. run_steps.
        apply Array_Get_state in Hget as ->.
        apply grown_alter_new;
          [|by apply NewObject_Some in Hnew; simplify_eq; apply fresh_not_in_heap].
        eapply grown_trans; [exact Hs | by eapply IHpass]. }
    destruct (IsObject _ && _).
    { run_bind Hrun as api s1 Hcast. run_bind Hrun as proxy s2 Hproxy. run_steps.
      by eapply IHproxy. }
    destruct (IsNull _); [run_steps; apply grown_refl|].
    destruct (IsUndefined _); [run_steps; apply grown_refl|].
    destruct (ConvertFromV8_Value _); run_steps; apply grown_refl.
  - rewrite CreateProxyForAPI_S in Hrun. run_bind Hrun as proxy s1 Hnew.
    run_bind Hrun as maybe_keys s2 Hkeys.
    apply GetOwnPropertyNames_state in Hkeys as ->.
    pose proof Hnew as Hev. apply grown_NewObject in Hev.
    apply NewObject_Some in Hnew. simplify_eq.
    destruct maybe_keys as [keys|]; [|by run_steps].
    run_bind Hrun as u s3 Hloop. destruct u. run_steps.
    revert Hloop. apply for_each_inv; [exact Hev|].
    intros key s s' _ Hs Hbody. unfold proxy_key in Hbody.
    destruct (key_to_string key) as [key_str|]; [|by run_steps].
    run_bind Hbody as maybe_value s4 Hget. apply Dictionary_Get_state in Hget as ->.
    destruct maybe_value as [value|]; [|by run_steps].
    run_bind Hbody as h s5 Hh. run_steps.
    assert (Hfresh : heap st !! fresh (dom (heap st)) = None) by apply fresh_not_in_heap.
    destruct (IsFunction _ _).
    { run_bind Hbody as func t1 Hcast. run_bind Hbody as func_id t2 Htake.
      run_bind Hbody as u t3 Hins. run_bind Hbody as method t4 Hmethod. run_steps.
      apply grown_alter_new; [|done].
      eapply grown_trans; [exact Hs | by eapply grown_proxied_function]. }
    destruct (_ && _).
    { run_bind Hbody as sub_api t1 Hcast. run_bind Hbody as sub_proxy t2 Hsub. run_steps.
      apply grown_alter_new; [|done].
      eapply grown_trans; [exact Hs | by eapply IHproxy]. }
    run_bind Hbody as passed t1 Hpass. run_steps.
    apply grown_alter_new; [|done].
    eapply grown_trans; [exact Hs | by eapply IHpass].
Qed.

Lemma grown_left_intact st st' : evolves st st' → grown st st' → left_intact st st'.
Proof.
  intros Hev Hg. destruct (evolves_left_alone _ _ Hev) as (_ & He & Hnone & Hsome).
  by repeat split.
Qed.

End Reactions.

(** X1: a marshalling pass and a proxy build that return leave every
    object that existed where it was and as it was, but for reactions
    added behind those that waited on a promise: a non-promise is the
    same object, a promise keeps its state and its reactions in their
    order, new ones coming after them.  They leave the pending exception
    as it was, create no store and remove none, never lower a counter and
    never erase or overwrite an entry below the counter. *)
Theorem marshalling_leaves_state_intact `{Engine} fuel :
  (∀ current source destination value store st r st',
     PassValueToOtherContext fuel current source destination value store st = Some (r, st') →
     left_intact st st') ∧
  (∀ current api source_context target_context store st r st',
     CreateProxyForAPI fuel current api source_context target_context store st
       = Some (r, st') →
     left_intact st st').
Proof.
  split.
  - intros current source destination value store st r st' Hrun.
    apply grown_left_intact.
    + exact (proj1 (frame fuel) _ _ _ _ _ _ _ _ Hrun).
    + exact (proj1 (reactions_stay fuel) _ _ _ _ _ _ _ _ Hrun).
  - intros current api source_context target_context store st r st' Hrun.
    apply grown_left_intact.
    + exact (proj2 (frame fuel) _ _ _ _ _ _ _ _ Hrun).
    + exact (proj2 (reactions_stay fuel) _ _ _ _ _ _ _ _ Hrun).
Qed.

Lemma marshalling_leaves_state_intact_witness :
  ∃ r st',
    PassValueToOtherContext (H := Example.engine) 1 Example.isolated_world
      Example.isolated_world Example.main_world (v8Object 6%N) (Some 7%N) awaited
      = Some (r, st') ∧
    left_intact awaited st'.
Proof.
  assert (Hrun : ∃ r st',
            PassValueToOtherContext (H := Example.engine) 1 Example.isolated_world
              Example.isolated_world Example.main_world (v8Object 6%N) (Some 7%N)
              awaited = Some (r, st')).
  { eexists _, _. vm_compute. reflexivity. }
  destruct Hrun as (r & st' & Hrun). exists r, st'. split; [exact Hrun|].
  exact (proj1 (marshalling_leaves_state_intact (H := Example.engine) 1)
           _ _ _ _ _ _ _ _ Hrun).
Defined.

(** * No reference to a source object crosses the bridge *)

Lemma points_outside_same st st' :
  (∀ l, heap st !! l = None → heap st' !! l = None) → points_outside st st'.
Proof. intros Hno l o p l' Hl Hl'. apply Hno in Hl. congruence. Qed.

Lemma points_outside_refl st : points_outside st st.
Proof. by apply points_outside_same. Qed.

Lemma evolves_new st st' l : evolves st st' → heap st' !! l = None → heap st !! l = None.
Proof.
  intros (Hh & _) Hl. destruct (heap st !! l) as [o|] eqn:E; [|done].
  destruct (Hh _ _ E) as (o' & Hl' & _). congruence.
Qed.

Lemma fresh_value_evolves st st' v : evolves st st' → fresh_value st' v → fresh_value st v.
Proof. intros Hev. destruct v; simpl; try done. by apply evolves_new. Qed.

Lemma points_outside_trans st1 st2 st3 :
  evolves st1 st2 → evolves st2 st3 →
  points_outside st1 st2 → points_outside st2 st3 → points_outside st1 st3.
Proof.
  intros Hev12 Hev23 H12 H23 l o p l' Hl Hl3 Hp Hv.
  destruct (heap st2 !! l) as [o2|] eqn:Hl2.
  - destruct Hev23 as (Hh & _). destruct (Hh _ _ Hl2) as (o3 & Hl3' & E).
    assert (o3 = o) as -> by congruence.
    rewrite (strip_own_properties _ _ E) in Hp. by eapply H12.
  - eapply evolves_new; [exact Hev12|]. by eapply H23.
Qed.

Lemma points_outside_insert_new st l o :
  heap st !! l = None → holds_no_object o → points_outside st (set_heap (insert l o) st).
Proof.
  intros Hl Ho l0 o0 p l' Hl0 Hl0' Hp Hv. simpl in Hl0'.
  destruct (decide (l = l0)) as [<-|Hne].
  - rewrite lookup_insert_eq in Hl0'. injection Hl0' as <-. by destruct (Ho _ l' Hp).
  - rewrite lookup_insert_ne in Hl0' by done. congruence.
Qed.

Lemma holds_no_object_empty k c fz :
  (∀ elements, k ≠ JSArray elements) →
  holds_no_object {| kind := k; CreationContext := c; properties := []; frozen := fz |}.
Proof.
  intros Hk p l' Hp. unfold own_properties in Hp. simpl in Hp. rewrite app_nil_r in Hp.
  destruct k; try by apply elem_of_nil in Hp. by destruct (Hk elements).
Qed.

Lemma holds_no_object_holes c n hole :
  IsObject hole = false →
  holds_no_object {| kind := JSArray (replicate n hole); CreationContext := c;
                     properties := []; frozen := false |}.
Proof.
  intros Hhole p l' Hp Hv. unfold own_properties in Hp. simpl in Hp.
  rewrite app_nil_r in Hp. apply elem_of_lookup_imap in Hp as (i & e & -> & He).
  simpl in Hv. apply lookup_replicate in He as [-> _]. injection Hv as ->. discriminate.
Qed.

Lemma set_element_writes_only hole i v :
  IsObject hole = false → writes_only v (set_element hole i v).
Proof.
  intros Hhole o p l' Hp Hv. unfold set_element in Hp.
  destruct (kind o) as [| | |elements| |] eqn:Hk; try (by right; eauto).
  destruct (frozen o); [by right; eauto|].
  unfold own_properties in Hp |- *. simpl in Hp. rewrite Hk.
  apply elem_of_app in Hp as [Hp|Hp].
  - apply elem_of_lookup_imap in Hp as (j & e & -> & He). simpl in Hv. injection Hv as ->.
    unfold write_element in He. destruct (decide (i < length elements)%nat).
    + destruct (decide (i = j)) as [<-|Hne].
      * rewrite list_lookup_insert_eq in He by done. left. congruence.
      * rewrite list_lookup_insert_ne in He by done. right.
        eexists. split; [apply elem_of_app; left; apply elem_of_lookup_imap; eauto|done].
    + apply list_elem_of_lookup_2 in He. apply elem_of_app in He as [He|He].
      * right. apply list_elem_of_lookup_1 in He as (k & He).
        eexists. split; [apply elem_of_app; left; apply elem_of_lookup_imap; eauto|done].
      * apply elem_of_app in He as [He|He].
        -- apply elem_of_replicate in He as [<- _]. discriminate.
        -- apply list_elem_of_singleton in He. left. congruence.
  - right. exists p. split; [|done]. apply elem_of_app. by right.
Qed.

Lemma define_property_writes_only name v attr : writes_only v (define_property name v attr).
Proof.
  intros o p l' Hp Hv. unfold define_property in Hp.
  destruct (frozen o); [by right; eauto|].
  set (p' := {| prop_key := v8String name; prop_value := Some v; prop_attr := attr |}) in *.
  destruct (find_property name (properties o)) as [q|].
  - destruct (prop_attr q); [|right; eauto].
    unfold own_properties in Hp |- *. simpl in Hp.
    apply elem_of_app in Hp as [Hp|Hp].
    + right. exists p. split; [|done]. apply elem_of_app. by left.
    + unfold replace_property in Hp. apply list_elem_of_fmap in Hp as (q0 & -> & Hq0).
      destruct (decide _).
      * left. simpl in Hv. congruence.
      * right. exists q0. split; [|done]. apply elem_of_app. by right.
  - unfold own_properties in Hp |- *. simpl in Hp.
    apply elem_of_app in Hp as [Hp|Hp].
    + right. exists p. split; [|done]. apply elem_of_app. by left.
    + apply elem_of_app in Hp as [Hp|Hp].
      * right. exists p. split; [|done]. apply elem_of_app. by right.
      * apply list_elem_of_singleton in Hp as ->. left. simpl in Hv. congruence.
Qed.

Lemma points_outside_alter_new st0 st c f v :
  points_outside st0 st → heap st0 !! c = None → fresh_value st0 v → writes_only v f →
  points_outside st0 (set_heap (alter f c) st).
Proof.
  intros Hpo Hc Hv Hf l o p l' Hl Hl' Hp Hpv. simpl in Hl'.
  destruct (decide (c = l)) as [<-|Hne].
  - rewrite lookup_alter_eq in Hl'. destruct (heap st !! c) as [o0|] eqn:Hc0; [|done].
    simpl in Hl'. injection Hl' as <-.
    destruct (Hf _ _ _ Hp Hpv) as [->|(p0 & Hp0 & Hpv0)]; [exact Hv|]. by eapply Hpo.
  - rewrite lookup_alter_ne in Hl' by done. by eapply Hpo.
Qed.

Lemma sealed_refl st : sealed st st.
Proof. split; [apply evolves_refl | apply points_outside_refl]. Qed.

Lemma sealed_trans st1 st2 st3 : sealed st1 st2 → sealed st2 st3 → sealed st1 st3.
Proof.
  intros [He Hp] [He' Hp']. split; [by eapply evolves_trans | by eapply points_outside_trans].
Qed.

Lemma sealed_NewObject o st l st' :
  holds_no_object o → ¬ is_bound_proxy o → NewObject o st = Some (l, st') →
  sealed st st' ∧ heap st !! l = None.
Proof.
  intros Ho Hb Hnew. pose proof (evolves_NewObject _ _ _ _ Hb Hnew) as Hev.
  apply NewObject_Some in Hnew. injection Hnew as -> ->.
  split; [|apply fresh_not_in_heap]. split; [done|].
  apply points_outside_insert_new; [apply fresh_not_in_heap | done].
Qed.

Lemma sealed_proxied_function store entry context st id st1 u st2 l st3 :
  take_id store st = Some (id, st1) →
  functions_insert store id entry st1 = Some (u, st2) →
  CreateFunction context (BoundProxyFunctionWrapper store id) st2 = Some (l, st3) →
  sealed st st3 ∧ heap st !! l = None.
Proof.
  intros Ht Hi Hc.
  destruct (evolves_proxied_function _ _ _ _ _ _ _ _ _ _ Ht Hi Hc) as (Hev & Hl).
  split; [|done]. split; [done|].
  destruct (register_Some _ _ _ _ _ _ _ Ht Hi) as (s & Hs & -> & ->).
  unfold CreateFunction in Hc. apply NewObject_Some in Hc. injection Hc as -> ->.
  intros l0 o p l' Hl0 Hl0' Hp Hv. simpl in Hl0'.
  destruct (decide (fresh (dom (heap st)) = l0)) as [<-|Hne].
  - rewrite lookup_insert_eq in Hl0'. injection Hl0' as <-.
    unfold own_properties in Hp. simpl in Hp. by apply elem_of_nil in Hp.
  - rewrite lookup_insert_ne in Hl0' by done. congruence.
Qed.

Lemma sealed_alter_new st0 st c f v :
  sealed st0 st → heap st0 !! c = None → fresh_value st0 v → writes_only v f →
  (∀ o, kind (f o) = kind o ∨ ¬ is_bound_proxy (f o)) →
  sealed st0 (set_heap (alter f c) st).
Proof.
  intros [Hev Hpo] Hc Hv Hf Hk. split.
  - by apply evolves_alter_new.
  - by eapply points_outside_alter_new.
Qed.

Lemma sealed_Promise_Then promise on_fulfilled on_rejected st u st' :
  Promise_Then promise on_fulfilled on_rejected st = Some (u, st') → sealed st st'.
Proof.
  intros Hrun. split; [by eapply evolves_Promise_Then|].
  apply points_outside_same. intros l Hl.
  unfold Promise_Then in Hrun. run_get Hrun as o Ho.
  destruct (kind o) as [| [| |] reactions | | | |]; run_steps; try done.
  simpl. rewrite lookup_insert_ne; [done | congruence].
Qed.

Lemma IsObject_fresh_value st v : IsObject v = false → fresh_value st v.
Proof. by destruct v. Qed.

Ltac no_array := let es := fresh in intros es; discriminate.

Ltac no_proxy :=
  let sp := fresh in
  let id := fresh in
  let E := fresh in
  intros (sp & id & E); discriminate E.

Section Isolation.

Context `{Engine}.

Hypothesis plain_data : converts_to_plain_data.

Lemma isolation fuel :
  (∀ current source destination value store st r st',
     PassValueToOtherContext fuel current source destination value store st = Some (r, st') →
     fresh_value st r ∧ sealed st st') ∧
  (∀ current api source_context target_context store st r st',
     CreateProxyForAPI fuel current api source_context target_context store st = Some (r, st') →
     heap st !! r = None ∧ sealed st st').
Proof.
  induction fuel as [|fuel [IHpass IHproxy]];
    (split; [intros ??????? st' Hrun | intros ??????? st' Hrun]).
  - discriminate.
  - discriminate.
  - rewrite PassValueToOtherContext_S in Hrun. run_bind Hrun as h s0 Hh.
    run_steps.
    destruct (IsFunction _ _).
    { run_bind Hrun as func s1 Hcast. run_bind Hrun as func_id s2 Htake.
      run_bind Hrun as u s3 Hins. run_bind Hrun as proxy_func s4 Hnew. run_steps.
      destruct (sealed_proxied_function _ _ _ _ _ _ _ _ _ _ Htake Hins Hnew) as (Hs & Hl).
      split; [exact Hl|]. eapply sealed_trans; [exact Hs|].
      split; [apply evolves_monitors | by apply points_outside_same]. }
    destruct (IsPromise _ _).
    { run_bind Hrun as v8_promise s1 Hcast. run_bind Hrun as handle s2 Hnew.
      run_bind Hrun as on_fulfilled s3 Hf. run_bind Hrun as on_rejected s4 Hr.
      run_bind Hrun as u s5 Hthen. run_steps.
      apply sealed_NewObject in Hnew as [Hs1 Hl];
        [|apply holds_no_object_empty; no_array|no_proxy].
      apply sealed_NewObject in Hf as [Hs2 _];
        [|apply holds_no_object_empty; no_array|no_proxy].
      apply sealed_NewObject in Hr as [Hs3 _];
        [|apply holds_no_object_empty; no_array|no_proxy].
      apply sealed_Promise_Then in Hthen.
      split; [exact Hl|]. repeat (eapply sealed_trans; [eassumption|]). apply sealed_refl. }
    destruct (IsNativeError _ _).
    { run_bind Hrun as e s1 Hnew. run_steps.
      apply sealed_NewObject in Hnew as [Hs1 Hl];
        [done|apply holds_no_object_empty; no_array|no_proxy]. }
    destruct (IsArray _ _).
    { run_bind Hrun as arr s1 Hcast. run_bind Hrun as elements s2 Hes.
      run_bind Hrun as cloned_arr s3 Hnew. run_bind Hrun as u s4 Hloop. run_steps.
      apply Array_elements_state in Hes as ->.
      apply sealed_NewObject in Hnew as [Hs1 Hl];
        [|by apply holds_no_object_holes|no_proxy].
      split; [exact Hl|].
      destruct u. revert Hloop. apply (for_each_inv (sealed st)); [exact Hs1|].
      intros i s s' _ Hs Hbody. run_bind Hbody as maybe_element s5 Hget.
      run_bind Hbody as element s6 Hck. run_bind Hbody as passed s7 Hpass. run_steps.
      apply Array_Get_state in Hget as ->.
      destruct (IHpass _ _ _ _ _ _ _ _ Hpass) as [Hfresh Hs'].
      apply (sealed_alter_new _ _ _ _ passed);
        [by eapply sealed_trans|done| | |apply set_element_kind].
      - eapply fresh_value_evolves; [apply Hs | exact Hfresh].
      - by apply set_element_writes_only. }
    destruct (IsObject _ && _).
    { run_bind Hrun as api s1 Hcast. run_bind Hrun as proxy s2 Hproxy. run_steps.
      by eapply IHproxy. }
    destruct (IsNull _); [run_steps; split; [done | apply sealed_refl]|].
    destruct (IsUndefined _); [run_steps; split; [done | apply sealed_refl]|].
    destruct (ConvertFromV8_Value _); run_steps; (split; [|apply sealed_refl]); [|done].
    apply IsObject_fresh_value, plain_data.
  - rewrite CreateProxyForAPI_S in Hrun. run_bind Hrun as proxy s1 Hnew.
    run_bind Hrun as maybe_keys s2 Hkeys.
    apply GetOwnPropertyNames_state in Hkeys as ->.
    unfold Object_New in Hnew.
    apply sealed_NewObject in Hnew as [Hs1 Hl];
      [|apply holds_no_object_empty; no_array|no_proxy].
    destruct maybe_keys as [keys|]; [|by run_steps].
    run_bind Hrun as u s3 Hloop. destruct u. run_steps. split; [exact Hl|].
    revert Hloop. apply (for_each_inv (sealed st)); [exact Hs1|].
    intros key s s' _ Hs Hbody. unfold proxy_key in Hbody.
    destruct (key_to_string key) as [key_str|]; [|by run_steps].
    run_bind Hbody as maybe_value s4 Hget. apply Dictionary_Get_state in Hget as ->.
    destruct maybe_value as [value|]; [|by run_steps].
    run_bind Hbody as h s5 Hh. run_steps.
    destruct (IsFunction _ _).
    { run_bind Hbody as func t1 Hcast. run_bind Hbody as func_id t2 Htake.
      run_bind Hbody as u t3 Hins. run_bind Hbody as method t4 Hmethod. run_steps.
      destruct (sealed_proxied_function _ _ _ _ _ _ _ _ _ _ Htake Hins Hmethod)
        as (Hs' & Hm).
      apply (sealed_alter_new _ _ _ _ (v8Object method));
        [by eapply sealed_trans|done| |apply define_property_writes_only
        |apply define_property_kind].
      simpl. eapply evolves_new; [apply Hs | exact Hm]. }
    destruct (_ && _).
    { run_bind Hbody as sub_api t1 Hcast. run_bind Hbody as sub_proxy t2 Hsub. run_steps.
      destruct (IHproxy _ _ _ _ _ _ _ _ Hsub) as [Hfresh Hs'].
      apply (sealed_alter_new _ _ _ _ (v8Object sub_proxy));
        [by eapply sealed_trans|done| |apply define_property_writes_only
        |apply define_property_kind].
      simpl. eapply evolves_new; [apply Hs | exact Hfresh]. }
    run_bind Hbody as passed t1 Hpass. run_steps.
    destruct (IHpass _ _ _ _ _ _ _ _ Hpass) as [Hfresh Hs'].
    apply (sealed_alter_new _ _ _ _ passed);
      [by eapply sealed_trans|done| |apply define_property_writes_only
      |apply define_property_kind].
    eapply fresh_value_evolves; [apply Hs | exact Hfresh].
Qed.

(** From a new object, reads of own properties lead to new objects only. *)
Lemma reachable_new st st' root l :
  points_outside st st' → heap st !! root = None →
  reachable (heap st') root l → heap st !! l = None.
Proof.
  intros Hpo Hroot Hreach. unfold reachable in Hreach. revert l Hreach.
  apply rtc_ind_r; [exact Hroot|]. intros a b _ (o & p & Ho & Hread & Hv) Ha.
  eapply Hpo; [exact Ha | exact Ho | | exact Hv].
  unfold read_own_property in Hread.
  destruct (list_find _ _) as [[i q]|] eqn:Hfind; [|done]. simpl in Hread.
  injection Hread as ->. apply list_find_Some in Hfind as (Hi & _).
  by eapply list_elem_of_lookup_2.
Qed.

End Isolation.

(** X2: when the value converter yields no objects, nothing that can be
    reached from the result of a marshalling pass, or from the proxy
    object of a proxy build, by reading own properties existed before the
    call: the result holds no reference to an object of the source
    context, however deeply the source value is nested. *)
Theorem no_source_reference_crosses `{Engine} fuel :
  converts_to_plain_data →
  (∀ current source destination value store st r st' l,
     PassValueToOtherContext fuel current source destination value store st
       = Some (v8Object r, st') →
     reachable (heap st') r l → heap st !! l = None) ∧
  (∀ current api source_context target_context store st proxy st' l,
     CreateProxyForAPI fuel current api source_context target_context store st
       = Some (proxy, st') →
     reachable (heap st') proxy l → heap st !! l = None).
Proof.
  intros Hplain. destruct (isolation Hplain fuel) as [Hpass Hproxy]. split.
  - intros current source destination value store st r st' l Hrun Hreach.
    destruct (Hpass _ _ _ _ _ _ _ _ Hrun) as [Hr [_ Hpo]].
    by eapply reachable_new.
  - intros current api source_context target_context store st proxy st' l Hrun Hreach.
    destruct (Hproxy _ _ _ _ _ _ _ _ Hrun) as [Hr [_ Hpo]].
    by eapply reachable_new.
Qed.

Lemma no_source_reference_crosses_witness :
  converts_to_plain_data (H := Example.engine) ∧
  ∃ r st',
    PassValueToOtherContext (H := Example.engine) 4 Example.isolated_world
      Example.isolated_world Example.main_world (v8Object 4%N) (Some 7%N) Example.page
      = Some (v8Object r, st') ∧
    ∀ l, reachable (heap st') r l → heap Example.page !! l = None.
Proof.
  assert (Hplain : converts_to_plain_data (H := Example.engine)).
  { intros i b. by destruct b. }
  split; [exact Hplain|].
  assert (Hrun : ∃ r st',
            PassValueToOtherContext (H := Example.engine) 4 Example.isolated_world
              Example.isolated_world Example.main_world (v8Object 4%N) (Some 7%N)
              Example.page = Some (v8Object r, st')).
  { eexists _, _. vm_compute. reflexivity. }
  destruct Hrun as (r & st' & Hrun). exists r, st'. split; [exact Hrun|].
  intros l. exact (proj1 (no_source_reference_crosses (H := Example.engine) 4 Hplain)
                     _ _ _ _ _ _ _ _ l Hrun).
Defined.

(** * Every id taken leaves a live entry *)

Lemma store_grows_wf s s' : store_grows s s' → store_wf s → store_wf s'.
Proof.
  intros (Hle & Hlow & Hmid & Hhigh) Hwf id Hid.
  destruct (decide (id < next_id_ s')%N) as [|Hge]; [done|].
  rewrite Hhigh in Hid by lia. apply Hwf in Hid. lia.
Qed.

Lemma store_grows_size s s' :
  store_grows s s' → store_wf s →
  size (functions_ s') = (size (functions_ s) + N.to_nat (next_id_ s' - next_id_ s))%nat.
Proof.
  intros Hg Hwf. remember (N.to_nat (next_id_ s' - next_id_ s)) as n eqn:En.
  revert s' Hg En. induction n as [|n IH]; intros s' (Hle & Hlow & Hmid & Hhigh) En.
  - assert (next_id_ s' = next_id_ s) as Enext by lia.
    rewrite Nat.add_0_r. f_equal. apply map_eq. intros id.
    destruct (decide (id < next_id_ s)%N); [by apply Hlow|]. apply Hhigh. lia.
  - set (top := (next_id_ s' - 1)%N).
    set (s'' := {| next_id_ := top; functions_ := delete top (functions_ s') |}).
    assert (Htop : is_Some (functions_ s' !! top)) by (apply Hmid; lia).
    assert (Hg' : store_grows s s'').
    { split; [simpl; lia|]. split; [|split].
      - intros id Hid. simpl. rewrite lookup_delete_ne by lia. by apply Hlow.
      - intros id Hid. simpl in *. rewrite lookup_delete_ne by lia. apply Hmid. lia.
      - intros id Hid. simpl in *. destruct (decide (top = id)) as [<-|Hne].
        + rewrite lookup_delete_eq. symmetry. apply eq_None_not_Some. intros Hs.
          apply Hwf in Hs. lia.
        + rewrite lookup_delete_ne by done. apply Hhigh. lia. }
    specialize (IH s'' Hg'). simpl in IH. rewrite map_size_delete_Some in IH by done.
    assert (size (functions_ s') ≠ 0%nat).
    { intros E. apply map_size_empty_inv in E. rewrite E, lookup_empty in Htop.
      by destruct Htop. }
    lia.
Qed.

(** X3: a marshalling pass and a proxy build release nothing: in a store
    whose live entries lie below its counter, the number of live entries
    afterwards is the number before plus the number of ids taken in
    between, and the live entries still lie below the counter. *)
Theorem marshalling_keeps_every_entry `{Engine} fuel :
  (∀ current source destination value store st r st' sp s,
     PassValueToOtherContext fuel current source destination value store st = Some (r, st') →
     store_map_ st !! sp = Some s → store_wf s →
     ∃ s', store_map_ st' !! sp = Some s' ∧ store_wf s' ∧
           functionCount sp st'
             = (functionCount sp st + N.to_nat (next_id_ s' - next_id_ s))%nat) ∧
  (∀ current api source_context target_context store st r st' sp s,
     CreateProxyForAPI fuel current api source_context target_context store st
       = Some (r, st') →
     store_map_ st !! sp = Some s → store_wf s →
     ∃ s', store_map_ st' !! sp = Some s' ∧ store_wf s' ∧
           functionCount sp st'
             = (functionCount sp st + N.to_nat (next_id_ s' - next_id_ s))%nat).
Proof.
  assert (Hev : ∀ st st' sp s,
            evolves st st' → store_map_ st !! sp = Some s → store_wf s →
            ∃ s', store_map_ st' !! sp = Some s' ∧ store_wf s' ∧
                  functionCount sp st'
                    = (functionCount sp st + N.to_nat (next_id_ s' - next_id_ s))%nat).
  { intros st st' sp s (_ & Hs & _) Hsp Hwf.
    destruct (stores_grow_lookup _ _ _ _ Hs Hsp) as (s' & Hsp' & Hg).
    exists s'. split; [done|]. split; [by eapply store_grows_wf|].
    unfold functionCount. rewrite Hsp, Hsp'. by apply store_grows_size. }
  split.
  - intros current source destination value store st r st' sp s Hrun.
    apply Hev, (proj1 (frame fuel) _ _ _ _ _ _ _ _ Hrun).
  - intros current api source_context target_context store st r st' sp s Hrun.
    apply Hev, (proj2 (frame fuel) _ _ _ _ _ _ _ _ Hrun).
Qed.

Lemma marshalling_keeps_every_entry_witness :
  ∃ r st' s',
    PassValueToOtherContext (H := Example.engine) 4 Example.isolated_world
      Example.isolated_world Example.main_world (v8Object 4%N) (Some 7%N) Example.page
      = Some (r, st') ∧
    store_map_ st' !! Some 7%N = Some s' ∧ store_wf s' ∧
    functionCount (Some 7%N) st'
      = (functionCount (Some 7%N) Example.page + N.to_nat (next_id_ s' - 1))%nat.
Proof.
  assert (Hrun : ∃ r st',
            PassValueToOtherContext (H := Example.engine) 4 Example.isolated_world
              Example.isolated_world Example.main_world (v8Object 4%N) (Some 7%N)
              Example.page = Some (r, st')).
  { eexists _, _. vm_compute. reflexivity. }
  destruct Hrun as (r & st' & Hrun).
  destruct (proj1 (marshalling_keeps_every_entry (H := Example.engine) 4)
              _ _ _ _ _ _ _ _ (Some 7%N) {| next_id_ := 1%N; functions_ := ∅ |} Hrun)
    as (s' & Hs' & Hwf' & Hcount).
  - reflexivity.
  - intros id Hid. simpl in Hid. rewrite lookup_empty in Hid. by destruct Hid.
  - exists r, st', s'. split; [exact Hrun|]. split; [exact Hs'|]. split; [exact Hwf'|].
    exact Hcount.
Defined.

(** * The contexts of the objects a pass creates *)

Lemma strip_CreationContext o o' : strip o' = strip o → CreationContext o' = CreationContext o.
Proof.
  intros E. apply (f_equal CreationContext) in E. unfold strip in E.
  by destruct (kind o) as [| [] ?| | | |], (kind o') as [| [] ?| | | |].
Qed.

Lemma created_in_same current c top st st' :
  (∀ l, heap st !! l = None → heap st' !! l = None) → created_in current c top st st'.
Proof. intros Hno l o Hl Hl'. apply Hno in Hl. congruence. Qed.

Lemma created_in_top current c top st st' :
  created_in current c None st st' → created_in current c top st st'.
Proof. intros Hc l o Hl Hl'. destruct (Hc l o Hl Hl') as [|[? _]]; [by left | done]. Qed.

Lemma created_in_current c top st st' :
  created_in c c top st st' → created_in c c None st st'.
Proof. intros Hc l o Hl Hl'. destruct (Hc l o Hl Hl') as [|[_ ?]]; by left. Qed.

Lemma created_in_trans current c top st1 st2 st3 :
  evolves st2 st3 →
  created_in current c top st1 st2 → created_in current c top st2 st3 →
  created_in current c top st1 st3.
Proof.
  intros (Hh & _) H12 H23 l o Hl Hl3. destruct (heap st2 !! l) as [o2|] eqn:Hl2.
  - destruct (Hh _ _ Hl2) as (o3 & Hl3' & E). assert (o3 = o) as -> by congruence.
    rewrite (strip_CreationContext _ _ E). by apply H12.
  - by apply H23.
Qed.

Lemma created_in_NewObject current c top o st l st' :
  CreationContext o = Some c → NewObject o st = Some (l, st') →
  created_in current c top st st'.
Proof.
  intros Hc Hnew. apply NewObject_Some in Hnew. injection Hnew as -> ->.
  intros l o' Hl Hl'. simpl in Hl'. left.
  destruct (decide (fresh (dom (heap st)) = l)) as [<-|Hne].
  - rewrite lookup_insert_eq in Hl'. congruence.
  - rewrite lookup_insert_ne in Hl' by done. congruence.
Qed.

Lemma created_in_alter current c top st0 st l f :
  created_in current c top st0 st → (∀ o, CreationContext (f o) = CreationContext o) →
  created_in current c top st0 (set_heap (alter f l) st).
Proof.
  intros Hc Hf l0 o Hl0 Hl0'. simpl in Hl0'.
  destruct (decide (l = l0)) as [<-|Hne].
  - rewrite lookup_alter_eq in Hl0'. destruct (heap st !! l) as [o0|] eqn:E; [|done].
    simpl in Hl0'. injection Hl0' as <-. rewrite Hf. by eapply Hc.
  - rewrite lookup_alter_ne in Hl0' by done. by eapply Hc.
Qed.

Lemma set_element_CreationContext hole i v o :
  CreationContext (set_element hole i v o) = CreationContext o.
Proof. unfold set_element. destruct (kind o); try done. by destruct (frozen o). Qed.

Lemma define_property_CreationContext name v attr o :
  CreationContext (define_property name v attr o) = CreationContext o.
Proof.
  unfold define_property. destruct (frozen o); [done|].
  destruct (find_property _ _) as [p|]; [|done]. by destruct (prop_attr p).
Qed.

Lemma created_in_proxied_function current c top store entry st id st1 u st2 l st3 :
  take_id store st = Some (id, st1) →
  functions_insert store id entry st1 = Some (u, st2) →
  CreateFunction c (BoundProxyFunctionWrapper store id) st2 = Some (l, st3) →
  created_in current c top st st3.
Proof.
  intros Ht Hi Hc. destruct (register_Some _ _ _ _ _ _ _ Ht Hi) as (s & Hs & -> & ->).
  unfold CreateFunction in Hc.
  eapply (created_in_NewObject current c top) in Hc; [|done].
  intros l0 o Hl0 Hl0'. by apply Hc.
Qed.

Lemma created_in_Promise_Then current c top promise on_fulfilled on_rejected st u st' :
  Promise_Then promise on_fulfilled on_rejected st = Some (u, st') →
  created_in current c top st st'.
Proof.
  intros Hrun. apply created_in_same. intros l Hl.
  unfold Promise_Then in Hrun. run_get Hrun as o Ho.
  destruct (kind o) as [| [| |] reactions | | | |]; run_steps; try done.
  simpl. rewrite lookup_insert_ne; [done | congruence].
Qed.

Section Contexts.

Context `{Engine}.

Lemma contexts fuel :
  (∀ current source destination value store st r st',
     PassValueToOtherContext fuel current source destination value store st = Some (r, st') →
     created_in current destination (Cast r) st st') ∧
  (∀ current api source_context target_context store st proxy st',
     CreateProxyForAPI fuel current api source_context target_context store st
       = Some (proxy, st') →
     created_in current target_context (Some proxy) st st' ∧
     heap st !! proxy = None ∧
     ∃ o, heap st' !! proxy = Some o ∧ CreationContext o = Some current).
Proof.
  induction fuel as [|fuel [IHpass IHproxy]];
    (split; [intros ??????? st' Hrun | intros ??????? st' Hrun]).
  - discriminate.
  - discriminate.
  - rewrite PassValueToOtherContext_S in Hrun. run_bind Hrun as h s0 Hh.
    run_steps.
    destruct (IsFunction _ _).
    { run_bind Hrun as func s1 Hcast. run_bind Hrun as func_id s2 Htake.
      run_bind Hrun as u s3 Hins. run_bind Hrun as proxy_func s4 Hnew. run_steps.
      apply created_in_top. intros l o Hl Hl'. simpl in Hl'.
      by eapply (created_in_proxied_function current destination None). }
    destruct (IsPromise _ _).
    { run_bind Hrun as v8_promise s1 Hcast. run_bind Hrun as handle s2 Hnew.
      run_bind Hrun as on_fulfilled s3 Hf. run_bind Hrun as on_rejected s4 Hr.
      run_bind Hrun as u s5 Hthen. run_steps.
      pose proof (evolves_Promise_Then _ _ _ _ _ _ Hthen) as He4.
      pose proof Hr as He3. apply evolves_NewObject in He3; [|no_proxy].
      pose proof Hf as He2. apply evolves_NewObject in He2; [|no_proxy].
      apply created_in_top.
      eapply created_in_trans; [exact He4| |by eapply created_in_Promise_Then].
      eapply created_in_trans;
        [exact He3| |eapply created_in_NewObject; [|exact Hr]; done].
      eapply created_in_trans;
        [exact He2| |eapply created_in_NewObject; [|exact Hf]; done].
      eapply created_in_NewObject; [|exact Hnew]; done. }
    destruct (IsNativeError _ _).
    { run_bind Hrun as e s1 Hnew. run_steps.
      eapply created_in_NewObject; [|exact Hnew]; done. }
    destruct (IsArray _ _).
    { run_bind Hrun as arr s1 Hcast. run_bind Hrun as elements s2 Hes.
      run_bind Hrun as cloned_arr s3 Hnew. run_bind Hrun as u s4 Hloop. run_steps.
      apply Array_elements_state in Hes as ->. apply created_in_top.
      assert (Hfresh : heap st !! cloned_arr = None).
      { unfold Array_New in Hnew. apply NewObject_Some in Hnew. simplify_eq.
        apply fresh_not_in_heap. }
      pose proof Hnew as Hev. apply evolves_NewObject in Hev; [|no_proxy].
      eapply (created_in_NewObject current destination None) in Hnew; [|done].
      destruct u. cut (evolves st s4 ∧ created_in current destination None st s4).
      { by intros [_ ?]. }
      revert Hloop.
      apply (for_each_inv (λ s, evolves st s ∧ created_in current destination None st s));
        [done|].
      intros i s s'' _ [Hs Hc] Hbody. run_bind Hbody as maybe_element s5 Hget.
      run_bind Hbody as element s6 Hck. run_bind Hbody as passed s7 Hpass. run_steps.
      apply Array_Get_state in Hget as ->.
      pose proof (proj1 (frame fuel) _ _ _ _ _ _ _ _ Hpass) as Hev'.
      split.
      - apply evolves_alter_new; [by eapply evolves_trans|done|apply set_element_kind].
      - apply created_in_alter; [|apply set_element_CreationContext].
        eapply created_in_trans; [exact Hev'|exact Hc|].
        intros l o Hl Hl'. left.
        destruct (IHpass _ _ _ _ _ _ _ _ Hpass l o Hl Hl') as [|[_ ?]]; done. }
    destruct (IsObject _ && _).
    { run_bind Hrun as api s1 Hcast. run_bind Hrun as proxy s2 Hproxy. run_steps.
      by apply (IHproxy _ _ _ _ _ _ _ _ Hproxy). }
    destruct (IsNull _); [run_steps; by apply created_in_same|].
    destruct (IsUndefined _); [run_steps; by apply created_in_same|].
    destruct (ConvertFromV8_Value _); run_steps; by apply created_in_same.
  - rewrite CreateProxyForAPI_S in Hrun. run_bind Hrun as top s1 Hnew.
    run_bind Hrun as maybe_keys s2 Hkeys.
    apply GetOwnPropertyNames_state in Hkeys as ->.
    unfold Object_New in Hnew.
    pose proof Hnew as Hev. apply evolves_NewObject in Hev; [|no_proxy].
    pose proof Hnew as Hheap. apply NewObject_Some in Hheap. injection Hheap as -> ->.
    set (top := fresh (dom (heap st))) in *.
    set (empty := {| kind := JSPlainObject; CreationContext := Some current;
                     properties := []; frozen := false |}) in *.
    assert (Hinit : created_in current target_context (Some top) st
                      (set_heap (insert top empty) st)).
    { intros l o Hl Hl'. simpl in Hl'. destruct (decide (top = l)) as [<-|Hne].
      - rewrite lookup_insert_eq in Hl'. injection Hl' as <-. by right.
      - rewrite lookup_insert_ne in Hl' by done. congruence. }
    assert (Hproxy0 : ∃ o, heap (set_heap (insert top empty) st) !! top = Some o ∧
                           CreationContext o = Some current).
    { exists empty. simpl. by rewrite lookup_insert_eq. }
    destruct maybe_keys as [keys|];
      [|run_steps; split; [done|]; split; [apply fresh_not_in_heap | done]].
    run_bind Hrun as u s3 Hloop. destruct u. run_steps.
    cut (evolves st s3 ∧
         created_in current target_context (Some top) st s3 ∧
         ∃ o, heap s3 !! top = Some o ∧ CreationContext o = Some current).
    { intros (_ & Hc & Ho). split; [done|]. split; [apply fresh_not_in_heap | done]. }
    revert Hloop.
    apply (for_each_inv (λ s, evolves st s ∧
                              created_in current target_context (Some top) st s ∧
                              ∃ o, heap s !! top = Some o ∧
                                   CreationContext o = Some current));
      [done|].
    intros key s s' _ (Hs & Hc & o0 & Ho0 & Hctx0) Hbody.
    assert (Hstep : ∀ s1 v,
              evolves s s1 → created_in target_context target_context None s s1 →
              s' = set_heap (alter (define_property
                     (default "" (key_to_string key)) v kNone) top) s1 →
              evolves st s' ∧
              created_in current target_context (Some top) st s' ∧
              ∃ o, heap s' !! top = Some o ∧ CreationContext o = Some current).
    { intros s1 v Hev1 Hc1 ->. split; [|split].
      - apply evolves_alter_new; [by eapply evolves_trans| |apply define_property_kind].
        apply fresh_not_in_heap.
      - apply created_in_alter; [|apply define_property_CreationContext].
        eapply created_in_trans; [exact Hev1|exact Hc|].
        intros l o Hl Hl'. left. by destruct (Hc1 l o Hl Hl') as [|[? _]].
      - destruct Hev1 as (Hh & _). destruct (Hh _ _ Ho0) as (o1 & Ho1 & E).
        exists (define_property (default "" (key_to_string key)) v kNone o1). split.
        + simpl. by rewrite lookup_alter_eq, Ho1.
        + rewrite define_property_CreationContext, (strip_CreationContext _ _ E).
          exact Hctx0. }
    unfold proxy_key in Hbody.
    destruct (key_to_string key) as [key_str|]; [|run_steps; eauto 10].
    run_bind Hbody as maybe_value s4 Hget. apply Dictionary_Get_state in Hget as ->.
    destruct maybe_value as [value|]; [|run_steps; eauto 10].
    run_bind Hbody as h s5 Hh. run_steps.
    destruct (IsFunction _ _).
    { run_bind Hbody as func t1 Hcast. run_bind Hbody as func_id t2 Htake.
      run_bind Hbody as u t3 Hins. run_bind Hbody as method t4 Hmethod. run_steps.
      apply (Hstep t4 (v8Object method)); [| |done].
      - by destruct (evolves_proxied_function _ _ _ _ _ _ _ _ _ _ Htake Hins Hmethod).
      - by eapply created_in_proxied_function. }
    destruct (_ && _).
    { run_bind Hbody as sub_api t1 Hcast. run_bind Hbody as sub_proxy t2 Hsub. run_steps.
      apply (Hstep t2 (v8Object sub_proxy)); [| |done].
      - exact (proj2 (frame fuel) _ _ _ _ _ _ _ _ Hsub).
      - eapply created_in_current. by apply (IHproxy _ _ _ _ _ _ _ _ Hsub). }
    run_bind Hbody as passed t1 Hpass. run_steps.
    apply (Hstep t1 passed); [| |done].
    + exact (proj1 (frame fuel) _ _ _ _ _ _ _ _ Hpass).
    + eapply created_in_current. by apply (IHpass _ _ _ _ _ _ _ _ Hpass).
Qed.


(** A value that is an object and none of the kinds marshalled in a way
    of their own is handed to the proxy builder. *)
Lemma PassValueToOtherContext_object fuel current source destination a store st oa :
  heap st !! a = Some oa →
  kind oa = JSPlainObject ∨ kind oa = JSExotic →
  PassValueToOtherContext (S fuel) current source destination (v8Object a) store st
    = (do proxy <- CreateProxyForAPI fuel current a source destination store;
       ret (v8Object proxy)) st.
Proof.
  intros Ha Hk. rewrite PassValueToOtherContext_S.
  change (bind (gets heap) ?k st) with (k (heap st) st). cbv beta.
  unfold IsFunction, IsPromise, IsNativeError, IsArray, kind_of. rewrite Ha. simpl.
  by destruct Hk as [-> | ->].
Qed.

End Contexts.

(** X4: every object a marshalling pass creates belongs to the
    destination context, with one exception: the proxy object that stands
    for an object value is created in the context that is current at the
    call, whatever the destination is.  In a proxy build the proxy object
    belongs to the current context and every other new object to the
    target context. *)
Theorem new_objects_belong_to_destination `{Engine} fuel :
  (∀ current source destination value store st r st' l o,
     PassValueToOtherContext fuel current source destination value store st = Some (r, st') →
     heap st !! l = None → heap st' !! l = Some o →
     CreationContext o = Some destination ∨
     (r = v8Object l ∧ CreationContext o = Some current)) ∧
  (∀ current source destination a store st r st' oa,
     PassValueToOtherContext fuel current source destination (v8Object a) store st
       = Some (r, st') →
     heap st !! a = Some oa → kind oa = JSPlainObject ∨ kind oa = JSExotic →
     ∃ proxy o, r = v8Object proxy ∧ heap st !! proxy = None ∧
                heap st' !! proxy = Some o ∧ CreationContext o = Some current) ∧
  (∀ current api source_context target_context store st proxy st',
     CreateProxyForAPI fuel current api source_context target_context store st
       = Some (proxy, st') →
     (∃ o, heap st' !! proxy = Some o ∧ CreationContext o = Some current) ∧
     ∀ l o, heap st !! l = None → heap st' !! l = Some o → l ≠ proxy →
            CreationContext o = Some target_context).
Proof.
  split; [|split].
  - intros current source destination value store st r st' l o Hrun Hl Hl'.
    destruct (proj1 (contexts fuel) _ _ _ _ _ _ _ _ Hrun l o Hl Hl') as [|[Hr Hc]];
      [by left|]. right. split; [|done]. by destruct r; simplify_eq/=.
  - intros current source destination a store st r st' oa Hrun Ha Hk.
    destruct fuel as [|fuel]; [discriminate|].
    rewrite (PassValueToOtherContext_object _ _ _ _ _ _ _ _ Ha Hk) in Hrun.
    run_bind Hrun as proxy s Hproxy. run_steps.
    destruct (proj2 (contexts fuel) _ _ _ _ _ _ _ _ Hproxy) as (_ & Hnew & o & Ho & Hc).
    by exists proxy, o.
  - intros current api source_context target_context store st proxy st' Hrun.
    destruct (proj2 (contexts fuel) _ _ _ _ _ _ _ _ Hrun) as (Hc & _ & Ho).
    split; [done|]. intros l o Hl Hl' Hne.
    destruct (Hc l o Hl Hl') as [|[? _]]; [done | congruence].
Qed.

Lemma new_objects_belong_to_destination_witness :
  ∃ proxy o st',
    PassValueToOtherContext (H := Example.engine) 3 Example.isolated_world
      Example.isolated_world Example.main_world (v8Object 5%N) (Some 7%N) Example.page
      = Some (v8Object proxy, st') ∧
    heap st' !! proxy = Some o ∧ CreationContext o = Some Example.isolated_world.
Proof.
  assert (Hrun : ∃ r st',
            PassValueToOtherContext (H := Example.engine) 3 Example.isolated_world
              Example.isolated_world Example.main_world (v8Object 5%N) (Some 7%N)
              Example.page = Some (r, st')).
  { eexists _, _. vm_compute. reflexivity. }
  destruct Hrun as (r & st' & Hrun).
  destruct (proj1 (proj2 (new_objects_belong_to_destination (H := Example.engine) 3))
              _ _ _ _ _ _ _ _
              (Example.object_in Example.isolated_world JSPlainObject
                 [Example.data "g" (v8Object 2%N)]) Hrun)
    as (proxy & o & -> & _ & Ho & Hc).
  - reflexivity.
  - by left.
  - by exists proxy, o, st'.
Defined.

(** * What a deep freeze changes *)

Lemma freeze_child_reads fuel root context name s s' :
  freeze_child fuel root context name s = Some (tt, s') →
  s' = s ∨ ∃ c, child_of (heap s) root c ∧ DeepFreeze fuel c context s = Some (tt, s').
Proof.
  intros Hb. unfold freeze_child in Hb.
  run_bind Hb as maybe_child t1 Hget. apply Object_Get_Some in Hget as (-> & o & Ho & ->).
  run_checked Hb as c Hck.
  destruct c as [| | | | | |c]; run_steps; try by left.
  right. exists c. split; [|done].
  destruct (read_own_property o name) as [p|] eqn:Hread; [|done].
  destruct (read_own_property_Some _ _ _ Hread) as [<- _]. by exists o, p.
Qed.

Lemma DeepFreeze_local fuel : ∀ root context st st',
  DeepFreeze fuel root context st = Some (tt, st') →
  microtasks st' = microtasks st ∧
  ∀ l, ¬ reachable (heap st) root l → heap st' !! l = heap st !! l.
Proof.
  induction fuel as [|fuel IH]; intros root context st st' Hrun; [discriminate|].
  rewrite DeepFreeze_S in Hrun.
  run_bind Hrun as maybe_names s1 Hnames. apply GetOwnPropertyNames_state in Hnames as ->.
  run_checked Hrun as names Hck. run_bind Hrun as u s3 Hloop. destruct u. run_steps.
  cut (only_frozen st s3 ∧ microtasks s3 = microtasks st ∧
       ∀ l, ¬ reachable (heap st) root l → heap s3 !! l = heap st !! l).
  { intros (_ & Em & Hl). split; [done|]. intros l Hun. simpl.
    rewrite lookup_alter_ne; [by apply Hl|]. intros <-. apply Hun. apply rtc_refl. }
  revert Hloop.
  apply (for_each_inv (λ s, only_frozen st s ∧ microtasks s = microtasks st ∧
           ∀ l, ¬ reachable (heap st) root l → heap s !! l = heap st !! l));
    [split; [apply only_frozen_refl | done]|].
  intros name s s' _ (Hof & Em & Hl) Hb.
  apply freeze_child_reads in Hb as [->|(c & Hchild & Hb)]; [done|].
  destruct (IH _ _ _ _ Hb) as [Em' Hl'].
  destruct (DeepFreeze_freezes _ _ _ _ _ Hb) as [Hof' _].
  split; [by eapply only_frozen_trans|]. split; [congruence|].
  intros l Hun. rewrite Hl'; [by apply Hl|].
  intros Hreach. apply Hun. apply (only_frozen_reachable st s root l Hof).
  eapply rtc_l; [exact Hchild | exact Hreach].
Qed.

(** X5: a deep freeze that returns has frozen exactly the objects that
    can be reached from its root by reading own properties, and changed
    nothing else: those objects keep their kind, context and properties,
    every other object is as it was, no object is created, and the
    stores, monitors, microtasks and the pending exception are
    untouched. *)
Theorem DeepFreeze_effect fuel root context st st' :
  DeepFreeze fuel root context st = Some (tt, st') →
  (∀ l, reachable (heap st) root l →
        ∃ o, heap st !! l = Some o ∧ heap st' !! l = Some (frozen_copy o)) ∧
  (∀ l, ¬ reachable (heap st) root l → heap st' !! l = heap st !! l) ∧
  store_map_ st' = store_map_ st ∧ monitors st' = monitors st ∧
  microtasks st' = microtasks st ∧ pending_exception st' = pending_exception st.
Proof.
  intros Hrun. destruct (DeepFreeze_local _ _ _ _ _ Hrun) as [Em Hlocal].
  destruct (DeepFreeze_stores _ _ _ _ _ _ Hrun) as (Es & Hno & Ee & Emon).
  destruct (DeepFreeze_freezes _ _ _ _ _ Hrun) as [[Hh _] Hfrozen].
  split; [|by repeat split].
  intros l Hreach. destruct (Hfrozen l Hreach) as (o' & Hl' & Hf).
  destruct (heap st !! l) as [o|] eqn:Hl; [|apply Hno in Hl; congruence].
  exists o. split; [done|]. destruct (Hh _ _ Hl) as (o2 & Hl2 & Ek & Ep & Ec & _).
  assert (o2 = o') as -> by congruence. rewrite Hl'. f_equal.
  destruct o', o. unfold frozen_copy. simpl in *. congruence.
Qed.

Lemma DeepFreeze_effect_witness :
  ∃ st',
    DeepFreeze 3 4%N Example.isolated_world Example.page = Some (tt, st') ∧
    store_map_ st' = store_map_ Example.page.
Proof.
  assert (Hrun : ∃ st', DeepFreeze 3 4%N Example.isolated_world Example.page
                        = Some (tt, st')).
  { eexists. vm_compute. reflexivity. }
  destruct Hrun as (st' & Hrun). exists st'. split; [exact Hrun|].
  by destruct (DeepFreeze_effect _ _ _ _ _ Hrun) as (_ & _ & Es & _).
Defined.

(** * When a deep freeze returns *)

Lemma freeze_child_only_frozen fuel root context name s s' :
  freeze_child fuel root context name s = Some (tt, s') → only_frozen s s'.
Proof.
  intros Hb. apply freeze_child_reads in Hb as [->|(c & _ & Hb)];
    [apply only_frozen_refl|]. by destruct (DeepFreeze_freezes _ _ _ _ _ Hb).
Qed.

Lemma endless_only_frozen st st' region :
  only_frozen st st' → endless (heap st) region → endless (heap st') region.
Proof.
  intros Hof Hend l Hl. destruct (Hend l Hl) as (l' & Hchild & Hl').
  exists l'. split; [|done]. by apply (only_frozen_child st st' l l' Hof).
Qed.

(** X6: a deep freeze of an object from which a walk along own
    properties can go on for ever, as on a cycle, returns for no amount of
    fuel: the recursion of the source has no end. *)
Theorem DeepFreeze_endless (region : loc → Prop) fuel : ∀ root context st,
  endless (heap st) region → region root → DeepFreeze fuel root context st = None.
Proof.
  induction fuel as [|fuel IH]; intros root context st Hend Hroot; [done|].
  destruct (DeepFreeze (S fuel) root context st) as [[[] st']|] eqn:Hrun; [|done].
  exfalso. rewrite DeepFreeze_S in Hrun.
  run_bind Hrun as maybe_names s1 Hnames. pose proof Hnames as Hs1.
  apply GetOwnPropertyNames_state in Hs1 as ->.
  run_checked Hrun as names Hck. subst maybe_names.
  apply GetOwnPropertyNames_Some in Hnames as (o & Ho & Enames).
  run_bind Hrun as u s3 Hloop. destruct u.
  destruct (Hend root Hroot) as (c & (o' & p & Ho' & Hread & Hv) & Hc).
  assert (o' = o) as -> by congruence.
  destruct (read_own_property_Some _ _ _ Hread) as [_ Hin]. rewrite <- Enames in Hin.
  destruct (for_each_elem only_frozen _ _ _ _ (prop_key p) only_frozen_refl
              only_frozen_trans
              (λ y s s' _, freeze_child_only_frozen fuel root context y s s') Hloop Hin)
    as (s & s' & Hs & Hb & _).
  unfold freeze_child in Hb.
  run_bind Hb as maybe_child t1 Hget. apply Object_Get_Some in Hget as (-> & os & Hos & ->).
  destruct Hs as [Hh Hn]. destruct (Hh _ _ Ho) as (o2 & Ho2 & Ek & Ep & _).
  assert (os = o2) as -> by congruence.
  rewrite (read_own_property_ext _ _ _ Ek Ep), Hread, Hv in Hb.
  run_checked Hb as c' Hck. injection Hck as <-.
  rewrite (IH c context s) in Hb; [done| |done].
  by apply (endless_only_frozen st s region (conj Hh Hn)).
Qed.

Lemma DeepFreeze_endless_witness :
  DeepFreeze 9 8%N Example.main_world knot = None.
Proof.
  apply (DeepFreeze_endless (λ l, l = 8%N)); [|reflexivity].
  intros l ->. exists 8%N. split; [|reflexivity].
  exists (Example.object_in Example.isolated_world JSPlainObject
            [Example.data "self" (v8Object 8%N)]), (Example.data "self" (v8Object 8%N)).
  split; [|split]; reflexivity.
Defined.

Lemma for_each_returns {A} (I : State → Prop) (xs : list A) (body : A → M unit) st :
  I st →
  (∀ x s, x ∈ xs → I s → ∃ s', body x s = Some (tt, s') ∧ I s') →
  ∃ st', for_each xs body st = Some (tt, st') ∧ I st'.
Proof.
  revert st. induction xs as [|x xs IH]; intros st HI Hbody; simpl.
  - by exists st.
  - destruct (Hbody x st) as (s1 & Hx & HI1); [by left|done|].
    destruct (IH s1 HI1) as (st' & Hrun & HI'); [intros; apply Hbody; [by right|done]|].
    exists st'. split; [|done]. unfold bind. by rewrite Hx.
Qed.

Lemma read_own_property_elem o key p :
  read_own_property o key = Some p → p ∈ own_properties o.
Proof.
  unfold read_own_property. destruct (list_find _ _) as [[i q]|] eqn:Hfind; [|done].
  intros [= <-]. apply list_find_Some in Hfind as (Hi & _). by eapply list_elem_of_lookup_2.
Qed.

Lemma freezable_only_frozen st st' rank region l :
  only_frozen st st' → freezable (heap st) rank region l → freezable (heap st') rank region l.
Proof.
  intros [Hh _] (o & Ho & Hk & Hps). destruct (Hh _ _ Ho) as (o' & Ho' & Ek & Ep & _).
  exists o'. split; [done|]. split; [by rewrite Ek|].
  by rewrite (own_properties_ext _ _ Ek Ep).
Qed.

Lemma DeepFreeze_returns_aux (rank : loc → nat) (region : loc → Prop) fuel :
  ∀ root context st,
  (∀ l, region l → freezable (heap st) rank region l) → region root →
  (rank root < fuel)%nat →
  ∃ st', DeepFreeze fuel root context st = Some (tt, st').
Proof.
  induction fuel as [|fuel IH]; intros root context st Hall Hroot Hrank; [lia|].
  rewrite DeepFreeze_S. destruct (Hall root Hroot) as (o & Ho & Hk & Hps).
  assert (Hnames : GetOwnPropertyNames root st
                   = Some (Some (prop_key <$> own_properties o), st)).
  { unfold GetOwnPropertyNames, bind, GetObject. rewrite Ho. by destruct (kind o). }
  unfold bind at 1. rewrite Hnames. unfold bind at 1. simpl.
  destruct (for_each_returns (only_frozen st) (prop_key <$> own_properties o)
              (freeze_child fuel root context) st (only_frozen_refl st))
    as (s3 & Hloop & _).
  { intros name s _ Hs. unfold freeze_child, Object_Get, bind, GetObject.
    destruct Hs as [Hh Hn]. destruct (Hh _ _ Ho) as (os & Hos & Ek & Ep & _).
    rewrite Hos, (read_own_property_ext _ _ _ Ek Ep).
    destruct (read_own_property o name) as [p|] eqn:Hread; simpl;
      [|exists s; split; [done | by split]].
    destruct (Hps p (read_own_property_elem _ _ _ Hread)) as (v & -> & Hv). simpl.
    destruct v as [| | | | | |c]; try (exists s; split; [done | by split]).
    destruct (Hv c eq_refl) as [Hc Hlt].
    destruct (IH c context s) as (s' & Hrun); [|done|lia|].
    { intros l Hl. apply (freezable_only_frozen st s rank region l (conj Hh Hn)). by apply Hall. }
    exists s'. split; [done|].
    eapply only_frozen_trans; [exact (conj Hh Hn)|].
    by destruct (DeepFreeze_freezes _ _ _ _ _ Hrun). }
  unfold bind. rewrite Hloop. eauto.
Qed.

(** X7: a deep freeze returns when the objects it can meet form a ranked
    set: every one of them can be listed, every value of an own property
    can be retrieved, and the rank falls along own properties.  Fuel above
    the rank of the root is enough. *)
Theorem DeepFreeze_returns (rank : loc → nat) (region : loc → Prop) fuel :
  ∀ root context st,
  (∀ l, region l → freezable (heap st) rank region l) → region root →
  (rank root < fuel)%nat →
  ∃ st', DeepFreeze fuel root context st = Some (tt, st').
Proof. apply DeepFreeze_returns_aux. Qed.

Lemma DeepFreeze_returns_witness :
  ∃ st', DeepFreeze 3 4%N Example.main_world Example.page = Some (tt, st').
Proof.
  apply (DeepFreeze_returns page_rank (λ l, l ∈ [1; 2; 3; 4; 5]%N));
    [|set_solver|vm_compute; lia].
  intros l Hl.
  repeat (apply elem_of_cons in Hl as [->|Hl]); [..|by apply elem_of_nil in Hl].
  all: eexists; (split; [vm_compute; reflexivity|]); (split; [done|]); intros p Hp.
  all: unfold own_properties in Hp; simpl in Hp.
  all: repeat (apply elem_of_cons in Hp as [->|Hp]); try (by apply elem_of_nil in Hp).
  all: eexists; (split; [reflexivity|]); intros c [= <-];
    (split; [set_solver|vm_compute; lia]).
Defined.

(** * An API object that contains itself *)

Lemma keeps_refl region st : keeps region st st.
Proof. by intros l o _ Hl _. Qed.

Lemma keeps_trans region st1 st2 st3 :
  keeps region st1 st2 → keeps region st2 st3 → keeps region st1 st3.
Proof. intros H12 H23 l o Hr Hl Hk. apply H23; [done| |done]. by apply H12. Qed.

Lemma keeps_evolves region st st' : evolves st st' → keeps region st st'.
Proof.
  intros (Hh & _) l o _ Hl Hk. destruct (Hh _ _ Hl) as (o' & Hl' & E).
  rewrite Hl'. f_equal. apply strip_not_promise; [done|].
  intros state reactions Ek. by rewrite Ek in Hk.
Qed.

Lemma nests_endlessly_keeps region st st' :
  keeps region st st' → nests_endlessly (heap st) region → nests_endlessly (heap st') region.
Proof.
  intros Hkeep Hend l Hl.
  destruct (Hend l Hl) as (l' & (o & key & name & Ho & Hk & Hin & Hp) & Hl').
  exists l'. split; [|done]. exists o, key, name. split; [by apply Hkeep|done].
Qed.

Section Knots.

Context `{Engine}.

Lemma proxy_key_keeps region fuel api proxy source_context target_context store key st st' :
  ¬ region proxy →
  proxy_key fuel api proxy source_context target_context store key st = Some (tt, st') →
  keeps region st st'.
Proof.
  intros Hproxy Hrun. destruct (heap st !! api) as [o|] eqn:Ho.
  - pose proof (proxy_key_processed _ _ _ _ _ _ _ _ _ _ Ho Hrun) as Hp.
    destruct (processed_key o key) as [[name v0]|]; [|subst; apply keeps_refl].
    destruct Hp as (s1 & v & Hev & ->).
    eapply keeps_trans; [by apply keeps_evolves|].
    intros l o' Hl Ho' _. simpl. rewrite lookup_alter_ne; [done|]. by intros <-.
  - unfold proxy_key in Hrun.
    destruct (key_to_string key); [|run_steps; apply keeps_refl].
    run_bind Hrun as maybe_value s0 Hget.
    apply Dictionary_Get_Some in Hget as (_ & o & Ho' & _). congruence.
Qed.

Lemma CreateProxyForAPI_endless_aux (region : loc → Prop) fuel :
  ∀ current api source_context target_context store st,
    nests_endlessly (heap st) region → region api →
    CreateProxyForAPI fuel current api source_context target_context store st = None.
Proof.
  induction fuel as [|fuel IH];
    intros current api source_context target_context store st Hend Hapi; [done|].
  destruct (CreateProxyForAPI (S fuel) current api source_context target_context store st)
    as [[r st']|] eqn:Hrun; [|done].
  exfalso. rewrite CreateProxyForAPI_S in Hrun.
  run_bind Hrun as proxy s1 Hnew. unfold Object_New in Hnew.
  apply NewObject_Some in Hnew. injection Hnew as -> ->.
  set (proxy := fresh (dom (heap st))) in *.
  set (s1 := set_heap _ st) in *.
  assert (Hproxy : ¬ region proxy).
  { intros Hr. destruct (Hend _ Hr) as (_ & (o & _ & _ & Ho & _) & _).
    pose proof (fresh_not_in_heap st). unfold proxy in Ho. congruence. }
  assert (Hkeep1 : keeps region st s1).
  { intros l o Hl Ho _. unfold s1. simpl. rewrite lookup_insert_ne; [done|]. by intros <-. }
  destruct (Hend api Hapi) as (l' & (o & key & name & Ho & Hk & Hin & Hp) & Hl').
  run_bind Hrun as maybe_keys s2 Hkeys. pose proof Hkeys as Hs2.
  apply GetOwnPropertyNames_state in Hs2 as ->.
  assert (maybe_keys = Some (prop_key <$> own_properties o)) as ->.
  { unfold GetOwnPropertyNames in Hkeys. run_get Hkeys as o1 Ho1.
    assert (o1 = o) as -> by (rewrite (Hkeep1 _ _ Hapi Ho Hk) in Ho1; congruence).
    destruct (kind o); by run_steps. }
  run_bind Hrun as u s3 Hloop. destruct u.
  destruct (for_each_elem (keeps region) _ _ _ _ key (keeps_refl region)
              (keeps_trans region)
              (λ y s s' _, proxy_key_keeps region fuel api proxy source_context
                             target_context store y s s' Hproxy) Hloop Hin)
    as (s & s' & Hs & Hb & _).
  assert (Hkeep : keeps region st s) by (by eapply keeps_trans).
  destruct (Hend l' Hl') as (_ & (o' & _ & _ & Ho' & Hk' & _) & _).
  unfold proxy_key in Hb. unfold processed_key in Hp.
  destruct (key_to_string key) as [key_str|]; [|done].
  run_bind Hb as maybe_value s0 Hget.
  apply Dictionary_Get_Some in Hget as (-> & o1 & Ho1 & ->).
  assert (o1 = o) as -> by (rewrite (Hkeep _ _ Hapi Ho Hk) in Ho1; congruence).
  destruct (find_property key_str (own_properties o) ≫= prop_value) as [value|]; [|done].
  injection Hp as <- ->. run_bind Hb as h s0 Hh. run_steps.
  unfold IsFunction, IsArray, IsPromise, kind_of in Hb.
  rewrite (Hkeep _ _ Hl' Ho' Hk') in Hb. simpl in Hb.
  assert (CreateProxyForAPI fuel target_context l' source_context target_context store s
          = None) as Hnone.
  { apply IH; [|done]. by eapply nests_endlessly_keeps. }
  destruct (kind o'); try done; simpl in Hb; unfold bind in Hb; simpl in Hb;
    by rewrite Hnone in Hb.
Qed.

(** X8: the proxy builder returns for no amount of fuel on an API object
    from which the loop over the keys can go on meeting plain objects or
    errors for ever, as when an object holds itself or an ancestor: the
    recursion of the source has no end. *)
Theorem CreateProxyForAPI_endless (region : loc → Prop) fuel :
  ∀ current api source_context target_context store st,
    nests_endlessly (heap st) region → region api →
    CreateProxyForAPI fuel current api source_context target_context store st = None.
Proof. apply CreateProxyForAPI_endless_aux. Qed.

End Knots.

Lemma CreateProxyForAPI_endless_witness :
  CreateProxyForAPI (H := Example.engine) 9 Example.main_world 8%N Example.isolated_world
    Example.main_world (Some 7%N) knot = None.
Proof.
  apply (CreateProxyForAPI_endless (H := Example.engine) (λ l, l = 8%N)); [|reflexivity].
  intros l ->. exists 8%N. split; [|reflexivity].
  exists (Example.object_in Example.isolated_world JSPlainObject
            [Example.data "self" (v8Object 8%N)]), (v8String "self"), "self".
  split; [reflexivity|]. split; [exact I|]. split; [|reflexivity].
  unfold own_properties. simpl. set_solver.
Defined.

(** * What an exposure leaves behind *)

Lemma strip_frozen o o' : strip o' = strip o → frozen o' = frozen o.
Proof.
  intros E. apply (f_equal frozen) in E. unfold strip in E.
  by destruct (kind o) as [| [] ?| | | |], (kind o') as [| [] ?| | | |].
Qed.

Lemma strip_properties o o' : strip o' = strip o → properties o' = properties o.
Proof.
  intros E. apply (f_equal properties) in E. unfold strip in E.
  by destruct (kind o) as [| [] ?| | | |], (kind o') as [| [] ?| | | |].
Qed.

Lemma find_property_None name ps :
  find_property name ps = None ↔
  ∀ q, q ∈ ps → property_name (prop_key q) ≠ Some name.
Proof.
  rewrite eq_None_not_Some, find_property_is_Some. split.
  - intros Hno q Hq Hn. apply Hno. eauto.
  - intros Hall (q & Hq & Hn). by apply (Hall q).
Qed.

Lemma find_property_cons name q ps :
  find_property name (q :: ps)
  = if decide (property_name (prop_key q) = Some name) then Some q
    else find_property name ps.
Proof.
  unfold find_property. simpl. destruct (decide _); [done|].
  by destruct (list_find _ ps) as [[i p]|].
Qed.

Lemma find_property_last name ps p :
  find_property name ps = None → property_name (prop_key p) = Some name →
  find_property name (ps ++ [p]) = Some p.
Proof.
  intros Hno Hp. induction ps as [|q ps IH]; simpl.
  - rewrite find_property_cons. by destruct (decide _).
  - rewrite find_property_cons in Hno |- *. destruct (decide _); [done|]. by apply IH.
Qed.

Lemma filter_keeps_all {A} (P : A → Prop) `{∀ x, Decision (P x)} (xs : list A) :
  Forall P xs → filter P xs = xs.
Proof.
  induction 1 as [|x xs Hx _ IH]; [done|]. rewrite filter_cons.
  destruct (decide (P x)); [by rewrite IH | done].
Qed.

Section Exposure.

Context `{Engine}.

(** The steps of an exposure under a name that is free. *)
Lemma ExposeAPIInMainWorld_free fuel key api args st st' o context frame g :
  heap st !! api = Some o →
  CreationContext o = Some context →
  FrameForContext context = Some frame →
  heap st !! Global (MainWorldScriptContext frame) = Some g →
  find_property key (own_properties g) = None →
  ExposeAPIInMainWorld fuel key api args st = Some (tt, st') →
  ∃ proxy st1 st2 st3,
    heap st1 = heap st ∧ pending_exception st1 = pending_exception st ∧
    CreateProxyForAPI fuel (MainWorldScriptContext frame) api (WorldScriptContext frame)
      (MainWorldScriptContext frame) (Some frame) st1 = Some (proxy, st2) ∧
    DeepFreeze fuel proxy (MainWorldScriptContext frame) st2 = Some (tt, st3) ∧
    st' = set_heap (alter (define_property key (v8Object proxy) kReadOnlyDontDelete)
                      (Global (MainWorldScriptContext frame))) st3.
Proof.
  intros Hapi Hctx Hframe Hglobal Hkey Hrun. unfold ExposeAPIInMainWorld in Hrun.
  run_bind Hrun as render_frame s0 Hrf.
  assert (render_frame = Some frame ∧ s0 = st) as [-> ->].
  { unfold GetRenderFrame in Hrf. run_get Hrf as o' Ho'. simplify_eq. rewrite Hctx in Hrf.
    run_steps. by rewrite Hframe. }
  run_bind Hrun as store st1 Hstore.
  destruct (GetOrCreateStore_Some _ _ _ _ Hstore) as (-> & Eh & _ & Ee & _).
  run_checked Hrun as frame' Hck. injection Hck as <-. simpl in Hrun.
  run_bind Hrun as taken s1 Hhas.
  apply Dictionary_Has_Some in Hhas as (-> & g1 & Hg1 & ->).
  rewrite Eh, Hglobal in Hg1. injection Hg1 as <-.
  rewrite Hkey in Hrun. rewrite bool_decide_eq_false_2 in Hrun by (by intros [? ?]).
  run_bind Hrun as proxy st2 Hproxy. run_bind Hrun as u st3 Hfreeze. destruct u.
  run_steps. by exists proxy, st1, st2, st3.
Qed.

Hypothesis plain_data : converts_to_plain_data.

(** The proxy build and the deep freeze of an exposure leave every object
    that existed where it was and as it was, but for reactions. *)
Lemma exposure_spares fuel current api source_context target_context store context
    st1 proxy st2 st3 l o :
  CreateProxyForAPI fuel current api source_context target_context store st1
    = Some (proxy, st2) →
  DeepFreeze fuel proxy context st2 = Some (tt, st3) →
  heap st1 !! l = Some o →
  ∃ o3, heap st3 !! l = Some o3 ∧ strip o3 = strip o.
Proof.
  intros Hproxy Hfreeze Hl.
  destruct (proj2 (frame fuel) _ _ _ _ _ _ _ _ Hproxy) as (Hh & _).
  destruct (Hh _ _ Hl) as (o2 & Hl2 & E). exists o2. split; [|done].
  destruct (DeepFreeze_local _ _ _ _ _ Hfreeze) as [_ Hlocal].
  rewrite Hlocal; [done|]. intros Hreach.
  destruct (proj2 (isolation plain_data fuel) _ _ _ _ _ _ _ _ Hproxy) as (Hnew & _ & Hpo).
  pose proof (reachable_new _ _ _ _ Hpo Hnew Hreach). congruence.
Qed.

Lemma exposure_keeps_exception fuel current api source_context target_context store context
    st1 proxy st2 st3 :
  CreateProxyForAPI fuel current api source_context target_context store st1
    = Some (proxy, st2) →
  DeepFreeze fuel proxy context st2 = Some (tt, st3) →
  pending_exception st3 = pending_exception st1.
Proof.
  intros Hproxy Hfreeze.
  destruct (proj2 (frame fuel) _ _ _ _ _ _ _ _ Hproxy) as (_ & _ & Ee2 & _).
  destruct (DeepFreeze_stores _ _ _ _ _ _ Hfreeze) as (_ & _ & Ee3 & _). congruence.
Qed.

End Exposure.

(** X9: when the value converter yields no objects, an exposure under a
    free name on a global object that is not frozen binds the name on it:
    the global object gains one property, the name with the new proxy as
    its value, read-only and not deletable; a read of the name yields the
    proxy, a later collision check finds the name taken, and assigning to
    the name or deleting it leaves the global object as it is.  No
    exception is pending that was not before. *)
Theorem exposure_binds_name `{Engine} fuel key api args st st' o context frame g :
  converts_to_plain_data →
  heap st !! api = Some o →
  CreationContext o = Some context →
  FrameForContext context = Some frame →
  heap st !! Global (MainWorldScriptContext frame) = Some g →
  find_property key (own_properties g) = None →
  frozen g = false →
  ExposeAPIInMainWorld fuel key api args st = Some (tt, st') →
  ∃ proxy g',
    heap st !! proxy = None ∧
    heap st' !! Global (MainWorldScriptContext frame) = Some g' ∧
    own_properties g'
      = own_properties g ++ [{| prop_key := v8String key;
                                prop_value := Some (v8Object proxy);
                                prop_attr := kReadOnlyDontDelete |}] ∧
    Dictionary_Get (Global (MainWorldScriptContext frame)) key st'
      = Some (Some (v8Object proxy), st') ∧
    Dictionary_Has (Global (MainWorldScriptContext frame)) key st' = Some (true, st') ∧
    (∀ v, define_property key v kNone g' = g') ∧
    delete_property key g' = g' ∧
    frozen g' = false ∧
    pending_exception st' = pending_exception st.
Proof.
  intros Hplain Hapi Hctx Hframe Hglobal Hkey Hfz Hrun.
  destruct (ExposeAPIInMainWorld_free _ _ _ _ _ _ _ _ _ _ Hapi Hctx Hframe Hglobal Hkey Hrun)
    as (proxy & st1 & st2 & st3 & Eh & Ee & Hproxy & Hfreeze & ->).
  set (global := Global (MainWorldScriptContext frame)) in *.
  rewrite <- Eh in Hglobal.
  destruct (exposure_spares Hplain _ _ _ _ _ _ _ _ _ _ _ _ _ Hproxy Hfreeze Hglobal)
    as (g3 & Hg3 & E).
  pose proof (strip_own_properties _ _ E) as Eown.
  pose proof (strip_frozen _ _ E) as Efz. pose proof (strip_properties _ _ E) as Eps.
  set (p' := {| prop_key := v8String key; prop_value := Some (v8Object proxy);
                prop_attr := kReadOnlyDontDelete |}).
  assert (Hfree : find_property key (properties g3) = None).
  { apply find_property_None. intros q Hq.
    apply (proj1 (find_property_None key (own_properties g)) Hkey).
    rewrite <- Eown. unfold own_properties. apply elem_of_app. by right. }
  set (g' := {| kind := kind g3; CreationContext := CreationContext g3;
                properties := properties g3 ++ [p']; frozen := frozen g3 |}).
  assert (Hdef : define_property key (v8Object proxy) kReadOnlyDontDelete g3 = g').
  { unfold define_property, g'. by rewrite Efz, Hfz, Hfree. }
  assert (Hown : own_properties g' = own_properties g ++ [p']).
  { rewrite <- Eown. unfold own_properties, g'. simpl. by rewrite app_assoc. }
  assert (Hfind : find_property key (own_properties g') = Some p').
  { rewrite Hown. by apply find_property_last. }
  assert (Hfind' : find_property key (properties g') = Some p').
  { unfold g'. simpl. by apply find_property_last. }
  assert (Hg' : heap (set_heap (alter (define_property key (v8Object proxy)
                        kReadOnlyDontDelete) global) st3) !! global = Some g').
  { simpl. by rewrite lookup_alter_eq, Hg3, <- Hdef. }
  exists proxy, g'. split; [rewrite <- Eh; by eapply CreateProxyForAPI_fresh|].
  split; [done|]. split; [done|].
  split; [unfold Dictionary_Get, bind, GetObject; by rewrite Hg', Hfind|].
  split.
  { unfold Dictionary_Has, bind, GetObject. rewrite Hg', Hfind. unfold ret.
    by rewrite bool_decide_eq_true_2. }
  assert (Hfz' : frozen g' = false) by (unfold g'; simpl; congruence).
  split; [intros v; unfold define_property; by rewrite Hfz', Hfind'|].
  split.
  { unfold delete_property. rewrite Hfz'. destruct g3 as [k c ps fz]. unfold g'. simpl in *.
    f_equal; [rewrite filter_app; f_equal|by symmetry].
    - apply filter_keeps_all. apply Forall_forall. intros q Hq. left.
      by apply (proj1 (find_property_None key ps) Hfree).
    - rewrite filter_cons. destruct (decide _) as [|Hno]; [done|].
      destruct Hno. by right. }
  split; [done|].
  simpl. rewrite <- Ee. by eapply exposure_keeps_exception.
Qed.

Lemma exposure_binds_name_witness :
  ∃ proxy,
    heap Example.fresh_page !! proxy = None ∧
    Dictionary_Get 0%N "api" Example.exposed_page
      = Some (Some (v8Object proxy), Example.exposed_page).
Proof.
  assert (Hplain : converts_to_plain_data (H := Example.engine)).
  { intros i b. by destruct b. }
  edestruct (exposure_binds_name (H := Example.engine) 5 "api" 4%N
               (Example.preload_call []) Example.fresh_page Example.exposed_page)
    as (proxy & g' & Hnew & _ & _ & Hget & _);
    [exact Hplain | reflexivity | reflexivity | reflexivity | reflexivity | reflexivity
    | reflexivity | vm_compute; reflexivity |].
  exists proxy. split; [exact Hnew | exact Hget].
Defined.

(** X10: when the value converter yields no objects, an exposure under
    a free name changes nothing of what the preload script holds: every
    object that existed before the call, other than the global object of
    the main world, is where it was and as it was, but for reactions added
    to a promise; in particular the API object and the objects it holds
    are not frozen by the call. *)
Theorem exposure_spares_source `{Engine} fuel key api args st st' o context frame g l ol :
  converts_to_plain_data →
  heap st !! api = Some o →
  CreationContext o = Some context →
  FrameForContext context = Some frame →
  heap st !! Global (MainWorldScriptContext frame) = Some g →
  find_property key (own_properties g) = None →
  ExposeAPIInMainWorld fuel key api args st = Some (tt, st') →
  heap st !! l = Some ol →
  l ≠ Global (MainWorldScriptContext frame) →
  ∃ ol', heap st' !! l = Some ol' ∧ same_but_reactions ol ol' ∧ frozen ol' = frozen ol.
Proof.
  intros Hplain Hapi Hctx Hframe Hglobal Hkey Hrun Hl Hne.
  destruct (ExposeAPIInMainWorld_free _ _ _ _ _ _ _ _ _ _ Hapi Hctx Hframe Hglobal Hkey Hrun)
    as (proxy & st1 & st2 & st3 & Eh & Ee & Hproxy & Hfreeze & ->).
  rewrite <- Eh in Hl.
  destruct (exposure_spares Hplain _ _ _ _ _ _ _ _ _ _ _ _ _ Hproxy Hfreeze Hl)
    as (o3 & Hl3 & E).
  exists o3. split; [simpl; by rewrite lookup_alter_ne|].
  split; [by apply strip_same_but_reactions | by apply strip_frozen].
Qed.

Lemma exposure_spares_source_witness :
  ∃ ol', heap Example.exposed_page !! 4%N = Some ol' ∧ frozen ol' = false.
Proof.
  assert (Hplain : converts_to_plain_data (H := Example.engine)).
  { intros i b. by destruct b. }
  edestruct (λ o context frame g,
               exposure_spares_source (H := Example.engine) 5 "api" 4%N
                 (Example.preload_call []) Example.fresh_page Example.exposed_page
                 o context frame g 4%N)
    as (ol' & Hl & _ & Hfz);
    [exact Hplain | reflexivity | reflexivity | reflexivity | reflexivity | reflexivity
    | vm_compute; reflexivity | reflexivity | done |].
  exists ol'. split; [exact Hl | exact Hfz].
Defined.

(** * The life of a proxy function *)

(** X11: on the marshaller's path a function makes a full round trip,
    in a store whose live entries lie below its counter and when no
    monitor is bound to the location the proxy function will take.
    Marshalling [f] registers it with its context under the next id of
    the store and returns a new proxy function bound to that id; a call
    through the proxy finds [f] and the source context under the id; and
    when the proxy function is collected the state is the one before the
    marshalling, but for the counter of the store: the entry is gone, and a
    later call under the id aborts instead of reaching another function. *)
Theorem proxy_function_round_trip `{Engine} fuel current source destination f store st s :
  IsFunction (heap st) (v8Object f) = true →
  store_map_ st !! store = Some s →
  store_wf s →
  Forall (λ m, target m ≠ fresh (dom (heap st))) (monitors st) →
  ∃ p st1,
    PassValueToOtherContext (S fuel) current source destination (v8Object f) store st
      = Some (v8Object p, st1) ∧
    heap st !! p = None ∧
    has_callback (heap st1) p (BoundProxyFunctionWrapper store (next_id_ s)) ∧
    functions_at store (next_id_ s) st1 = Some ((f, source), st1) ∧
    OnObjectGC p st1 = Some (tt, after_collection store s st) ∧
    ∀ fuel' args,
      ProxyFunctionWrapper fuel' store (next_id_ s) args (after_collection store s st) = None.
Proof.
  intros Hf Hs Hwf Hms. set (p := fresh (dom (heap st))) in *.
  assert (Hnone : functions_ s !! next_id_ s = None).
  { destruct (functions_ s !! next_id_ s) eqn:E; [|done].
    assert (next_id_ s < next_id_ s)%N by (apply Hwf; eauto). lia. }
  assert (Hp : heap st !! p = None) by apply fresh_not_in_heap.
  destruct (filter_target_none p _ Hms) as [Hf1 Hf2].
  exists p, (after_proxying store s f p source destination st).
  split; [by apply PassValueToOtherContext_function|]. split; [done|].
  split; [eexists; split; [apply lookup_insert_eq | done]|].
  split.
  { unfold functions_at, bind, gets, checked. simpl. rewrite lookup_insert_eq. simpl.
    by rewrite lookup_insert_eq. }
  split.
  { unfold OnObjectGC, bind, gets, modify. simpl.
    rewrite filter_app, Hf1, filter_cons. simpl.
    destruct (decide (p = p)); [|congruence].
    simpl. unfold RunDestructor, functions_erase, with_store, bind, ret. simpl.
    rewrite lookup_insert_eq. simpl. unfold after_collection, set_store_map_. simpl.
    do 2 f_equal. destruct st as [h sm ms mt pe]. simpl in *. f_equal.
    - by apply delete_insert_id.
    - rewrite insert_insert_eq. by rewrite delete_insert_id.
    - rewrite filter_app, Hf2, filter_cons. simpl.
      destruct (decide (p ≠ p)); [congruence|]. by rewrite filter_nil, app_nil_r. }
  intros fuel' args. unfold ProxyFunctionWrapper, functions_at, bind, gets, checked.
  simpl. rewrite lookup_insert_eq. simpl. by rewrite Hnone.
Qed.

Lemma proxy_function_round_trip_witness :
  ∃ p st1,
    PassValueToOtherContext (H := Example.engine) 1 Example.isolated_world
      Example.isolated_world Example.main_world (v8Object 1%N) (Some 7%N) Example.page
      = Some (v8Object p, st1) ∧
    OnObjectGC p st1
      = Some (tt, after_collection (Some 7%N) {| next_id_ := 1%N; functions_ := ∅ |}
                    Example.page).
Proof.
  edestruct (proxy_function_round_trip (H := Example.engine) 0 Example.isolated_world
               Example.isolated_world Example.main_world 1%N (Some 7%N) Example.page
               {| next_id_ := 1%N; functions_ := ∅ |})
    as (p & st1 & Hrun & _ & _ & _ & Hgc & _).
  - reflexivity.
  - reflexivity.
  - intros id Hid. simpl in Hid. rewrite lookup_empty in Hid. by destruct Hid.
  - apply Forall_nil_2.
  - exists p, st1. split; [exact Hrun | exact Hgc].
Defined.

(** * A call through a proxy function *)




(** * A function that comes back *)

(** X13: a proxy function is not unwrapped on the way back.  In a store
    whose live entries lie below its counter, marshalling a function to
    the other context and its proxy function back again does not give the
    function: it gives a second new proxy function, bound to the next id,
    under which the store holds the first proxy function with the
    destination context; both entries are live, so the count of the store
    has grown by two. *)
Theorem function_is_not_unwrapped `{Engine} fuel fuel' current current' source destination
    f store st s :
  IsFunction (heap st) (v8Object f) = true →
  store_map_ st !! store = Some s →
  store_wf s →
  ∃ p q st1 st2,
    PassValueToOtherContext (S fuel) current source destination (v8Object f) store st
      = Some (v8Object p, st1) ∧
    PassValueToOtherContext (S fuel') current' destination source (v8Object p) store st1
      = Some (v8Object q, st2) ∧
    q ≠ f ∧ q ≠ p ∧
    has_callback (heap st2) q (BoundProxyFunctionWrapper store (next_id_ s + 1)%N) ∧
    functions_at store (next_id_ s + 1)%N st2 = Some ((p, destination), st2) ∧
    functions_at store (next_id_ s) st2 = Some ((f, source), st2) ∧
    functionCount store st2 = (functionCount store st + 2)%nat.
Proof.
  intros Hf Hs Hwf. set (p := fresh (dom (heap st))).
  set (st1 := after_proxying store s f p source destination st).
  set (s1 := {| next_id_ := (next_id_ s + 1)%N;
                functions_ := <[next_id_ s := (f, source)]> (functions_ s) |}).
  assert (Hp : IsFunction (heap st1) (v8Object p) = true).
  { unfold IsFunction, kind_of, st1. simpl. by rewrite lookup_insert_eq. }
  assert (Hs1 : store_map_ st1 !! store = Some s1).
  { unfold st1. simpl. by rewrite lookup_insert_eq. }
  set (q := fresh (dom (heap st1))).
  exists p, q, st1, (after_proxying store s1 p q destination source st1).
  split; [by apply PassValueToOtherContext_function|].
  split; [by apply PassValueToOtherContext_function|].
  assert (Hnone : ∀ id, (next_id_ s ≤ id)%N → functions_ s !! id = None).
  { intros id Hid. destruct (functions_ s !! id) eqn:E; [|done].
    assert (id < next_id_ s)%N by (apply Hwf; eauto). lia. }
  split.
  { apply fresh_ne. unfold st1. simpl. unfold IsFunction, kind_of in Hf.
    destruct (heap st !! f) as [o|] eqn:Ho; [|done].
    rewrite lookup_insert_ne; [eauto|]. intros E. pose proof (fresh_not_in_heap st).
    unfold p in E. congruence. }
  split.
  { apply fresh_ne. unfold st1. simpl. rewrite lookup_insert_eq. eauto. }
  split; [eexists; split; [apply lookup_insert_eq | done]|].
  split.
  { unfold functions_at, bind, gets, checked. simpl. rewrite lookup_insert_eq. simpl.
    by rewrite lookup_insert_eq. }
  split.
  { unfold functions_at, bind, gets, checked. simpl. rewrite lookup_insert_eq. simpl.
    rewrite lookup_insert_ne by lia. by rewrite lookup_insert_eq. }
  unfold functionCount. simpl. rewrite lookup_insert_eq, Hs. simpl.
  rewrite map_size_insert_None.
  - rewrite map_size_insert_None; [lia|]. apply Hnone. lia.
  - rewrite lookup_insert_ne by lia. apply Hnone. lia.
Qed.

Lemma function_is_not_unwrapped_witness :
  ∃ p q st1 st2,
    PassValueToOtherContext (H := Example.engine) 1 Example.isolated_world
      Example.isolated_world Example.main_world (v8Object 1%N) (Some 7%N) Example.page
      = Some (v8Object p, st1) ∧
    PassValueToOtherContext (H := Example.engine) 1 Example.main_world
      Example.main_world Example.isolated_world (v8Object p) (Some 7%N) st1
      = Some (v8Object q, st2) ∧
    q ≠ 1%N.
Proof.
  edestruct (function_is_not_unwrapped (H := Example.engine) 0 0 Example.isolated_world
               Example.main_world Example.isolated_world Example.main_world 1%N (Some 7%N)
               Example.page {| next_id_ := 1%N; functions_ := ∅ |})
    as (p & q & st1 & st2 & Hrun1 & Hrun2 & Hne & _).
  - reflexivity.
  - reflexivity.
  - intros id Hid. simpl in Hid. rewrite lookup_empty in Hid. by destruct Hid.
  - exists p, q, st1, st2. split; [exact Hrun1|]. split; [exact Hrun2 | exact Hne].
Defined.

(** * The context of an object handed back by a call *)

(** X19: the proxy object that stands for an object returned through a
    proxy function belongs to the context of the function, not to the
    context of the caller: the return value is marshalled while the scope
    of the function-owning context is still entered, and the proxy builder
    creates its proxy object in the context that is current. *)
Theorem returned_object_belongs_to_owner `{Engine} fuel store func_id args st r st' :
  ProxyFunctionWrapper fuel store func_id args st = Some (r, st') →
  ∃ func func_owning_context proxied_args st1 outcome st2,
    functions_at store func_id st = Some ((func, func_owning_context), st) ∧
    Function_Call func_owning_context func proxied_args st1 = Some (outcome, st2) ∧
    ∀ a oa,
      outcome = Returned (Some (v8Object a)) →
      heap st2 !! a = Some oa →
      kind oa = JSPlainObject ∨ kind oa = JSExotic →
      ∃ proxy o,
        r = Some (v8Object proxy) ∧ heap st2 !! proxy = None ∧
        heap st' !! proxy = Some o ∧ CreationContext o = Some func_owning_context.
Proof.
  intros Hrun. unfold ProxyFunctionWrapper in Hrun.
  run_bind Hrun as entry s0 Hentry.
  assert (s0 = st) as ->.
  { unfold functions_at in Hentry. by run_steps. }
  run_bind Hrun as proxied_args st1 Hargs. run_bind Hrun as outcome st2 Hcall.
  destruct entry as [func func_owning_context]. simpl in *.
  exists func, func_owning_context, proxied_args, st1, outcome, st2.
  split; [done|]. split; [done|]. intros a oa -> Ha Hk.
  run_bind Hrun as passed s3 Hpass. run_steps.
  destruct fuel as [|fuel]; [discriminate|].
  rewrite (PassValueToOtherContext_object _ _ _ _ _ _ _ _ Ha Hk) in Hpass.
  run_bind Hpass as proxy s Hproxy. run_steps.
  destruct (proj2 (contexts fuel) _ _ _ _ _ _ _ _ Hproxy) as (_ & Hnew & o & Ho & Hc).
  by exists proxy, o.
Qed.

Lemma returned_object_belongs_to_owner_witness :
  ∃ r st' func func_owning_context,
    ProxyFunctionWrapper (H := Example.engine) 9 (Some 7%N) 1%N
      (Example.main_world_call [v8Object 0%N]) Example.exposed_page = Some (r, st') ∧
    functions_at (Some 7%N) 1%N Example.exposed_page
      = Some ((func, func_owning_context), Example.exposed_page).
Proof.
  assert (Hrun : ∃ r st',
            ProxyFunctionWrapper (H := Example.engine) 9 (Some 7%N) 1%N
              (Example.main_world_call [v8Object 0%N]) Example.exposed_page
            = Some (r, st')).
  { eexists _, _. vm_compute. reflexivity. }
  destruct Hrun as (r & st' & Hrun).
  destruct (returned_object_belongs_to_owner (H := Example.engine) _ _ _ _ _ _ _ Hrun)
    as (func & func_owning_context & _ & _ & _ & _ & Hentry & _).
  exists r, st', func, func_owning_context. split; [exact Hrun | exact Hentry].
Defined.

(** * The debug report and frames *)

Lemma GetRenderFrame_frame_of `{Engine} value st o :
  heap st !! value = Some o → GetRenderFrame value st = Some (frame_of o, st).
Proof.
  intros Ho. unfold GetRenderFrame, bind, GetObject, frame_of. rewrite Ho.
  by destruct (CreationContext o).
Qed.

Lemma DebugGC_reports_aux `{Engine} current empty st o :
  heap st !! empty = Some o →
  ∃ ret_ st',
    DebugGC current empty st = Some (ret_, st') ∧
    heap st !! ret_ = None ∧
    heap st' = <[ret_ := count_report current (functionCount (frame_of o) st)]> (heap st) ∧
    is_Some (store_map_ st' !! frame_of o) ∧
    (∀ sp, functionCount sp st' = functionCount sp st) ∧
    (∀ sp s, store_map_ st !! sp = Some s → store_map_ st' !! sp = Some s) ∧
    monitors st' = monitors st ∧ microtasks st' = microtasks st ∧
    pending_exception st' = pending_exception st.
Proof.
  intros Ho. unfold DebugGC. rewrite (bind_run _ _ _ _ _ (GetRenderFrame_frame_of _ _ _ Ho)).
  destruct (GetOrCreateStore (frame_of o) st) as [[store st1]|] eqn:Hstore;
    [|unfold GetOrCreateStore in Hstore; by destruct (store_map_ st !! frame_of o)].
  destruct (GetOrCreateStore_Some _ _ _ _ Hstore) as (-> & Eh & Em & Ee & Emt & Hs & Hkeep).
  rewrite (bind_run _ _ _ _ _ Hstore).
  assert (Hcount : ∀ sp, functionCount sp st1 = functionCount sp st).
  { intros sp. unfold functionCount. unfold GetOrCreateStore in Hstore.
    destruct (store_map_ st !! frame_of o) as [s|] eqn:Hsp; simplify_eq; [done|]. simpl.
    destruct (decide (frame_of o = sp)) as [<-|Hne].
    - by rewrite lookup_insert_eq, Hsp.
    - by rewrite lookup_insert_ne. }
  set (ret_ := fresh (dom (heap st1))).
  exists ret_, (set_heap (alter (define_property "functionCount"
                   (v8Number (Z.of_nat (functionCount (frame_of o) st1))) kNone) ret_)
                   (set_heap (insert ret_
                      {| kind := JSPlainObject; CreationContext := Some current;
                         properties := []; frozen := false |}) st1)).
  split; [reflexivity|]. split; [rewrite <- Eh; apply fresh_not_in_heap|].
  split.
  { simpl. rewrite alter_insert_eq, Eh, Hcount. reflexivity. }
  by repeat split.
Qed.

(** X14: the debug report never fails on an object that exists, also on
    one that no frame hosts.  It returns a new object of the current
    context whose one property [functionCount] is the number of live
    entries of the store of the frame hosting the object, zero when that
    frame had no store; it creates that store when missing and changes
    nothing else: no count of any store, no other object, no monitor. *)
Theorem DebugGC_reports `{Engine} current empty st o :
  heap st !! empty = Some o →
  ∃ ret_ st',
    DebugGC current empty st = Some (ret_, st') ∧
    heap st !! ret_ = None ∧
    heap st' = <[ret_ := count_report current (functionCount (frame_of o) st)]> (heap st) ∧
    is_Some (store_map_ st' !! frame_of o) ∧
    (∀ sp, functionCount sp st' = functionCount sp st) ∧
    (∀ sp s, store_map_ st !! sp = Some s → store_map_ st' !! sp = Some s) ∧
    monitors st' = monitors st ∧ microtasks st' = microtasks st ∧
    pending_exception st' = pending_exception st.
Proof. apply DebugGC_reports_aux. Qed.

Lemma DebugGC_reports_witness :
  ∃ ret_ st',
    DebugGC (H := Example.engine) Example.main_world 4%N Example.exposed_page
      = Some (ret_, st') ∧
    heap st' !! ret_ = Some (count_report Example.main_world 4).
Proof.
  edestruct (DebugGC_reports (H := Example.engine) Example.main_world 4%N
               Example.exposed_page) as (ret_ & st' & Hrun & _ & Hheap & _).
  - vm_compute. reflexivity.
  - exists ret_, st'. split; [exact Hrun|]. rewrite Hheap, lookup_insert_eq.
    f_equal.
Defined.

(** X15: an exposure of an API object that no frame hosts, because it has
    no creation context or because its context belongs to no frame, comes
    to nothing: the frame pointer is null and the call aborts where it is
    used, whatever the name and the object; the debug report for the same
    object returns. *)
Theorem ExposeAPIInMainWorld_frameless `{Engine} fuel key api args st o :
  heap st !! api = Some o →
  frame_of o = None →
  ExposeAPIInMainWorld fuel key api args st = None ∧
  is_Some (DebugGC (GetCurrentContext args) api st).
Proof.
  intros Ho Hframe. split.
  - unfold ExposeAPIInMainWorld.
    rewrite (bind_run _ _ _ _ _ (GetRenderFrame_frame_of _ _ _ Ho)), Hframe.
    unfold bind, GetOrCreateStore. by destruct (store_map_ st !! None).
  - destruct (DebugGC_reports_aux (GetCurrentContext args) api st o Ho)
      as (ret_ & st' & -> & _). eauto.
Qed.

Lemma ExposeAPIInMainWorld_frameless_witness :
  ExposeAPIInMainWorld (H := Example.engine) 5 "api" 9%N (Example.preload_call []) adrift
    = None.
Proof.
  apply (ExposeAPIInMainWorld_frameless (H := Example.engine) 5 "api" 9%N
           (Example.preload_call []) adrift
           {| kind := JSPlainObject; CreationContext := None; properties := [];
              frozen := false |}); reflexivity.
Defined.

(** * When a marshalling pass returns *)

Lemma marshallable_evolves rank region st s l :
  evolves st s → marshallable (heap st) rank region l → marshallable (heap s) rank region l.
Proof.
  intros (Hh & _) (o & Ho & Hps). destruct (Hh _ _ Ho) as (o' & Ho' & E).
  exists o'. split; [done|]. by rewrite (strip_own_properties _ _ E).
Qed.

Lemma ready_evolves rank region store st s :
  evolves st s → ready rank region store st → ready rank region store s.
Proof.
  intros Hev [[s0 Hs0] Hall]. split.
  - destruct Hev as (_ & Hs & _).
    destruct (stores_grow_lookup _ _ _ _ Hs Hs0) as (s' & Hs' & _). eauto.
  - intros l Hl. eapply marshallable_evolves; [exact Hev | by apply Hall].
Qed.

Lemma find_property_elem name ps p : find_property name ps = Some p → p ∈ ps.
Proof.
  unfold find_property. destruct (list_find _ ps) as [[i q]|] eqn:Hfind; [|done].
  simpl. intros [= <-]. apply list_find_Some in Hfind as (Hi & _).
  by eapply list_elem_of_lookup_2.
Qed.

Lemma take_id_returns store st s :
  store_map_ st !! store = Some s →
  take_id store st
  = Some (next_id_ s,
          set_store_map_ (insert store {| next_id_ := (next_id_ s + 1)%N;
                                          functions_ := functions_ s |}) st).
Proof. intros Hs. unfold take_id, with_store. by rewrite Hs. Qed.

Lemma functions_insert_returns store func_id entry st s :
  store_map_ st !! store = Some s →
  functions_insert store func_id entry st
  = Some (tt, set_store_map_ (insert store
                {| next_id_ := next_id_ s;
                   functions_ := <[func_id := entry]> (functions_ s) |}) st).
Proof. intros Hs. unfold functions_insert, with_store. by rewrite Hs. Qed.

Lemma Promise_Then_returns promise on_fulfilled on_rejected st o state reactions :
  heap st !! promise = Some o → kind o = JSPromise state reactions →
  ∃ st', Promise_Then promise on_fulfilled on_rejected st = Some (tt, st').
Proof.
  intros Ho Hk. unfold Promise_Then, bind, GetObject. rewrite Ho, Hk.
  destruct state; eauto.
Qed.

Lemma IsFunction_Cast h value : IsFunction h value = true → ∃ f, value = v8Object f.
Proof. destruct value; try done. eauto. Qed.

Section Totality.

Context `{Engine}.
Variable rank : loc → nat.
Variable region : loc → Prop.

(** Registering a function and creating its proxy function returns. *)
Lemma register_returns store entry context st :
  is_Some (store_map_ st !! store) →
  ∃ id st1 st2 l st3,
    take_id store st = Some (id, st1) ∧
    functions_insert store id entry st1 = Some (tt, st2) ∧
    CreateFunction context (BoundProxyFunctionWrapper store id) st2 = Some (l, st3).
Proof.
  intros [s Hs]. eexists _, _, _, _, _. split; [by apply take_id_returns|].
  split; [apply functions_insert_returns; simpl; apply lookup_insert_eq|]. reflexivity.
Qed.

Lemma marshalling_returns_aux fuel :
  (∀ current source destination value store st,
     ready rank region store st → (1 ≤ fuel)%nat →
     (∀ l, value = v8Object l → region l ∧ (2 * rank l + 3 ≤ fuel)%nat) →
     ∃ r st', PassValueToOtherContext fuel current source destination value store st
              = Some (r, st')) ∧
  (∀ current api source_context target_context store st,
     ready rank region store st → region api → (2 * rank api + 2 ≤ fuel)%nat →
     ∃ proxy st', CreateProxyForAPI fuel current api source_context target_context store st
                  = Some (proxy, st')).
Proof.
  induction fuel as [|fuel [IHpass IHproxy]]; [split; intros; lia|]. split.
  - (* the marshaller *)
    intros current source destination value store st Hready _ Hvalue.
    destruct (decide (IsObject value = true)) as [Hobj|Hprim].
    + destruct value as [| | | | | |l]; try discriminate.
      destruct (Hvalue l eq_refl) as [Hl Hfuel]. destruct Hready as [[s Hs] Hall].
      destruct (Hall l Hl) as (o & Ho & Hps).
      destruct (kind o) as [cb|state reactions|ctor message|elements| |] eqn:Hk.
      * eexists _, _. apply PassValueToOtherContext_function; [|done].
        unfold IsFunction, kind_of. by rewrite Ho; simpl; rewrite Hk.
      * destruct (PassValueToOtherContext_promise fuel current source destination l store st
                    o state reactions Ho Hk)
          as (handle & on_fulfilled & on_rejected & _ & _ & _ & _ & Hph & Hpf & Hpr & ->).
        destruct (Promise_Then_returns l (v8Object on_fulfilled) (v8Object on_rejected)
                    (with_promise_proxy source destination store handle on_fulfilled
                       on_rejected st) o state reactions) as (st' & Hthen); [|done|].
        { unfold with_promise_proxy, set_heap. simpl. by rewrite !lookup_insert_ne. }
        rewrite (bind_run _ _ _ _ _ Hthen). eauto.
      * rewrite PassValueToOtherContext_S.
        change (bind (gets heap) ?k st) with (k (heap st) st). cbv beta.
        unfold IsFunction, IsPromise, IsNativeError, kind_of. rewrite Ho. simpl. rewrite Hk.
        eauto.
      * rewrite PassValueToOtherContext_S.
        change (bind (gets heap) ?k st) with (k (heap st) st). cbv beta.
        unfold IsFunction, IsPromise, IsNativeError, IsArray, kind_of.
        rewrite Ho. simpl. rewrite Hk.
        assert (Hcast : checked (Cast (v8Object l)) st = Some (l, st)) by reflexivity.
        rewrite (bind_run _ _ _ _ _ Hcast).
        assert (Hes : Array_elements l st = Some (elements, st)).
        { unfold Array_elements, bind, GetObject. by rewrite Ho, Hk. }
        rewrite (bind_run _ _ _ _ _ Hes).
        destruct (Array_New destination (length elements) st) as [[cloned s1]|] eqn:Hnew;
          [|done].
        rewrite (bind_run _ _ _ _ _ Hnew).
        assert (Hfresh : heap st !! cloned = None).
        { unfold Array_New in Hnew. apply NewObject_Some in Hnew. simplify_eq.
          apply fresh_not_in_heap. }
        assert (Hev1 : evolves st s1).
        { eapply evolves_NewObject; [|exact Hnew]. intros (sp & id & E). discriminate E. }
        destruct (for_each_returns (evolves st) (seq 0 (length elements))
                    (λ i, do maybe_element <- Array_Get source l i;
                          do element <- checked maybe_element;
                          do passed <- PassValueToOtherContext fuel destination source
                                         destination element store;
                          Array_Set destination cloned i passed) s1 Hev1)
          as (s2 & Hloop & _); [|rewrite (bind_run _ _ _ _ _ Hloop); eauto].
        intros i t _ Hev.
        destruct Hev as (Hh & Hrest). destruct (Hh _ _ Ho) as (o' & Ho' & E).
        pose proof (strip_kind_array _ _ _ E Hk) as Hk'.
        set (element := default (v8Undefined (GetIsolate source)) (elements !! i)).
        assert (Hget : Array_Get source l i t = Some (Some element, t)).
        { unfold Array_Get, Array_elements, bind, GetObject. by rewrite Ho', Hk'. }
        rewrite (bind_run _ _ _ _ _ Hget).
        assert (Hck : checked (Some element) t = Some (element, t)) by reflexivity.
        rewrite (bind_run _ _ _ _ _ Hck).
        destruct (IHpass destination source destination element store t)
          as (passed & t1 & Hpass).
        { eapply ready_evolves; [exact (conj Hh Hrest)|]. split; [eauto | done]. }
        { lia. }
        { intros c Hc. unfold element in Hc.
          destruct (elements !! i) as [e|] eqn:Hi; [|done]. simpl in Hc. subst e.
          destruct (Hps {| prop_key := v8Number (Z.of_nat i);
                           prop_value := Some (v8Object c); prop_attr := kNone |} c)
            as [Hc Hlt]; [|done|split; [done | lia]].
          unfold own_properties. rewrite Hk. apply elem_of_app. left.
          apply elem_of_lookup_imap. eauto. }
        rewrite (bind_run _ _ _ _ _ Hpass). eexists. split; [reflexivity|].
        apply evolves_alter_new; [|done|apply set_element_kind].
        eapply evolves_trans; [exact (conj Hh Hrest)|].
        exact (proj1 (frame fuel) _ _ _ _ _ _ _ _ Hpass).
      * rewrite (PassValueToOtherContext_object _ _ _ _ _ _ _ _ Ho (or_introl Hk)).
        destruct (IHproxy current l source destination store st) as (proxy & st' & Hproxy);
          [split; [eauto | done]|done|lia|].
        rewrite (bind_run _ _ _ _ _ Hproxy). eauto.
      * rewrite (PassValueToOtherContext_object _ _ _ _ _ _ _ _ Ho (or_intror Hk)).
        destruct (IHproxy current l source destination store st) as (proxy & st' & Hproxy);
          [split; [eauto | done]|done|lia|].
        rewrite (bind_run _ _ _ _ _ Hproxy). eauto.
    + rewrite PassValueToOtherContext_S.
      change (bind (gets heap) ?k st) with (k (heap st) st). cbv beta.
      destruct value as [| | | | | |l]; try (by destruct Hprim);
        unfold IsFunction, IsPromise, IsNativeError, IsArray, kind_of; simpl; eauto;
        destruct (ConvertFromV8_Value _); eauto.
  - (* the proxy builder *)
    intros current api source_context target_context store st Hready Hapi Hfuel.
    rewrite CreateProxyForAPI_S.
    destruct (Object_New current st) as [[proxy s1]|] eqn:Hnew; [|done].
    rewrite (bind_run _ _ _ _ _ Hnew).
    assert (Hfresh : heap st !! proxy = None).
    { unfold Object_New in Hnew. apply NewObject_Some in Hnew. simplify_eq.
      apply fresh_not_in_heap. }
    assert (Hev1 : evolves st s1).
    { eapply evolves_NewObject; [|exact Hnew]. intros (sp & id & E). discriminate E. }
    destruct Hready as [Hstore Hall]. destruct (Hall api Hapi) as (o & Ho & Hps).
    assert (Hkeys : ∃ maybe_keys, GetOwnPropertyNames api s1 = Some (maybe_keys, s1)).
    { destruct Hev1 as (Hh & _). destruct (Hh _ _ Ho) as (o1 & Ho1 & _).
      unfold GetOwnPropertyNames, bind, GetObject. rewrite Ho1. destruct (kind o1); eauto. }
    destruct Hkeys as (maybe_keys & Hkeys). rewrite (bind_run _ _ _ _ _ Hkeys).
    destruct maybe_keys as [keys|]; [|eauto].
    destruct (for_each_returns (evolves st) keys
                (proxy_key fuel api proxy source_context target_context store) s1 Hev1)
      as (s2 & Hloop & _); [|rewrite (bind_run _ _ _ _ _ Hloop); eauto].
    intros key t _ Hev. unfold proxy_key.
    destruct (key_to_string key) as [key_str|]; [|eauto].
    pose proof Hev as (Hh & _). destruct (Hh _ _ Ho) as (o' & Ho' & E).
    assert (Hget : Dictionary_Get api key_str t
                   = Some (find_property key_str (own_properties o) ≫= prop_value, t)).
    { unfold Dictionary_Get, bind, GetObject. rewrite Ho'.
      by rewrite (strip_own_properties _ _ E). }
    rewrite (bind_run _ _ _ _ _ Hget).
    destruct (find_property key_str (own_properties o) ≫= prop_value) as [value|] eqn:Hfind;
      [|eauto].
    assert (Hvalue : ∀ c, value = v8Object c → region c ∧ (rank c < rank api)%nat).
    { intros c ->. destruct (find_property key_str (own_properties o)) as [p|] eqn:Hp;
        [|done]. simpl in Hfind. eapply Hps; [|exact Hfind]. by eapply find_property_elem. }
    assert (Hready : ready rank region store t).
    { eapply ready_evolves; [exact Hev | by split]. }
    change (bind (gets heap) ?k t) with (k (heap t) t). cbv beta.
    destruct (IsFunction (heap t) value) eqn:Hfun.
    { destruct (IsFunction_Cast _ _ Hfun) as (f & ->).
      assert (Hcast : checked (Cast (v8Object f)) t = Some (f, t)) by reflexivity.
      rewrite (bind_run _ _ _ _ _ Hcast).
      destruct (register_returns store (f, source_context) target_context t (proj1 Hready))
        as (id & t1 & t2 & method & t3 & Htake & Hins & Hmethod).
      rewrite (bind_run _ _ _ _ _ Htake), (bind_run _ _ _ _ _ Hins),
        (bind_run _ _ _ _ _ Hmethod).
      eexists. split; [reflexivity|].
      apply evolves_alter_new; [|done|apply define_property_kind].
      eapply evolves_trans; [exact Hev|].
      by destruct (evolves_proxied_function _ _ _ _ _ _ _ _ _ _ Htake Hins Hmethod). }
    destruct (IsObject value && negb (IsNullOrUndefined value) && negb (IsArray (heap t) value)
              && negb (IsPromise (heap t) value)) eqn:Hsub.
    { destruct value as [| | | | | |c]; try discriminate.
      destruct (Hvalue c eq_refl) as [Hc Hlt].
      assert (Hcast : checked (Cast (v8Object c)) t = Some (c, t)) by reflexivity.
      rewrite (bind_run _ _ _ _ _ Hcast).
      destruct (IHproxy target_context c source_context target_context store t)
        as (sub_proxy & t1 & Hsubproxy); [done|done|lia|].
      rewrite (bind_run _ _ _ _ _ Hsubproxy). eexists. split; [reflexivity|].
      apply evolves_alter_new; [|done|apply define_property_kind].
      eapply evolves_trans; [exact Hev|].
      exact (proj2 (frame fuel) _ _ _ _ _ _ _ _ Hsubproxy). }
    destruct (IHpass target_context source_context target_context value store t)
      as (passed & t1 & Hpass); [done|lia| |].
    { intros c Hc. destruct (Hvalue c Hc). split; [done | lia]. }
    rewrite (bind_run _ _ _ _ _ Hpass). eexists. split; [reflexivity|].
    apply evolves_alter_new; [|done|apply define_property_kind].
    eapply evolves_trans; [exact Hev|].
    exact (proj1 (frame fuel) _ _ _ _ _ _ _ _ Hpass).
Qed.

End Totality.

(** X16: a marshalling pass and a proxy build return when the store
    exists and the objects they can meet form a ranked set: every one of
    them exists, and the rank falls from an object to the objects among
    the values of its own properties, the elements of an array included.
    Fuel of twice the rank of the value plus three is enough for the
    marshaller, of twice the rank of the API object plus two for the
    builder; one unit of fuel is enough for a value that is no object. *)
Theorem marshalling_returns `{Engine} (rank : loc → nat) (region : loc → Prop) fuel :
  (∀ current source destination value store st,
     ready rank region store st → (1 ≤ fuel)%nat →
     (∀ l, value = v8Object l → region l ∧ (2 * rank l + 3 ≤ fuel)%nat) →
     ∃ r st', PassValueToOtherContext fuel current source destination value store st
              = Some (r, st')) ∧
  (∀ current api source_context target_context store st,
     ready rank region store st → region api → (2 * rank api + 2 ≤ fuel)%nat →
     ∃ proxy st', CreateProxyForAPI fuel current api source_context target_context store st
                  = Some (proxy, st')).
Proof. apply marshalling_returns_aux. Qed.

Lemma page_is_ready :
  ready page_rank (λ l, l ∈ [1; 2; 3; 4; 5]%N) (Some 7%N) Example.page.
Proof.
  split; [by eexists|]. intros l Hl.
  repeat (apply elem_of_cons in Hl as [->|Hl]); [..|by apply elem_of_nil in Hl].
  all: eexists; (split; [vm_compute; reflexivity|]); intros p c Hp.
  all: unfold own_properties in Hp; simpl in Hp.
  all: repeat (apply elem_of_cons in Hp as [->|Hp]); try (by apply elem_of_nil in Hp).
  all: intros [= <-]; (split; [set_solver|vm_compute; lia]).
Qed.

Lemma marshalling_returns_witness :
  ∃ r st',
    PassValueToOtherContext (H := Example.engine) 7 Example.isolated_world
      Example.isolated_world Example.main_world (v8Object 4%N) (Some 7%N) Example.page
      = Some (r, st').
Proof.
  apply (proj1 (marshalling_returns (H := Example.engine) page_rank
                  (λ l, l ∈ [1; 2; 3; 4; 5]%N) 7)).
  - exact page_is_ready.
  - lia.
  - intros l [= <-]. split; [set_solver|vm_compute; lia].
Defined.

(** * The graph a proxy build leaves can be deep-frozen *)

Lemma strip_not_exotic o o' : strip o' = strip o → kind o ≠ JSExotic → kind o' ≠ JSExotic.
Proof.
  destruct o as [k c ps fz], o' as [k' c' ps' fz']. unfold strip, set_kind. simpl.
  intros E Hk ->. destruct k as [| ? ? | | | |]; simpl in E; congruence.
Qed.

Lemma created_evolves st s t l : evolves s t → created st s l → created st t l.
Proof.
  intros (Hh & _) [Hl [o Ho]]. split; [done|]. destruct (Hh _ _ Ho) as (o' & Ho' & _). eauto.
Qed.

Lemma created_later st s t l : evolves st s → created s t l → created st t l.
Proof. intros Hev [Hl Hl']. split; [by eapply evolves_new | done]. Qed.

Lemma leafy_outcome bound st st' : leafy st st' → outcome bound st st'.
Proof.
  intros Hleafy. exists (λ _, 0%nat). intros l [Hl [o Ho]].
  destruct (Hleafy _ _ Hl Ho) as [Hps Hk]. split; [|lia].
  exists o. split; [done|]. split; [done|]. intros p Hp. rewrite Hps in Hp.
  by apply elem_of_nil in Hp.
Qed.

Lemma leafy_same st st' : (∀ l, heap st !! l = None → heap st' !! l = None) → leafy st st'.
Proof. intros Hno l o Hl Hl'. apply Hno in Hl. congruence. Qed.

Lemma leafy_trans st1 st2 st3 :
  evolves st2 st3 → leafy st1 st2 → leafy st2 st3 → leafy st1 st3.
Proof.
  intros (Hh & _) H12 H23 l o Hl Hl3. destruct (heap st2 !! l) as [o2|] eqn:Hl2.
  - destruct (Hh _ _ Hl2) as (o3 & Hl3' & E). assert (o3 = o) as -> by congruence.
    destruct (H12 _ _ Hl Hl2) as [Hps Hk]. rewrite (strip_own_properties _ _ E).
    split; [done | by eapply strip_not_exotic].
  - by eapply H23.
Qed.

Lemma leafy_NewObject o st l st' :
  own_properties o = [] → kind o ≠ JSExotic → NewObject o st = Some (l, st') → leafy st st'.
Proof.
  intros Hps Hk Hnew. apply NewObject_Some in Hnew. injection Hnew as -> ->.
  intros l o' Hl Hl'. simpl in Hl'.
  destruct (decide (fresh (dom (heap st)) = l)) as [<-|Hne].
  - rewrite lookup_insert_eq in Hl'. by injection Hl' as <-.
  - rewrite lookup_insert_ne in Hl' by done. congruence.
Qed.

Lemma leafy_proxied_function store entry context st id st1 u st2 l st3 :
  take_id store st = Some (id, st1) →
  functions_insert store id entry st1 = Some (u, st2) →
  CreateFunction context (BoundProxyFunctionWrapper store id) st2 = Some (l, st3) →
  leafy st st3 ∧ created st st3 l.
Proof.
  intros Ht Hi Hc. destruct (register_Some _ _ _ _ _ _ _ Ht Hi) as (s & Hs & -> & ->).
  unfold CreateFunction in Hc. pose proof Hc as Hnew.
  eapply leafy_NewObject in Hc; [|done|done]. split; [exact Hc|].
  apply NewObject_Some in Hnew. injection Hnew as -> ->. split.
  - apply fresh_not_in_heap.
  - simpl. rewrite lookup_insert_eq. eauto.
Qed.

Lemma under_top_start R top o st :
  heap st !! top = None → kind o ≠ JSExotic → ¬ is_bound_proxy o →
  (∀ p, p ∈ own_properties o → ∃ v, prop_value p = Some v ∧ IsObject v = false) →
  under_top R top st (set_heap (insert top o) st).
Proof.
  intros Htop Hk Hb Hps. split; [by apply evolves_insert_new|]. split; [done|]. split.
  - exists (λ _, 0%nat). intros l [Hl [ol Hol]] Hne. simpl in Hol.
    rewrite lookup_insert_ne in Hol by done. congruence.
  - exists o. split; [simpl; apply lookup_insert_eq|]. split; [done|].
    intros p Hp. destruct (Hps p Hp) as (v & Hv & Hobj). exists v. split; [done|].
    intros c ->. discriminate.
Qed.

Lemma under_top_finish R top st s :
  under_top R top st s → outcome R st s ∧ created st s top.
Proof.
  intros (Hev & Htop & (rk & Hrk) & o & Ho & Hk & Hps). split; [|split; eauto].
  exists (λ l, if decide (l = top) then R else rk l). intros l Hl. cbv beta.
  destruct (decide (l = top)) as [->|Hne].
  - split; [|lia]. exists o. split; [done|]. split; [done|]. intros p Hp.
    destruct (Hps p Hp) as (v & Hv & Hc). exists v. split; [done|]. intros c ->.
    destruct (Hc c eq_refl) as [Hcr Hcne]. split; [done|].
    rewrite decide_False, decide_True by done. by apply Hrk.
  - destruct (Hrk l Hl Hne) as [(ol & Hol & Hkl & Hpl) Hlt]. split; [|lia].
    exists ol. split; [done|]. split; [done|]. intros p Hp.
    destruct (Hpl p Hp) as (v & Hv & Hc). exists v. split; [done|]. intros c ->.
    destruct (Hc c eq_refl) as [[Hcr Hcne] Hclt]. split; [done|].
    by rewrite !decide_False by done.
Qed.

Lemma under_top_step R top st s t v f :
  under_top R top st s → evolves s t →
  (∃ rk, ∀ l, created s t l → freezable (heap t) rk (created s t) l ∧ (rk l < R)%nat) →
  (∀ c, v = v8Object c → created s t c) →
  writes v f →
  under_top R top st (set_heap (alter f top) t).
Proof.
  intros (Hev & Htop & (rk & Hrk) & o & Ho & Hk & Hps) Hst (rkb & Hrkb) Hv (Hf1 & Hf2 & Hf3).
  pose proof Hst as (Hh & _). destruct (Hh _ _ Ho) as (ot & Hot & Et).
  assert (Hcreated : ∀ l, created st (set_heap (alter f top) t) l ↔ created st t l).
  { intros l. unfold created. simpl. destruct (decide (top = l)) as [<-|Hne].
    - rewrite lookup_alter_eq, Hot. simpl. split; intros [? _]; eauto.
    - by rewrite lookup_alter_ne. }
  split; [apply evolves_alter_new; [by eapply evolves_trans|done|done]|].
  split; [done|]. split.
  - exists (λ l, if decide (heap s !! l = None) then rkb l else rk l).
    intros l Hl Hne. apply Hcreated in Hl. cbv beta.
    destruct (decide (heap s !! l = None)) as [Hnew|Hold].
    + destruct (Hrkb l) as [(ol & Hol & Hkl & Hpl) Hlt]; [split; [done | apply Hl]|].
      split; [|done]. exists ol. split; [simpl; by rewrite lookup_alter_ne|].
      split; [done|]. intros p Hp.
      destruct (Hpl p Hp) as (w & Hw & Hc). exists w. split; [done|]. intros c ->.
      destruct (Hc c eq_refl) as [[Hcnew Hcin] Hclt].
      assert (c ≠ top) by (intros ->; congruence).
      split; [split; [|done]|by rewrite !decide_True by done].
      apply Hcreated. by apply (created_later st s t c Hev).
    + assert (Hls : created st s l).
      { split; [apply Hl|]. by destruct (heap s !! l); eauto. }
      destruct (Hrk l Hls Hne) as [(ol & Hol & Hkl & Hpl) Hlt]. split; [|done].
      destruct (Hh _ _ Hol) as (ol' & Hol' & E). exists ol'.
      split; [simpl; by rewrite lookup_alter_ne|].
      split; [by eapply strip_not_exotic|]. rewrite (strip_own_properties _ _ E).
      intros p Hp. destruct (Hpl p Hp) as (w & Hw & Hc). exists w. split; [done|].
      intros c ->. destruct (Hc c eq_refl) as [[Hcs Hcne] Hclt].
      split; [split; [|done]|].
      * apply Hcreated. by eapply created_evolves.
      * assert (heap s !! c ≠ None) by (destruct Hcs as [_ [? ?]]; congruence).
        by rewrite !decide_False by done.
  - exists (f ot). split; [simpl; by rewrite lookup_alter_eq, Hot|].
    split; [apply Hf2; by eapply strip_not_exotic|]. intros p Hp.
    destruct (Hf3 _ _ Hp) as [Hp'|(w & Hw & [->|Hw'])].
    + rewrite (strip_own_properties _ _ Et) in Hp'.
      destruct (Hps p Hp') as (w & Hw & Hc). exists w. split; [done|]. intros c ->.
      destruct (Hc c eq_refl) as [Hcs Hcne]. split; [|done].
      apply Hcreated. by eapply created_evolves.
    + exists v. split; [done|]. intros c ->. destruct (Hv c eq_refl) as [Hcnew Hcin].
      split; [|intros ->; congruence]. apply Hcreated.
      by apply (created_later st s t c Hev).
    + exists w. split; [done|]. intros c ->. discriminate.
Qed.

Lemma set_element_writes hole i v :
  IsObject hole = false → writes v (set_element hole i v).
Proof.
  intros Hhole. split; [apply set_element_kind|]. split.
  - intros o Hk. unfold set_element. destruct (kind o) eqn:E; try by rewrite ?E.
    destruct (frozen o); [by rewrite E | done].
  - intros o p Hp. unfold set_element in Hp.
    destruct (kind o) as [| | |elements| |] eqn:Hk; try by left.
    destruct (frozen o); [by left|].
    unfold own_properties in Hp |- *. simpl in Hp. rewrite Hk.
    apply elem_of_app in Hp as [Hp|Hp]; [|left; apply elem_of_app; by right].
    apply elem_of_lookup_imap in Hp as (j & e & -> & He). simpl.
    unfold write_element in He. destruct (decide (i < length elements)%nat).
    + destruct (decide (i = j)) as [<-|Hne].
      * rewrite list_lookup_insert_eq in He by done. right. exists v. split; [congruence|].
        by left.
      * rewrite list_lookup_insert_ne in He by done. left.
        apply elem_of_app; left; apply elem_of_lookup_imap; eauto.
    + destruct (decide (j < length elements)%nat) as [Hj|Hj].
      * rewrite lookup_app_l in He by done. left.
        apply elem_of_app; left; apply elem_of_lookup_imap; eauto.
      * rewrite lookup_app_r in He by lia. right. exists e. split; [done|].
        apply list_elem_of_lookup_2 in He. apply elem_of_app in He as [He|He].
        -- apply elem_of_replicate in He as [-> _]. by right.
        -- apply list_elem_of_singleton in He. by left.
Qed.

Lemma define_property_writes name v attr : writes v (define_property name v attr).
Proof.
  split; [apply define_property_kind|]. split.
  - intros o Hk. unfold define_property. destruct (frozen o); [done|].
    destruct (find_property _ _) as [q|]; [|done]. by destruct (prop_attr q).
  - intros o p Hp. unfold define_property in Hp. destruct (frozen o); [by left|].
    set (p' := {| prop_key := v8String name; prop_value := Some v; prop_attr := attr |}) in *.
    destruct (find_property name (properties o)) as [q|].
    + destruct (prop_attr q); [|by left].
      unfold own_properties in Hp |- *. simpl in Hp.
      apply elem_of_app in Hp as [Hp|Hp]; [left; apply elem_of_app; by left|].
      unfold replace_property in Hp. apply list_elem_of_fmap in Hp as (q0 & -> & Hq0).
      destruct (decide _).
      * right. exists v. split; [done | by left].
      * left. apply elem_of_app. by right.
    + unfold own_properties in Hp |- *. simpl in Hp.
      apply elem_of_app in Hp as [Hp|Hp]; [left; apply elem_of_app; by left|].
      apply elem_of_app in Hp as [Hp|Hp]; [left; apply elem_of_app; by right|].
      apply list_elem_of_singleton in Hp as ->. right. exists v. split; [done | by left].
Qed.

Lemma leafy_below R st st' :
  leafy st st' → (0 < R)%nat →
  ∃ rk, ∀ l, created st st' l → freezable (heap st') rk (created st st') l ∧ (rk l < R)%nat.
Proof.
  intros Hleafy HR. destruct (leafy_outcome 0 _ _ Hleafy) as (rk & Hrk).
  exists rk. intros l Hl. destruct (Hrk l Hl). split; [done | lia].
Qed.

Lemma outcome_below bound R st st' :
  outcome bound st st' → (bound < R)%nat →
  ∃ rk, ∀ l, created st st' l → freezable (heap st') rk (created st st') l ∧ (rk l < R)%nat.
Proof.
  intros (rk & Hrk) HR. exists rk. intros l Hl. destruct (Hrk l Hl). split; [done | lia].
Qed.

Lemma nothing_created_below R st st' :
  (∀ l, ¬ created st st' l) →
  ∃ rk : loc → nat,
    ∀ l, created st st' l → freezable (heap st') rk (created st st') l ∧ (rk l < R)%nat.
Proof. intros Hno. exists (λ _, 0%nat). intros l Hl. by destruct (Hno l). Qed.

Lemma nothing_created st : ∀ l, ¬ created st st l.
Proof. intros l [Hl [o Ho]]. congruence. Qed.

Lemma IsPromise_Cast h value : IsPromise h value = true → ∃ p, value = v8Object p.
Proof. destruct value; try done. eauto. Qed.

Lemma IsNativeError_Cast h value : IsNativeError h value = true → ∃ e, value = v8Object e.
Proof. destruct value; try done. eauto. Qed.

Lemma IsArray_Cast h value : IsArray h value = true → ∃ arr, value = v8Object arr.
Proof. destruct value; try done. eauto. Qed.

Lemma created_NewObject o st l st' : NewObject o st = Some (l, st') → created st st' l.
Proof.
  intros Hnew. apply NewObject_Some in Hnew. injection Hnew as -> ->. split.
  - apply fresh_not_in_heap.
  - simpl. rewrite lookup_insert_eq. eauto.
Qed.

Section Built.

Context `{Engine}.
Variable rank : loc → nat.
Variable region : loc → Prop.
Hypothesis plain_data : converts_to_plain_data.

Lemma built_aux fuel :
  (∀ current source destination value store st r st',
     (∀ l, region l → marshallable (heap st) rank region l) →
     (∀ l, value = v8Object l → region l) →
     PassValueToOtherContext fuel current source destination value store st = Some (r, st') →
     (∀ c, r = v8Object c → created st st' c) ∧
     ((∀ l, ¬ created st st' l) ∨ ∃ a, value = v8Object a ∧ outcome (rank a) st st')) ∧
  (∀ current api source_context target_context store st proxy st',
     (∀ l, region l → marshallable (heap st) rank region l) →
     region api →
     CreateProxyForAPI fuel current api source_context target_context store st
       = Some (proxy, st') →
     created st st' proxy ∧ outcome (rank api) st st').
Proof.
  induction fuel as [|fuel [IHpass IHproxy]];
    (split; [intros ??????? st' Hall Hvalue Hrun | intros ??????? st' Hall Hapi Hrun]).
  - discriminate.
  - discriminate.
  - rewrite PassValueToOtherContext_S in Hrun. run_bind Hrun as h s0 Hh.
    run_steps.
    destruct (IsFunction _ _) eqn:Hfun.
    { destruct (IsFunction_Cast _ _ Hfun) as (f & ->).
      run_bind Hrun as func s1 Hcast. run_bind Hrun as func_id s2 Htake.
      run_bind Hrun as u s3 Hins. run_bind Hrun as proxy_func s4 Hnew. run_steps.
      destruct (leafy_proxied_function _ _ _ _ _ _ _ _ _ _ Htake Hins Hnew) as [Hleafy Hc].
      split; [by intros c [= <-]|]. right. exists f. split; [done|].
      by apply leafy_outcome. }
    destruct (IsPromise _ _) eqn:Hprom.
    { destruct (IsPromise_Cast _ _ Hprom) as (p & ->).
      run_bind Hrun as v8_promise s1 Hcast. run_bind Hrun as handle s2 Hnew.
      run_bind Hrun as on_fulfilled s3 Hf. run_bind Hrun as on_rejected s4 Hr.
      run_bind Hrun as u s5 Hthen. run_steps.
      pose proof (evolves_Promise_Then _ _ _ _ _ _ Hthen) as He4.
      pose proof Hr as He3. apply evolves_NewObject in He3; [|no_proxy].
      pose proof Hf as He2. apply evolves_NewObject in He2; [|no_proxy].
      assert (Hleafy : leafy st s5).
      { eapply leafy_trans; [exact He4| |].
        - eapply leafy_trans; [exact He3| |eapply leafy_NewObject; [| |exact Hr]; done].
          eapply leafy_trans; [exact He2| |eapply leafy_NewObject; [| |exact Hf]; done].
          eapply leafy_NewObject; [| |exact Hnew]; done.
        - apply leafy_same. intros l Hl.
          destruct (sealed_Promise_Then _ _ _ _ _ _ Hthen) as [Hev _].
          destruct (heap s5 !! l) as [ol|] eqn:Hl5; [|done].
          unfold Promise_Then in Hthen. run_get Hthen as op Hop.
          destruct (kind op) as [| [| |] reactions | | | |]; run_steps; simpl in Hl5;
            try congruence.
          rewrite lookup_insert_ne in Hl5; congruence. }
      split.
      - intros c [= <-]. apply created_NewObject in Hnew.
        eapply created_evolves; [|exact Hnew].
        eapply evolves_trans; [exact He2|]. by eapply evolves_trans.
      - right. exists p. split; [done|]. by apply leafy_outcome. }
    destruct (IsNativeError _ _) eqn:Herr.
    { destruct (IsNativeError_Cast _ _ Herr) as (e0 & ->).
      run_bind Hrun as e s1 Hnew. run_steps. split.
      - intros c [= <-]. by eapply created_NewObject.
      - right. exists e0. split; [done|]. apply leafy_outcome.
        eapply leafy_NewObject; [| |exact Hnew]; done. }
    destruct (IsArray _ _) eqn:Harr.
    { destruct (IsArray_Cast _ _ Harr) as (a & ->).
      run_checked Hrun as arr Hcast. simpl in Hcast. injection Hcast as <-.
      run_bind Hrun as elements s2 Hes.
      run_bind Hrun as cloned_arr s3 Hnew. run_bind Hrun as u s4 Hloop. run_steps.
      apply Array_elements_state in Hes as ->.
      unfold Array_New in Hnew. apply NewObject_Some in Hnew. injection Hnew as -> ->.
      set (cloned := fresh (dom (heap st))) in *.
      match type of Hloop with
      | for_each _ _ (set_heap (insert _ ?o) _) = _ => set (holes := o) in *
      end.
      assert (Hstart : under_top (rank a) cloned st (set_heap (insert cloned holes) st)).
      { apply under_top_start; [apply fresh_not_in_heap|done|no_proxy|].
        intros p Hp. unfold own_properties, holes in Hp. simpl in Hp.
        rewrite app_nil_r in Hp. apply elem_of_lookup_imap in Hp as (i & e & -> & He).
        apply lookup_replicate in He as [-> _]. simpl. eauto. }
      cut (under_top (rank a) cloned st s4).
      { intros Hend. destruct (under_top_finish _ _ _ _ Hend) as [Hout Hc].
        split; [by intros c [= <-]|]. right. exists a. by split. }
      destruct u. revert Hloop. apply (for_each_inv (under_top (rank a) cloned st));
        [exact Hstart|].
      intros i s s' _ Hs Hbody. run_bind Hbody as maybe_element s5 Hget.
      run_bind Hbody as element s6 Hck. run_bind Hbody as passed s7 Hpass. run_steps.
      apply Array_Get_Some in Hget as (-> & o' & elements' & Ho' & Hk' & [= ->]).
      pose proof Hs as (Hev & _).
      assert (Hall' : ∀ l, region l → marshallable (heap s) rank region l).
      { intros l Hl. eapply marshallable_evolves; [exact Hev | by apply Hall]. }
      assert (Helement : ∀ c, default (v8Undefined (GetIsolate source)) (elements' !! i)
                              = v8Object c → region c ∧ (rank c < rank a)%nat).
      { intros c Hc. destruct (elements' !! i) as [e|] eqn:Hi; [|done]. simpl in Hc.
        subst e. destruct (Hall' a (Hvalue a eq_refl)) as (oa & Hoa & Hps).
        assert (oa = o') as -> by congruence.
        apply (Hps {| prop_key := v8Number (Z.of_nat i); prop_value := Some (v8Object c);
                      prop_attr := kNone |}); [|done].
        unfold own_properties. rewrite Hk'. apply elem_of_app. left.
        apply elem_of_lookup_imap. eauto. }
      destruct (IHpass _ _ _ _ _ _ _ _ Hall' (λ c Hc, proj1 (Helement c Hc)) Hpass)
        as [Hres Hout].
      eapply under_top_step; [exact Hs| | |exact Hres|].
      - exact (proj1 (frame fuel) _ _ _ _ _ _ _ _ Hpass).
      - destruct Hout as [Hno|(c & Hc & Hout)]; [by apply nothing_created_below|].
        eapply outcome_below; [exact Hout|]. by apply Helement.
      - by apply set_element_writes. }
    destruct (IsObject _ && _) eqn:Hobj.
    { destruct value as [| | | | | |a]; try discriminate.
      run_checked Hrun as api Hcast. simpl in Hcast. injection Hcast as <-.
      run_bind Hrun as proxy s2 Hproxy. run_steps.
      destruct (IHproxy _ _ _ _ _ _ _ _ Hall (Hvalue _ eq_refl) Hproxy) as [Hc Hout].
      split; [by intros c [= <-]|]. right. exists a. by split. }
    destruct (IsNull _);
      [run_steps; split; [by intros c [=] | left; apply nothing_created]|].
    destruct (IsUndefined _);
      [run_steps; split; [by intros c [=] | left; apply nothing_created]|].
    destruct (ConvertFromV8_Value _) as [ret_|]; run_steps;
      (split; [|left; apply nothing_created]); [|by intros c [=]].
    intros c Hc. pose proof (plain_data (GetIsolate destination) ret_) as Hp.
    by rewrite Hc in Hp.
  - rewrite CreateProxyForAPI_S in Hrun. run_bind Hrun as top s1 Hnew.
    run_bind Hrun as maybe_keys s2 Hkeys.
    apply GetOwnPropertyNames_state in Hkeys as ->.
    unfold Object_New in Hnew. apply NewObject_Some in Hnew. injection Hnew as -> ->.
    set (top := fresh (dom (heap st))) in *.
    match type of Hrun with
    | context [set_heap (insert _ ?o) _] => set (empty := o) in *
    end.
    assert (Hstart : under_top (rank api) top st (set_heap (insert top empty) st)).
    { apply under_top_start; [apply fresh_not_in_heap|done|no_proxy|].
      intros p Hp. unfold own_properties, empty in Hp. simpl in Hp.
      by apply elem_of_nil in Hp. }
    cut (under_top (rank api) top st st' ∧ proxy = top).
    { intros [Hend ->]. destruct (under_top_finish _ _ _ _ Hend) as [Hout Hc]. by split. }
    destruct maybe_keys as [keys|]; [|run_steps; by split].
    run_bind Hrun as u s3 Hloop. destruct u. run_steps. split; [|done].
    revert Hloop. apply (for_each_inv (under_top (rank api) top st)); [exact Hstart|].
    intros key s s' _ Hs Hbody. unfold proxy_key in Hbody.
    destruct (key_to_string key) as [key_str|]; [|by run_steps].
    run_bind Hbody as maybe_value s4 Hget.
    apply Dictionary_Get_Some in Hget as (-> & o' & Ho' & ->).
    destruct (find_property key_str (own_properties o') ≫= prop_value) as [value|] eqn:Hfind;
      [|by run_steps].
    pose proof Hs as (Hev & _).
    assert (Hall' : ∀ l, region l → marshallable (heap s) rank region l).
    { intros l Hl. eapply marshallable_evolves; [exact Hev | by apply Hall]. }
    assert (Hvalue : ∀ c, value = v8Object c → region c ∧ (rank c < rank api)%nat).
    { intros c ->. destruct (Hall' api Hapi) as (oa & Hoa & Hps).
      assert (oa = o') as -> by congruence.
      destruct (find_property key_str (own_properties o')) as [p|] eqn:Hp; [|done].
      simpl in Hfind. eapply Hps; [|exact Hfind]. by eapply find_property_elem. }
    run_bind Hbody as h s5 Hh. run_steps.
    destruct (IsFunction _ _) eqn:Hfun.
    { destruct (IsFunction_Cast _ _ Hfun) as (f & ->).
      run_bind Hbody as func t1 Hcast. run_bind Hbody as func_id t2 Htake.
      run_bind Hbody as u t3 Hins. run_bind Hbody as method t4 Hmethod. run_steps.
      destruct (leafy_proxied_function _ _ _ _ _ _ _ _ _ _ Htake Hins Hmethod)
        as [Hleafy Hc].
      eapply (under_top_step _ _ _ _ _ (v8Object method)); [exact Hs| | | |].
      - by destruct (evolves_proxied_function _ _ _ _ _ _ _ _ _ _ Htake Hins Hmethod).
      - apply leafy_below; [done|]. destruct (Hvalue f eq_refl). lia.
      - by intros c [= <-].
      - apply define_property_writes. }
    destruct (_ && _) eqn:Hsub.
    { destruct value as [| | | | | |c]; try discriminate.
      run_checked Hbody as sub_api Hcast. simpl in Hcast. injection Hcast as <-.
      run_bind Hbody as sub_proxy t2 Hsubproxy. run_steps.
      destruct (Hvalue c eq_refl) as [Hc Hlt].
      destruct (IHproxy _ _ _ _ _ _ _ _ Hall' Hc Hsubproxy) as [Hcreated Hout].
      eapply (under_top_step _ _ _ _ _ (v8Object sub_proxy)); [exact Hs| | | |].
      - exact (proj2 (frame fuel) _ _ _ _ _ _ _ _ Hsubproxy).
      - by eapply outcome_below.
      - by intros c' [= <-].
      - apply define_property_writes. }
    run_bind Hbody as passed t1 Hpass. run_steps.
    destruct (IHpass _ _ _ _ _ _ _ _ Hall' (λ c Hc, proj1 (Hvalue c Hc)) Hpass)
      as [Hres Hout].
    eapply under_top_step; [exact Hs| | |exact Hres|].
    + exact (proj1 (frame fuel) _ _ _ _ _ _ _ _ Hpass).
    + destruct Hout as [Hno|(c & Hc & Hout)]; [by apply nothing_created_below|].
      eapply outcome_below; [exact Hout|]. by apply Hvalue.
    + apply define_property_writes.
Qed.

End Built.

(** X17: an exposure returns.  When the API object is hosted by a frame,
    the global object of the frame's main world exists and has no property
    of the given name, the value converter yields no objects, and the
    objects that can be met from the API object form a ranked set (every
    one exists, and the rank falls from an object to the objects among
    the values of its own properties), then the call returns for fuel of
    twice the rank of the API object plus two: the proxy is built, it can
    be deep-frozen with the same fuel, and the name is set. *)
Theorem ExposeAPIInMainWorld_returns `{Engine} (rank : loc → nat) (region : loc → Prop)
    fuel key api args st o context host g :
  converts_to_plain_data →
  heap st !! api = Some o →
  CreationContext o = Some context →
  FrameForContext context = Some host →
  heap st !! Global (MainWorldScriptContext host) = Some g →
  find_property key (own_properties g) = None →
  (∀ l, region l → marshallable (heap st) rank region l) →
  region api →
  (2 * rank api + 2 ≤ fuel)%nat →
  ∃ st', ExposeAPIInMainWorld fuel key api args st = Some (tt, st').
Proof.
  intros Hplain Hapi Hctx Hhost Hglobal Hkey Hall Hregion Hfuel.
  unfold ExposeAPIInMainWorld.
  assert (Hrf : GetRenderFrame api st = Some (Some host, st)).
  { rewrite (GetRenderFrame_frame_of _ _ _ Hapi). unfold frame_of. by rewrite Hctx, Hhost. }
  rewrite (bind_run _ _ _ _ _ Hrf).
  destruct (GetOrCreateStore (Some host) st) as [[store st1]|] eqn:Hstore;
    [|unfold GetOrCreateStore in Hstore; by destruct (store_map_ st !! Some host)].
  destruct (GetOrCreateStore_Some _ _ _ _ Hstore) as (-> & Eh & _ & _ & _ & Hs & _).
  rewrite (bind_run _ _ _ _ _ Hstore).
  assert (Hck : checked (Some host) st1 = Some (host, st1)) by reflexivity.
  rewrite (bind_run _ _ _ _ _ Hck).
  assert (Hhas : Dictionary_Has (Global (MainWorldScriptContext host)) key st1
                 = Some (false, st1)).
  { unfold Dictionary_Has, bind, GetObject. rewrite Eh, Hglobal, Hkey. unfold ret.
    rewrite bool_decide_eq_false_2; [done|]. by intros [? ?]. }
  rewrite (bind_run _ _ _ _ _ Hhas).
  assert (Hall1 : ∀ l, region l → marshallable (heap st1) rank region l).
  { intros l Hl. rewrite Eh. by apply Hall. }
  destruct (proj2 (marshalling_returns_aux rank region fuel)
              (MainWorldScriptContext host) api (WorldScriptContext host)
              (MainWorldScriptContext host) (Some host) st1 (conj Hs Hall1) Hregion Hfuel)
    as (proxy & st2 & Hproxy).
  rewrite (bind_run _ _ _ _ _ Hproxy).
  destruct (proj2 (built_aux rank region Hplain fuel) _ _ _ _ _ _ _ _ Hall1 Hregion Hproxy)
    as (Hcreated & rk & Hrk).
  destruct (DeepFreeze_returns_aux rk (created st1 st2) fuel proxy (MainWorldScriptContext host)
              st2) as (st3 & Hfreeze).
  - intros l Hl. by apply Hrk.
  - done.
  - destruct (Hrk proxy Hcreated). lia.
  - rewrite (bind_run _ _ _ _ _ Hfreeze). eauto.
Qed.

Lemma ExposeAPIInMainWorld_returns_witness :
  ∃ st',
    ExposeAPIInMainWorld (H := Example.engine) 6 "api" 4%N (Example.preload_call [])
      Example.fresh_page = Some (tt, st').
Proof.
  eapply (ExposeAPIInMainWorld_returns (H := Example.engine) page_rank
            (λ l, l ∈ [1; 2; 3; 4; 5]%N) 6 "api" 4%N (Example.preload_call [])
            Example.fresh_page).
  - intros i b. by destruct b.
  - reflexivity.
  - reflexivity.
  - reflexivity.
  - reflexivity.
  - reflexivity.
  - exact (proj2 page_is_ready).
  - set_solver.
  - vm_compute. lia.
Defined.

(** * The monitors a pass binds *)

Lemma bound_proxy_preserved st st' l sp id :
  heap_preserved st st' → bound_proxy (heap st) l sp id → bound_proxy (heap st') l sp id.
Proof.
  intros Hh (o & Ho & Hk). destruct (Hh _ _ Ho) as (o' & Ho' & E).
  exists o'. split; [done|]. by apply (strip_kind_function o' o).
Qed.

Lemma monitors_grow_same st st' : monitors st' = monitors st → monitors_grow st st'.
Proof. intros E. exists []. by rewrite app_nil_r. Qed.

Lemma monitors_grow_trans st1 st2 st3 :
  evolves st1 st2 → evolves st2 st3 →
  monitors_grow st1 st2 → monitors_grow st2 st3 → monitors_grow st1 st3.
Proof.
  intros He12 He23 (new1 & E1 & H1) (new2 & E2 & H2). exists (new1 ++ new2).
  split; [by rewrite E2, E1, app_assoc|]. apply Forall_app. split.
  - eapply Forall_impl; [exact H1|]. intros m [Hnew Hb]. split; [done|].
    eapply bound_proxy_preserved; [apply He23 | done].
  - eapply Forall_impl; [exact H2|]. intros m [Hnew Hb]. split; [|done].
    by eapply evolves_new.
Qed.

Lemma monitors_grow_alter st0 st l f :
  monitors_grow st0 st → (∀ o cb, kind o = JSFunction cb → kind (f o) = JSFunction cb) →
  monitors_grow st0 (set_heap (alter f l) st).
Proof.
  intros (new & E & Hall) Hf. exists new. split; [done|].
  eapply Forall_impl; [exact Hall|]. intros m [Hnew (o & Ho & Hk)]. split; [done|].
  simpl. destruct (decide (l = target m)) as [->|Hne].
  - exists (f o). split; [by rewrite lookup_alter_eq, Ho | by apply Hf].
  - exists o. split; [by rewrite lookup_alter_ne | done].
Qed.

Lemma set_element_keeps_function hole i v o cb :
  kind o = JSFunction cb → kind (set_element hole i v o) = JSFunction cb.
Proof. intros Hk. unfold set_element. by rewrite Hk. Qed.

Lemma define_property_keeps_function name v attr o cb :
  kind o = JSFunction cb → kind (define_property name v attr o) = JSFunction cb.
Proof.
  intros Hk. unfold define_property. destruct (frozen o); [done|].
  destruct (find_property _ _) as [q|]; [|done]. by destruct (prop_attr q).
Qed.

Lemma monitors_NewObject o st l st' :
  NewObject o st = Some (l, st') → monitors st' = monitors st.
Proof. intros Hnew. apply NewObject_Some in Hnew. by injection Hnew as -> ->. Qed.

Lemma monitors_proxied_function store entry context st id st1 u st2 l st3 :
  take_id store st = Some (id, st1) →
  functions_insert store id entry st1 = Some (u, st2) →
  CreateFunction context (BoundProxyFunctionWrapper store id) st2 = Some (l, st3) →
  monitors st3 = monitors st ∧ heap st !! l = None ∧ bound_proxy (heap st3) l store id.
Proof.
  intros Ht Hi Hc. destruct (register_Some _ _ _ _ _ _ _ Ht Hi) as (s & Hs & -> & ->).
  unfold CreateFunction in Hc. apply NewObject_Some in Hc. injection Hc as -> ->.
  split; [done|]. split; [apply fresh_not_in_heap|].
  eexists. split; [simpl; apply lookup_insert_eq | done].
Qed.

Lemma monitors_Promise_Then promise on_fulfilled on_rejected st u st' :
  Promise_Then promise on_fulfilled on_rejected st = Some (u, st') →
  monitors st' = monitors st.
Proof.
  intros Hrun. unfold Promise_Then in Hrun. run_get Hrun as o Ho.
  destruct (kind o) as [| [| |] reactions | | | |]; by run_steps.
Qed.

Section Monitors.

Context `{Engine}.

(** X18: a marshalling pass and a proxy build keep the monitors there
    were, in their order, and bind no monitor to anything but a proxy
    function created in the pass: each monitor added carries the store and
    the id that the proxy function it is bound to is bound to, so that its
    destructor erases the entry of that proxy function and no other. *)
Theorem monitors_are_bound_to_proxies fuel :
  (∀ current source destination value store st r st',
     PassValueToOtherContext fuel current source destination value store st = Some (r, st') →
     monitors_grow st st') ∧
  (∀ current api source_context target_context store st proxy st',
     CreateProxyForAPI fuel current api source_context target_context store st
       = Some (proxy, st') →
     monitors_grow st st').
Proof.
  induction fuel as [|fuel [IHpass IHproxy]];
    (split; [intros ??????? st' Hrun | intros ??????? st' Hrun]).
  - discriminate.
  - discriminate.
  - rewrite PassValueToOtherContext_S in Hrun. run_bind Hrun as h s0 Hh.
    run_steps.
    destruct (IsFunction _ _).
    { run_bind Hrun as func s1 Hcast. run_bind Hrun as func_id s2 Htake.
      run_bind Hrun as u s3 Hins. run_bind Hrun as proxy_func s4 Hnew. run_steps.
      destruct (monitors_proxied_function _ _ _ _ _ _ _ _ _ _ Htake Hins Hnew)
        as (Em & Hl & Hb).
      exists [{| target := proxy_func; store_ := store; func_id_ := func_id |}].
      split; [simpl; by rewrite Em|]. apply Forall_singleton. by split. }
    destruct (IsPromise _ _).
    { run_bind Hrun as v8_promise s1 Hcast. run_bind Hrun as handle s2 Hnew.
      run_bind Hrun as on_fulfilled s3 Hf. run_bind Hrun as on_rejected s4 Hr.
      run_bind Hrun as u s5 Hthen. run_steps. apply monitors_grow_same.
      apply monitors_NewObject in Hnew, Hf, Hr. apply monitors_Promise_Then in Hthen.
      congruence. }
    destruct (IsNativeError _ _).
    { run_bind Hrun as e s1 Hnew. run_steps. apply monitors_grow_same.
      by apply monitors_NewObject in Hnew. }
    destruct (IsArray _ _).
    { run_bind Hrun as arr s1 Hcast. run_bind Hrun as elements s2 Hes.
      run_bind Hrun as cloned_arr s3 Hnew. run_bind Hrun as u s4 Hloop. run_steps.
      apply Array_elements_state in Hes as ->.
      assert (Hfresh : heap st !! cloned_arr = None).
      { unfold Array_New in Hnew. apply NewObject_Some in Hnew. simplify_eq.
        apply fresh_not_in_heap. }
      pose proof Hnew as Hev. apply evolves_NewObject in Hev; [|no_proxy].
      apply monitors_NewObject in Hnew.
      destruct u. cut (evolves st s4 ∧ monitors_grow st s4); [by intros [_ ?]|].
      revert Hloop.
      apply (for_each_inv (λ s, evolves st s ∧ monitors_grow st s));
        [split; [done | by apply monitors_grow_same]|].
      intros i s s' _ [Hs Hm] Hbody. run_bind Hbody as maybe_element s5 Hget.
      run_bind Hbody as element s6 Hck. run_bind Hbody as passed s7 Hpass. run_steps.
      apply Array_Get_state in Hget as ->.
      pose proof (proj1 (frame fuel) _ _ _ _ _ _ _ _ Hpass) as Hev'.
      split.
      - apply evolves_alter_new; [by eapply evolves_trans|done|apply set_element_kind].
      - apply monitors_grow_alter; [|apply set_element_keeps_function].
        eapply monitors_grow_trans; [exact Hs|exact Hev'|exact Hm|]. by eapply IHpass. }
    destruct (IsObject _ && _).
    { run_bind Hrun as api s1 Hcast. run_bind Hrun as proxy s2 Hproxy. run_steps.
      by eapply IHproxy. }
    destruct (IsNull _); [run_steps; by apply monitors_grow_same|].
    destruct (IsUndefined _); [run_steps; by apply monitors_grow_same|].
    destruct (ConvertFromV8_Value _); run_steps; by apply monitors_grow_same.
  - rewrite CreateProxyForAPI_S in Hrun. run_bind Hrun as top s1 Hnew.
    run_bind Hrun as maybe_keys s2 Hkeys.
    apply GetOwnPropertyNames_state in Hkeys as ->.
    unfold Object_New in Hnew.
    assert (Hfresh : heap st !! top = None).
    { apply NewObject_Some in Hnew. simplify_eq. apply fresh_not_in_heap. }
    pose proof Hnew as Hev. apply evolves_NewObject in Hev; [|no_proxy].
    apply monitors_NewObject in Hnew.
    destruct maybe_keys as [keys|]; [|run_steps; by apply monitors_grow_same].
    run_bind Hrun as u s3 Hloop. destruct u. run_steps.
    cut (evolves st s3 ∧ monitors_grow st s3); [by intros [_ ?]|].
    revert Hloop.
    apply (for_each_inv (λ s, evolves st s ∧ monitors_grow st s));
      [split; [done | by apply monitors_grow_same]|].
    intros key s s' _ [Hs Hm] Hbody. unfold proxy_key in Hbody.
    destruct (key_to_string key) as [key_str|]; [|by run_steps].
    run_bind Hbody as maybe_value s4 Hget. apply Dictionary_Get_state in Hget as ->.
    destruct maybe_value as [value|]; [|by run_steps].
    run_bind Hbody as h s5 Hh. run_steps.
    assert (Hstep : ∀ t v, evolves s t → monitors_grow s t →
              evolves st (set_heap (alter (define_property key_str v kNone) top) t) ∧
              monitors_grow st (set_heap (alter (define_property key_str v kNone) top) t)).
    { intros t v Hev' Hm'. split.
      - apply evolves_alter_new; [by eapply evolves_trans|done|apply define_property_kind].
      - apply monitors_grow_alter; [|apply define_property_keeps_function].
        by eapply monitors_grow_trans. }
    destruct (IsFunction _ _).
    { run_bind Hbody as func t1 Hcast. run_bind Hbody as func_id t2 Htake.
      run_bind Hbody as u t3 Hins. run_bind Hbody as method t4 Hmethod. run_steps.
      apply Hstep.
      - by destruct (evolves_proxied_function _ _ _ _ _ _ _ _ _ _ Htake Hins Hmethod).
      - apply monitors_grow_same.
        by destruct (monitors_proxied_function _ _ _ _ _ _ _ _ _ _ Htake Hins Hmethod). }
    destruct (_ && _).
    { run_bind Hbody as sub_api t1 Hcast. run_bind Hbody as sub_proxy t2 Hsub. run_steps.
      apply Hstep; [exact (proj2 (frame fuel) _ _ _ _ _ _ _ _ Hsub) | by eapply IHproxy]. }
    run_bind Hbody as passed t1 Hpass. run_steps.
    apply Hstep; [exact (proj1 (frame fuel) _ _ _ _ _ _ _ _ Hpass) | by eapply IHpass].
Qed.

End Monitors.

Lemma monitors_are_bound_to_proxies_witness :
  ∃ r st',
    PassValueToOtherContext (H := Example.engine) 2 Example.isolated_world
      Example.isolated_world Example.main_world (v8Object 3%N) (Some 7%N) Example.page
      = Some (r, st') ∧
    monitors_grow Example.page st'.
Proof.
  assert (Hrun : ∃ r st',
            PassValueToOtherContext (H := Example.engine) 2 Example.isolated_world
              Example.isolated_world Example.main_world (v8Object 3%N) (Some 7%N)
              Example.page = Some (r, st')).
  { eexists _, _. vm_compute. reflexivity. }
  destruct Hrun as (r & st' & Hrun). exists r, st'. split; [exact Hrun|].
  exact (proj1 (monitors_are_bound_to_proxies (H := Example.engine) 2)
           _ _ _ _ _ _ _ _ Hrun).
Defined.
(** * Arrays that can be marshalled and arrays that cannot *)


Section ArrayRuns.

Context `{Engine}.



End ArrayRuns.



(** * Promises whose settlement can be marshalled and promises whose cannot *)

Section Settlements.

Context `{Engine}.



End Settlements.



